(** * Directory search and media association: a verification development

    A shallow embedding of the business directory controller
    (business-directory/business-controller.js), of the storage helpers
    (common-utils/storage-utils.js) and of the validation helpers
    (common-utils/validation-utils.js), with the slices of the JavaScript
    runtime, of Node's [path] module, of joi, of Firestore and of the storage
    bucket that these functions call; then of the tag controllers, of the
    search of posts, of the chat controller (live-chat/chat-controller.js) and
    of the upload of a user's photo (user-management/user-controller.js). *)

From Stdlib Require Import Ascii String List Bool Arith Lia QArith.
From stdpp Require Import base option list gmap strings.

Local Open Scope nat_scope.

(** ** JavaScript strings

    A string is a sequence of code units; the model keeps one code unit per
    character and covers the ASCII range, where [toLowerCase] is the letter
    map A-Z to a-z and every other code unit is left alone.  Outside that
    range JavaScript folds other letters too, which the model does not follow:
    the statements about the case of letters take their strings in the ASCII
    range. *)

Definition code (c : ascii) : nat := nat_of_ascii c.

Definition is_digit (c : ascii) : bool := (48 <=? code c) && (code c <=? 57).
Definition is_upper (c : ascii) : bool := (65 <=? code c) && (code c <=? 90).
Definition is_lower (c : ascii) : bool := (97 <=? code c) && (code c <=? 122).
Definition is_alphanum (c : ascii) : bool := is_digit c || is_upper c || is_lower c.

Definition lower_char (c : ascii) : ascii :=
  if is_upper c then ascii_of_nat (code c + 32) else c.

Fixpoint toLowerCase (s : string) : string :=
  match s with
  | EmptyString => EmptyString
  | String c s' => String (lower_char c) (toLowerCase s')
  end.

(** [s.startsWith(p)] *)
Fixpoint startsWith (s p : string) {struct p} : bool :=
  match p, s with
  | EmptyString, _ => true
  | String _ _, EmptyString => false
  | String a p', String b s' => Ascii.eqb a b && startsWith s' p'
  end.

(** [s.includes(t)]: [t] starts at some position of [s]. *)
Fixpoint includes (s t : string) : bool :=
  startsWith s t ||
  match s with
  | EmptyString => false
  | String _ s' => includes s' t
  end.

(** [s.endsWith(suffix)]: some tail of [s] is [suffix]. *)
Fixpoint endsWith (s suffix : string) : bool :=
  String.eqb s suffix ||
  match s with
  | EmptyString => false
  | String _ s' => endsWith s' suffix
  end.

(** [s.split(sep)] for a separator of one character; the result is never
    empty: [''.split(',')] is [['']]. *)
Fixpoint split (sep : ascii) (s : string) : list string :=
  match s with
  | EmptyString => [EmptyString]
  | String c s' =>
      if Ascii.eqb c sep then EmptyString :: split sep s'
      else match split sep s' with
           | [] => [String c EmptyString]
           | w :: ws => String c w :: ws
           end
  end.

Definition all_chars (p : ascii -> bool) (s : string) : bool :=
  forallb p (list_ascii_of_string s).

(** ** JavaScript values *)

#[local] Set Warnings "-register-all".

Inductive JsVal : Type :=
| JUndefined
| JNull
| JBool (b : bool)
| JNum (q : Q)
| JStr (s : string)
| JArr (items : list JsVal)
| JObj (fields : list (string * JsVal)).

(** Property read [o.k] on an object: [undefined] when the key is missing. *)
Fixpoint get_field (fs : list (string * JsVal)) (k : string) : JsVal :=
  match fs with
  | [] => JUndefined
  | (k', v) :: fs' => if String.eqb k' k then v else get_field fs' k
  end.

(** Assignment [o.k = v]: an existing key keeps its place, a new key is
    appended. *)
Fixpoint set_field (fs : list (string * JsVal)) (k : string) (v : JsVal)
  : list (string * JsVal) :=
  match fs with
  | [] => [(k, v)]
  | (k', v') :: fs' =>
      if String.eqb k' k then (k, v) :: fs' else (k', v') :: set_field fs' k v
  end.

Definition truthy (v : JsVal) : bool :=
  match v with
  | JUndefined | JNull => false
  | JBool b => b
  | JNum q => negb (Qeq_bool q 0)
  | JStr s => negb (String.eqb s "")
  | JArr _ | JObj _ => true
  end.

(** [a === b].  Arrays and objects compare by reference; two values read from
    different places of a parsed body are never the same reference. *)
Definition strict_eq (a b : JsVal) : bool :=
  match a, b with
  | JUndefined, JUndefined => true
  | JNull, JNull => true
  | JBool x, JBool y => Bool.eqb x y
  | JNum x, JNum y => Qeq_bool x y
  | JStr x, JStr y => String.eqb x y
  | _, _ => false
  end.

(** What a JavaScript call does: it returns or it throws. *)
Inductive JsError : Type :=
| Error (message : string)
| TypeError (subject : string)
| StoreError (code : string).

Inductive Completion (A : Type) : Type :=
| Return (a : A)
| Throw (e : JsError).
Arguments Return {A} a.
Arguments Throw {A} e.

#[global] Instance completion_ret : MRet Completion := fun _ a => Return a.
#[global] Instance completion_bind : MBind Completion := fun _ _ k m =>
  match m with
  | Return a => k a
  | Throw e => Throw e
  end.

(** ** Node's [path] module (POSIX flavour) *)

Definition slash : ascii := "/"%char.
Definition dot : ascii := "."%char.

(** The path without its trailing slashes. *)
Fixpoint strip_trailing_slashes (p : string) : string :=
  match p with
  | EmptyString => EmptyString
  | String c p' =>
      match strip_trailing_slashes p' with
      | EmptyString => if Ascii.eqb c slash then EmptyString else String c EmptyString
      | r => String c r
      end
  end.

(** [path.basename(p)]: the last portion of the path. *)
Definition path_basename (p : string) : string :=
  List.last (split slash (strip_trailing_slashes p)) EmptyString.

(** Position of the last dot of [s], if any. *)
Fixpoint last_dot (s : string) : option nat :=
  match s with
  | EmptyString => None
  | String c s' =>
      match last_dot s' with
      | Some i => Some (S i)
      | None => if Ascii.eqb c dot then Some 0 else None
      end
  end.

(** Where the extension of a base name starts: at its last dot, unless there
    is none, the dot is the first character, or the name is [..]. *)
Definition ext_start (base : string) : option nat :=
  match last_dot base with
  | None => None
  | Some 0 => None
  | Some i => if String.eqb base ".." then None else Some i
  end.

(** [path.extname(p)] *)
Definition path_extname (p : string) : string :=
  let base := path_basename p in
  match ext_start base with
  | None => EmptyString
  | Some i => String.substring i (String.length base - i) base
  end.

(** [path.parse(p).name] *)
Definition path_parse_name (p : string) : string :=
  let base := path_basename p in
  match ext_start base with
  | None => base
  | Some i => String.substring 0 i base
  end.

(** [path.basename(p, ext)], for [ext] empty or an ending of the last
    portion (the callers pass [path.extname(p)]): the last portion without
    [ext], unless the last portion is [ext] itself. *)
Definition path_basename_ext (p ext : string) : string :=
  let base := path_basename p in
  if String.eqb ext "" then base
  else if String.eqb p ext then EmptyString
  else if String.eqb base ext then base
  else if endsWith base ext
       then String.substring 0 (String.length base - String.length ext) base
       else base.

(** ** joi

    A schema carries its presence flag, its allowed values, the conversion
    joi applies before checking (the [convert] preference is on by default)
    and the check of its type followed by its rules.  [validate] stops at the
    first error, so a schema passes exactly when every check passes. *)

Record Schema : Type := mkSchema {
  presence_required : bool;
  valids : list JsVal;
  only : bool;
  coerce : JsVal -> JsVal;
  base : JsVal -> bool
}.

(** Whether [schema.validate(v)] carries an [error]. *)
Definition has_error (s : Schema) (v : JsVal) : bool :=
  match coerce s v with
  | JUndefined => presence_required s
  | v' =>
      if existsb (strict_eq v') (valids s) then false
      else if only s then true
      else negb (base s v')
  end.

Definition required (s : Schema) : Schema :=
  mkSchema true (valids s) (only s) (coerce s) (base s).

Definition allow (vs : list JsVal) (s : Schema) : Schema :=
  mkSchema (presence_required s) (valids s ++ vs) (only s) (coerce s) (base s).

Definition valid (vs : list JsVal) (s : Schema) : Schema :=
  mkSchema (presence_required s) (valids s ++ vs) true (coerce s) (base s).

Definition rule (r : JsVal -> bool) (s : Schema) : Schema :=
  mkSchema (presence_required s) (valids s) (only s) (coerce s)
           (fun v => base s v && r v).

Definition string_rule (p : string -> bool) : Schema -> Schema :=
  rule (fun v => match v with JStr x => p x | _ => false end).

(** [joi.string()]: a string, and not the empty one. *)
Definition joi_string : Schema :=
  mkSchema false [] false id
           (fun v => match v with JStr x => negb (String.eqb x "") | _ => false end).

(** [.alphanum()]: [/^[a-zA-Z0-9]+$/] *)
Definition alphanum : Schema -> Schema :=
  string_rule (fun x => negb (String.eqb x "") && all_chars is_alphanum x).

(** [.length(n)] *)
Definition length_is (n : nat) : Schema -> Schema :=
  string_rule (fun x => String.length x =? n).

(** [.regex(re)], the pattern given by its matcher. *)
Definition regex (re : string -> bool) : Schema -> Schema := string_rule re.

(** [joi.boolean()]: the strings [true] and [false], in any case, are
    converted first. *)
Definition joi_boolean : Schema :=
  mkSchema false [] false
           (fun v => match v with
                     | JStr x =>
                         if String.eqb (toLowerCase x) "true" then JBool true
                         else if String.eqb (toLowerCase x) "false" then JBool false
                         else v
                     | _ => v
                     end)
           (fun v => match v with JBool _ => true | _ => false end).

(** [joi.array()] *)
Definition joi_array : Schema :=
  mkSchema false [] false id
           (fun v => match v with JArr _ => true | _ => false end).

(** [.items(s)]: every item is defined and passes [s]. *)
Definition items (s : Schema) : Schema -> Schema :=
  rule (fun v => match v with
                 | JArr xs =>
                     forallb (fun x => match x with
                                       | JUndefined => false
                                       | _ => negb (has_error s x)
                                       end) xs
                 | _ => false
                 end).

(** [.unique(comparator)]: each item is compared with the items before it. *)
Fixpoint unique_from (cmp : JsVal -> JsVal -> bool) (seen xs : list JsVal) : bool :=
  match xs with
  | [] => true
  | x :: xs' =>
      negb (existsb (fun y => cmp y x) seen) && unique_from cmp (seen ++ [x]) xs'
  end.

Definition unique (cmp : JsVal -> JsVal -> bool) : Schema -> Schema :=
  rule (fun v => match v with JArr xs => unique_from cmp [] xs | _ => false end).

(** [joi.object()]: any object that is not an array. *)
Definition joi_object_any : Schema :=
  mkSchema false [] false id
           (fun v => match v with JObj _ => true | _ => false end).

(** [joi.object({ k: s, ... })]: every listed key passes its schema and no
    other key is present. *)
Definition joi_object (keys : list (string * Schema)) : Schema :=
  mkSchema false [] false id
           (fun v => match v with
                     | JObj fs =>
                         forallb (fun ks => negb (has_error (snd ks) (get_field fs (fst ks)))) keys
                         && forallb (fun kv => existsb (fun ks => String.eqb (fst ks) (fst kv)) keys) fs
                     | _ => false
                     end).

Notation "s '.>' f" := (f s) (at level 45, left associativity, only parsing).

(** [/^\d{2}:\d{2}$/] *)
Definition re_two_digits_colon_two_digits (x : string) : bool :=
  match x with
  | String a (String b (String c (String d (String e EmptyString)))) =>
      is_digit a && is_digit b && Ascii.eqb c ":"%char && is_digit d && is_digit e
  | _ => false
  end.

(** [v.k] for a value that is not [null] or [undefined]: primitives and
    arrays have no property of the names read here. *)
Definition prop (v : JsVal) (k : string) : JsVal :=
  match v with
  | JObj fs => get_field fs k
  | _ => JUndefined
  end.

(** [v.k] as a statement: reading a property of [null] or [undefined]
    throws. *)
Definition read_prop (v : JsVal) (k : string) : Completion JsVal :=
  match v with
  | JUndefined | JNull => Throw (TypeError k)
  | _ => Return (prop v k)
  end.

(** [v.k = x] on an object. *)
Definition assign_prop (v : JsVal) (k : string) (x : JsVal) : JsVal :=
  match v with
  | JObj fs => JObj (set_field fs k x)
  | _ => v
  end.

(** [v.split(sep)]: only strings have the method. *)
Definition call_split (v : JsVal) (sep : ascii) : Completion (list string) :=
  match v with
  | JStr x => Return (split sep x)
  | _ => Throw (TypeError "split")
  end.

(** [v.toLowerCase()]: only strings have the method. *)
Definition call_toLowerCase (v : JsVal) : Completion string :=
  match v with
  | JStr x => Return (toLowerCase x)
  | _ => Throw (TypeError "toLowerCase")
  end.

(** ** common-utils/validation-utils.js *)

Definition is_letter (c : ascii) : bool := is_upper c || is_lower c.
Definition is_separator (c : ascii) : bool :=
  Ascii.eqb c "/"%char || Ascii.eqb c "\"%char.

(** [(?:[^\\/]+[\\/])*[^\\/]+$]: portions that are not empty, one separator
    between two of them, none at the end. [fresh] tells that a portion is
    about to start. *)
Fixpoint re_portions (fresh : bool) (x : string) : bool :=
  match x with
  | EmptyString => negb fresh
  | String c x' =>
      if is_separator c then negb fresh && re_portions true x'
      else re_portions false x'
  end.

Definition re_rooted_portions (x : string) : bool :=
  match x with
  | EmptyString => false
  | String c x' => is_separator c && re_portions true x'
  end.

(** [/^(?:[a-zA-Z]:)?[\\/](?:[^\\/]+[\\/])*[^\\/]+$/] *)
Definition re_file_path (x : string) : bool :=
  match x with
  | String c (String ":" x') =>
      if is_letter c then re_rooted_portions x' else re_rooted_portions x
  | _ => re_rooted_portions x
  end.

Definition isFilePath (filePath : string) : bool := re_file_path filePath.

Definition isCollectionId (collectionId : JsVal) : bool :=
  let schema := joi_string .> alphanum .> length_is 20 .> required in
  negb (has_error schema collectionId).

(** ** business-directory/business-controller.js: the validators *)

Section Validators.

(** joi's [email()] and [uri()] grammars, taken as given. *)
Variable isEmail : string -> bool.
Variable isUri : string -> bool.

Definition email : Schema -> Schema := string_rule isEmail.
Definition uri : Schema -> Schema := string_rule isUri.

Definition daysOfWeek : list string :=
  ["Sunday"; "Monday"; "Tuesday"; "Wednesday"; "Thursday"; "Friday"; "Saturday"].

Definition daySchema : Schema :=
  joi_object
    [ ("day", joi_string .> valid (map JStr daysOfWeek) .> required);
      ("isOpen", joi_boolean .> required);
      ("commence", joi_string .> regex re_two_digits_colon_two_digits .> allow [JNull] .> required);
      ("finish", joi_string .> regex re_two_digits_colon_two_digits .> allow [JNull] .> required) ].

(** [(a, b) => a.day === b.day] *)
Definition same_day (a b : JsVal) : bool := strict_eq (prop a "day") (prop b "day").

Definition businessSchema : Schema :=
  joi_object
    [ ("name", joi_string .> required);
      ("description", joi_string .> allow [JNull] .> required);
      ("tags", joi_array .> items (joi_string .> alphanum .> length_is 20) .> allow [JNull] .> required);
      ("phoneNumber", joi_string .> allow [JNull] .> required);
      ("phoneNumberSecondary", joi_string .> allow [JNull] .> required);
      ("email", joi_string .> email .> allow [JNull] .> required);
      ("website", joi_string .> uri .> allow [JNull] .> required);
      ("address", joi_string .> allow [JNull] .> required);
      ("city", joi_string .> allow [JNull] .> required);
      ("isFeatured", joi_boolean .> required);
      ("timeTable", joi_array .> items daySchema .> unique same_day .> required);
      ("appointments", joi_object_any .> required);
      ("featuredImageURL", joi_string .> uri .> allow [JNull] .> required) ].

Definition isBusiness (business : JsVal) : bool :=
  negb (has_error businessSchema business).

End Validators.

Definition searchSchema : Schema :=
  joi_object
    [ ("name", joi_string .> allow [JNull; JStr ""] .> required);
      ("city", joi_string .> allow [JNull; JStr ""] .> required);
      ("tags", joi_array .> items joi_string .> allow [JNull; JStr ""] .> required) ].

(** [isSearchParameters(searchParams)]: the outcome of the call and the
    candidate object as the call leaves it.  The result of [validate] owns an
    [error] property exactly when validation failed. *)
Definition isSearchParameters (searchParams : JsVal) : Completion bool * JsVal :=
  match read_prop searchParams "tags" with
  | Throw e => (Throw e, searchParams)
  | Return tags =>
      if truthy tags then
        match call_split tags ","%char with
        | Throw e => (Throw e, searchParams)
        | Return parts =>
            let searchParams' := assign_prop searchParams "tags" (JArr (map JStr parts)) in
            (Return (negb (has_error searchSchema searchParams')), searchParams')
        end
      else (Return (negb (has_error searchSchema searchParams)), searchParams)
  end.

(** ** The business validator as joi runs it

    The one piece of code of the repository that joi calls during a
    validation is the comparator of [unique]; as a call it throws when it
    reads [.day] of [null] or of [undefined].  joi validates the keys of an
    object in the order of the schema and the rules of a key in their order,
    the items of an array before [unique], and stops at the first error
    ([abortEarly], the default); the keys that the schema does not name are
    looked at last. *)

(** [(a, b) => a.day === b.day], as a call *)
Definition same_day_call (a b : JsVal) : Completion bool :=
  x ← read_prop a "day";
  y ← read_prop b "day";
  mret (strict_eq x y).

(** Whether the comparator finds [x] equal to one of the items seen before
    it: it is called on them in their order until it answers [true]. *)
Fixpoint compared_equal (cmp : JsVal -> JsVal -> Completion bool)
    (seen : list JsVal) (x : JsVal) : Completion bool :=
  match seen with
  | [] => Return false
  | y :: seen' =>
      found ← cmp y x;
      if found : bool then Return true else compared_equal cmp seen' x
  end.

(** The [unique] rule as a run: whether no item is found equal to one before
    it. *)
Fixpoint unique_run (cmp : JsVal -> JsVal -> Completion bool)
    (seen xs : list JsVal) : Completion bool :=
  match xs with
  | [] => Return true
  | x :: xs' =>
      found ← compared_equal cmp seen x;
      if found : bool then Return false else unique_run cmp (seen ++ [x]) xs'
  end.

(** A key whose rules call no code of the repository: whether it has an
    error. *)
Definition checked_by (s : Schema) (v : JsVal) : Completion bool :=
  Return (has_error s v).

(** The keys of an object in their order, up to the first error: whether
    there is one. *)
Fixpoint first_error (keys : list (string * (JsVal -> Completion bool)))
    (fs : list (string * JsVal)) : Completion bool :=
  match keys with
  | [] => Return false
  | (k, check) :: keys' =>
      bad ← check (get_field fs k);
      if bad : bool then Return true else first_error keys' fs
  end.

Section ValidatorsRun.

Variable isEmail : string -> bool.
Variable isUri : string -> bool.

(** The key [timeTable]: presence, type and items first, then [unique] with
    the comparator as a call. *)
Definition timeTable_error (v : JsVal) : Completion bool :=
  match v with
  | JArr xs =>
      if has_error (joi_array .> items daySchema .> required) v then Return true
      else distinct ← unique_run same_day_call [] xs;
           mret (negb distinct)
  | _ => Return (has_error (joi_array .> required) v)
  end.

Definition businessKeys_run : list (string * (JsVal -> Completion bool)) :=
  [ ("name", checked_by (joi_string .> required));
    ("description", checked_by (joi_string .> allow [JNull] .> required));
    ("tags", checked_by (joi_array .> items (joi_string .> alphanum .> length_is 20)
                           .> allow [JNull] .> required));
    ("phoneNumber", checked_by (joi_string .> allow [JNull] .> required));
    ("phoneNumberSecondary", checked_by (joi_string .> allow [JNull] .> required));
    ("email", checked_by (joi_string .> email isEmail .> allow [JNull] .> required));
    ("website", checked_by (joi_string .> uri isUri .> allow [JNull] .> required));
    ("address", checked_by (joi_string .> allow [JNull] .> required));
    ("city", checked_by (joi_string .> allow [JNull] .> required));
    ("isFeatured", checked_by (joi_boolean .> required));
    ("timeTable", timeTable_error);
    ("appointments", checked_by (joi_object_any .> required));
    ("featuredImageURL", checked_by (joi_string .> uri isUri .> allow [JNull] .> required)) ].

(** [isBusiness(business)] as a call: what [!schema.validate(business).error]
    evaluates to, or what it throws. *)
Definition isBusiness_run (business : JsVal) : Completion bool :=
  match business with
  | JObj fs =>
      bad ← first_error businessKeys_run fs;
      if bad : bool then Return false
      else Return (forallb (fun kv => existsb (fun ks => String.eqb ks.1 kv.1)
                                              businessKeys_run) fs)
  | JUndefined => Return true
  | _ => Return false
  end.

End ValidatorsRun.

(** ** The document store and the storage bucket

    A Firestore document is a map from field names to values, a collection a
    map from document ids to documents.  The bucket is the list of its object
    names in listing order, with a log of the calls made on it. *)

Inductive BucketCall : Type :=
| FileDelete (name : string)
| Upload (localFilePath destination : string).

Record World : Type := mkWorld {
  firestore : gmap string (gmap string (gmap string JsVal));
  bucket : list string;
  bucketLog : list BucketCall
}.

(** [firestore.collection(name)] *)
Definition collection (w : World) (name : string) : gmap string (gmap string JsVal) :=
  default ∅ (firestore w !! name).

Definition with_collection (w : World) (name : string)
    (c : gmap string (gmap string JsVal)) : World :=
  mkWorld (<[name := c]> (firestore w)) (bucket w) (bucketLog w).

(** The document that the fields of a record make. *)
Definition doc_of (fields : list (string * JsVal)) : gmap string JsVal :=
  list_to_map fields.

(** The objects of the bucket under a folder, in listing order. *)
Definition folder_files (w : World) (folderPath : string) : list string :=
  filter (fun n => startsWith n folderPath = true) (bucket w).

(** An asynchronous function of the controllers: it reads and writes the
    stores and resolves or rejects. *)
Definition Action (A : Type) : Type := World -> Completion A * World.

Definition resolve {A} (a : A) : Action A := fun w => (Return a, w).
Definition throw {A} (e : JsError) : Action A := fun w => (Throw e, w).
Definition lift {A} (c : Completion A) : Action A := fun w => (c, w).

Definition and_then {A B} (m : Action A) (k : A -> Action B) : Action B :=
  fun w => match m w with
           | (Return a, w') => k a w'
           | (Throw e, w') => (Throw e, w')
           end.

Notation "'await' x <- m 'in' k" := (and_then m (fun x => k))
  (at level 10, x name, m at level 100, k at level 200).
Notation "'await_' m 'in' k" := (and_then m (fun _ => k))
  (at level 10, m at level 100, k at level 200).

(** The query operators the controllers use. *)
Inductive Filter : Type :=
| ArrayContainsAny (field : string) (values : list JsVal)
| EqualTo (field : string) (value : JsVal).

(** Whether a document passes a filter.  The values compared are strings, on
    which the store's equality is [strict_eq].  The indexes and the quotas of
    the store are not part of the model. *)
Definition passes (d : gmap string JsVal) (f : Filter) : bool :=
  match f with
  | ArrayContainsAny field values =>
      match d !! field with
      | Some (JArr xs) => existsb (fun x => existsb (strict_eq x) values) xs
      | _ => false
      end
  | EqualTo field value =>
      match d !! field with
      | Some x => strict_eq x value
      | None => false
      end
  end.

(** The documents of a collection that pass every filter of a query, as the
    list of [(doc.id, doc.data())]. *)
Definition snapshot (w : World) (name : string) (query : list Filter)
  : list (string * gmap string JsVal) :=
  filter (fun e => forallb (passes e.2) query) (map_to_list (collection w name)).

(** [query.get()] *)
Definition query_get (name : string) (query : list Filter)
  : Action (list (string * gmap string JsVal)) :=
  fun w => (Return (snapshot w name query), w).

(** [firestore.collection(name).doc(id).delete()]: succeeds whether or not the
    document exists. *)
Definition doc_delete (name id : string) : Action unit :=
  fun w => (Return tt, with_collection w name (delete id (collection w name))).

Section Stores.

(** What the stores decide on their own: which values Firestore takes as
    document data, which files of the bucket refuse to be deleted, which local
    files can be read for an upload, and the signed read URL of an object
    (action [read], expiry [01-01-3000]). *)
Variable storable : JsVal -> bool.
Variable deleteFails : string -> bool.
Variable readable : string -> bool.
Variable signedUrl : string -> string.

(** [firestore.collection(name).doc(id).update(data)]: rejects when the
    document does not exist; otherwise every field of [data] replaces the
    field of that name and the other fields stay.  The field names of the
    records validated here have no dot, so no name is read as a path. *)
Definition doc_update (name id : string) (data : JsVal) : Action unit :=
  fun w =>
    match data with
    | JObj fields =>
        if storable data then
          match collection w name !! id with
          | Some old =>
              (Return tt,
               with_collection w name
                 (<[id := doc_of fields ∪ old]> (collection w name)))
          | None => (Throw (StoreError "not-found"), w)
          end
        else (Throw (StoreError "invalid-argument"), w)
    | _ => (Throw (StoreError "invalid-argument"), w)
    end.

(** [bucket.getFiles({ prefix })] *)
Definition getFiles (prefix : string) : Action (list string) :=
  fun w => (Return (folder_files w prefix), w).

(** [Promise.all(files.map(file => file.delete()))]: every deletion is
    requested; the files that accept are gone; the promise rejects when one
    refuses. *)
Definition delete_all (files : list string) : Action unit :=
  fun w =>
    let w' := mkWorld (firestore w)
                      (filter (fun n => ¬ (n ∈ files ∧ deleteFails n = false)) (bucket w))
                      (bucketLog w ++ map FileDelete files) in
    if existsb deleteFails files then (Throw (StoreError "delete"), w')
    else (Return tt, w').

(** Objects are listed in the order of their names. *)
Fixpoint insert_object (name : string) (files : list string) : list string :=
  match files with
  | [] => [name]
  | f :: files' =>
      if String.eqb name f then f :: files'
      else if String.ltb name f then name :: f :: files'
      else f :: insert_object name files'
  end.

(** [bucket.upload(localFilePath, { destination })] *)
Definition bucket_upload (localFilePath destination : string) : Action unit :=
  fun w =>
    if readable localFilePath then
      (Return tt,
       mkWorld (firestore w) (insert_object destination (bucket w))
               (bucketLog w ++ [Upload localFilePath destination]))
    else (Throw (StoreError "upload"), w).

(** ** common-utils/storage-utils.js

    Each function catches what it throws and throws [Error(error.message)]
    again: the message, which is all the model keeps of an error, is the
    same. *)

Definition deleteFilesInFolder (folderPath : string) : Action bool :=
  await files <- getFiles folderPath in
  await_ delete_all files in
  resolve true.

Definition not_found : JsError :=
  Error "The requested resources could not be found.".

Definition getFileURLWithSuffix (folderPath suffix : string) : Action string :=
  await files <- getFiles folderPath in
  match List.find (fun name => endsWith (path_parse_name name) suffix) files with
  | Some file => resolve (signedUrl file)
  | None => throw not_found
  end.

Definition uploadFileToFolder (folderPath localFilePath remoteFileName : string)
  : Action string :=
  let remoteFilePath := folderPath +:+ "/" +:+ remoteFileName in
  await_ bucket_upload localFilePath remoteFilePath in
  resolve (signedUrl remoteFilePath).

Definition findFeatImageFile (folderPath : string) : Action string :=
  await files <- getFiles folderPath in
  match List.find (fun name =>
                     endsWith (path_basename_ext name (path_extname name)) "-feat") files with
  | Some featImage => resolve featImage
  | None => throw not_found
  end.

End Stores.

(** ** The controllers

    A controller answers once: [response.sendStatus(code)] or
    [response.status(code).json(body)]. *)

Inductive Body : Type :=
| ErrorBody (e : JsError)
| MatchesBody (matches : list (string * gmap string JsVal))
| FileURLBody (fileURL : string).

Inductive Response : Type :=
| SendStatus (code : nat)
| StatusJson (code : nat) (body : Body).

(** [try { ... } catch (error) { response.status(code).json({ error:
    error.message }) }] *)
Definition try_catch (code : nat) (block : Action Response) : World -> Response * World :=
  fun w => match block w with
           | (Return r, w') => (r, w')
           | (Throw e, w') => (StatusJson code (ErrorBody e), w')
           end.

Definition invalid_parameter : JsError :=
  Error "The request parameter provided is not valid or acceptable.".
Definition invalid_body : JsError :=
  Error "The request body provided is not valid or acceptable.".
Definition invalid_query : JsError :=
  Error "The query parameters provided are not valid or acceptable.".

(** [`${x}`] for a value that may be missing. *)
Definition template (x : option string) : string := default "undefined" x.

Section Controllers.

Variable storable : JsVal -> bool.
Variable deleteFails : string -> bool.
Variable readable : string -> bool.
Variable signedUrl : string -> string.

(** The business controller and the post controller have the same text up to
    the name of the collection, which is also the name of the media folder,
    and the validator of the record. *)
Variable kind : string.
Variable isRecord : JsVal -> bool.

(** [updateBusiness], [updatePost] *)
Definition updateRecord (recordId : string) (body : JsVal) : World -> Response * World :=
  try_catch 400 (
    if negb (isCollectionId (JStr recordId)) then throw invalid_parameter else
    let recordUpdate := body in
    if negb (isRecord recordUpdate) then throw invalid_body else
    await_ doc_update storable kind recordId recordUpdate in
    resolve (SendStatus 200)).

(** [deleteBusinessAndFiles], [deletePostAndFiles] *)
Definition deleteRecordAndFiles (recordId : string) : World -> Response * World :=
  try_catch 400 (
    if negb (isCollectionId (JStr recordId)) then throw invalid_parameter else
    await_ doc_delete kind recordId in
    await_ deleteFilesInFolder deleteFails (kind +:+ "/" +:+ recordId +:+ "/") in
    resolve (SendStatus 200)).

(** [getBusinessFeatImage], [getPostFeatImage] *)
Definition getRecordFeatImage (recordId : string) : World -> Response * World :=
  try_catch 500 (
    if negb (isCollectionId (JStr recordId)) then throw invalid_parameter else
    await fileURL <- getFileURLWithSuffix signedUrl (kind +:+ "/" +:+ recordId +:+ "/") "-feat" in
    resolve (StatusJson 200 (FileURLBody fileURL))).

(** [deleteBusinessFeatImage], [deletePostFeatImage] *)
Definition deleteRecordFeatImage (recordId : string) : World -> Response * World :=
  try_catch 500 (
    if negb (isCollectionId (JStr recordId)) then throw invalid_parameter else
    await featImage <- findFeatImageFile (kind +:+ "/" +:+ recordId +:+ "/") in
    await_ delete_all deleteFails [featImage] in
    resolve (SendStatus 200)).

(** [const [baseName, extension] = fileName.split('.');
     const remoteFileName = `${baseName}-feat.${extension}`;] *)
Definition featRemoteFileName (fileName : string) : string :=
  let parts := split dot fileName in
  let baseName := parts !! 0 in
  let extension := parts !! 1 in
  template baseName +:+ "-feat." +:+ template extension.

(** [uploadBusinessFeatImage], [uploadPostFeatImage]; the body carries the
    local path as a string. *)
Definition uploadRecordFeatImage (recordId localFilePath : string)
  : World -> Response * World :=
  try_catch 500 (
    if negb (isCollectionId (JStr recordId)) then throw invalid_parameter else
    if negb (isFilePath localFilePath) then throw invalid_body else
    let remoteFolder := kind +:+ "/" +:+ recordId in
    let fileName := path_basename localFilePath in
    let remoteFileName := featRemoteFileName fileName in
    await fileURL <- uploadFileToFolder readable signedUrl remoteFolder localFilePath remoteFileName in
    resolve (StatusJson 200 (FileURLBody fileURL))).

End Controllers.

(** [businessData.name.toLowerCase().includes(name.toLowerCase())] *)
Definition name_includes (businessData : gmap string JsVal) (name : JsVal) : Completion bool :=
  dataName ← call_toLowerCase (default JUndefined (businessData !! "name"));
  wanted ← call_toLowerCase name;
  mret (includes dataName wanted).

(** [querySnapshot.forEach((doc) => { if (...) matchedBusinesses.push(...) })] *)
Fixpoint forEach_push (name : JsVal) (docs matched : list (string * gmap string JsVal))
  : Completion (list (string * gmap string JsVal)) :=
  match docs with
  | [] => Return matched
  | doc :: docs' =>
      hit ← name_includes doc.2 name;
      forEach_push name docs' (if hit : bool then matched ++ [doc] else matched)
  end.

(** The query that [getMatchingBusinesses] composes. *)
Definition businessQuery (city tags : JsVal) : Completion (list Filter) :=
  query ← (if truthy tags
           then parts ← call_split tags ","%char;
                mret [ArrayContainsAny "tags" (map JStr parts)]
           else mret []);
  if truthy city
  then lowered ← call_toLowerCase city;
       mret (query ++ [EqualTo "city" (JStr lowered)])
  else mret query.

(** [getMatchingBusinesses]; [query] is [request.query]. *)
Definition getMatchingBusinesses (query : JsVal) : World -> Response * World :=
  try_catch 400 (
    let name := prop query "name" in
    let city := prop query "city" in
    let tags := prop query "tags" in
    await accepted <- lift (isSearchParameters
                              (JObj [("name", name); ("city", city); ("tags", tags)])).1 in
    if negb accepted then throw invalid_query else
    await composed <- lift (businessQuery city tags) in
    await querySnapshot <- query_get "business" composed in
    await matchedBusinesses <- lift (forEach_push name querySnapshot []) in
    resolve (StatusJson 200 (MatchesBody matchedBusinesses))).

(** The business controller. *)
Definition updateBusiness (isEmail isUri : string -> bool) (storable : JsVal -> bool) :=
  updateRecord storable "business" (isBusiness isEmail isUri).
Definition deleteBusinessAndFiles (deleteFails : string -> bool) :=
  deleteRecordAndFiles deleteFails "business".
Definition getBusinessFeatImage (signedUrl : string -> string) :=
  getRecordFeatImage signedUrl "business".
Definition deleteBusinessFeatImage (deleteFails : string -> bool) :=
  deleteRecordFeatImage deleteFails "business".
Definition uploadBusinessFeatImage (readable : string -> bool) (signedUrl : string -> string) :=
  uploadRecordFeatImage readable signedUrl "business".

(** The post controller, over the post validator [isPost] taken as given. *)
Definition updatePost (isPost : JsVal -> bool) (storable : JsVal -> bool) :=
  updateRecord storable "post" isPost.
Definition deletePostAndFiles (deleteFails : string -> bool) :=
  deleteRecordAndFiles deleteFails "post".
Definition getPostFeatImage (signedUrl : string -> string) :=
  getRecordFeatImage signedUrl "post".
Definition deletePostFeatImage (deleteFails : string -> bool) :=
  deleteRecordFeatImage deleteFails "post".
Definition uploadPostFeatImage (readable : string -> bool) (signedUrl : string -> string) :=
  uploadRecordFeatImage readable signedUrl "post".

(** ** Vocabulary of the statements *)

(** A store-assigned document id: 20 characters, letters and digits. *)
Definition well_formed_id (id : string) : Prop :=
  String.length id = 20 /\ all_chars is_alphanum id = true.

(** A field name without a dot. *)
Definition plain_name (k : string) : bool :=
  negb (existsb (Ascii.eqb dot) (list_ascii_of_string k)).

(** The tag criterion is empty, or a comma-separated list with no empty
    item. *)
Definition tags_accepted (tags : string) : bool :=
  String.eqb tags "" ||
  forallb (fun t => negb (String.eqb t "")) (split ","%char tags).



(** The document has a name, and the name is a string. *)
Definition has_name (d : gmap string JsVal) : Prop :=
  exists dataName, d !! "name" = Some (JStr dataName).

Definition all_named (docs : list (string * gmap string JsVal)) : Prop :=
  Forall (fun e => has_name e.2) docs.

(** The name test of the search on a document. *)
Definition name_matches (name : string) (d : gmap string JsVal) : bool :=
  match d !! "name" with
  | Some (JStr dataName) => includes (toLowerCase dataName) (toLowerCase name)
  | _ => false
  end.


(** Every character of the string is in the ASCII range, where the [toLowerCase]
    of the model is the one of JavaScript. *)
Definition ascii_only (s : string) : bool := all_chars (fun c => code c <? 128) s.

(** The document carries a list of tags, one of which is wanted. *)
Definition shares_a_tag (d : gmap string JsVal) (wanted : list string) : Prop :=
  exists xs t, d !! "tags" = Some (JArr xs) /\ JStr t ∈ xs /\ t ∈ wanted.

(** ** Sample data *)

Definition sampleId : string := "abcdefghij0123456789".
Definition otherId : string := "ABCDEFGHIJ0123456789".
Definition tagA : string := "tagA0000000000000000".
Definition tagB : string := "tagB0000000000000000".

Definition sampleDay (d : string) (commence : JsVal) : JsVal :=
  JObj [("day", JStr d); ("isOpen", JBool true); ("commence", commence); ("finish", JNull)].

Definition sampleFields (name city : string) (tags timeTable : list JsVal)
  : list (string * JsVal) :=
  [ ("name", JStr name); ("description", JNull); ("tags", JArr tags);
    ("phoneNumber", JNull); ("phoneNumberSecondary", JNull); ("email", JNull);
    ("website", JNull); ("address", JNull); ("city", JStr city);
    ("isFeatured", JBool false); ("timeTable", JArr timeTable);
    ("appointments", JObj []); ("featuredImageURL", JNull) ].

Definition cafeFields : list (string * JsVal) :=
  sampleFields "Joe's Cafe" "paris" [JStr tagA; JStr tagB]
               [sampleDay "Monday" (JStr "09:00"); sampleDay "Tuesday" JNull].

Definition barFields : list (string * JsVal) :=
  sampleFields "Bar" "lyon" [] [].

Definition sampleWorld : World :=
  mkWorld {[ "business" := {[ sampleId := doc_of cafeFields; otherId := doc_of barFields ]} ]}
          [ "business/abcdefghij0123456789/a-feat.png";
            "business/abcdefghij0123456789/b.png" ]
          [].

(** A stored document with a field that the schema does not name. *)
Definition legacyWorld : World :=
  mkWorld {[ "business" := {[ sampleId := doc_of (cafeFields ++ [("legacy", JStr "kept")]) ]} ]}
          [] [].

Definition emptyWorld : World := mkWorld ∅ [] [].

Definition anyEmail : string -> bool := fun _ => true.
Definition anyUri : string -> bool := fun _ => true.
Definition anyValue : JsVal -> bool := fun _ => true.
Definition noFailure : string -> bool := fun _ => false.
Definition url_of : string -> string := fun name => "https://storage/" +:+ name.

(** ** The other validators of common-utils/validation-utils.js *)

(** [\w] and, on the ASCII range, [\s]. *)
Definition is_word (c : ascii) : bool := is_alphanum c || Ascii.eqb c "_"%char.
Definition is_space (c : ascii) : bool :=
  ((9 <=? code c) && (code c <=? 13)) || (code c =? 32).

(** Where the matcher of [\w+(?:\s+\w+)*] stands: nothing read yet, inside a
    word, inside a run of spaces. *)
Inductive WordsState : Type := AtStart | InWord | InSpaces.

(** [/^\w+(?:\s+\w+)*$/] *)
Fixpoint re_words_from (state : WordsState) (x : string) : bool :=
  match x with
  | EmptyString => match state with InWord => true | _ => false end
  | String c x' =>
      if is_word c then re_words_from InWord x'
      else if is_space c
           then match state with
                | AtStart => false
                | _ => re_words_from InSpaces x'
                end
           else false
  end.

Definition re_words (x : string) : bool := re_words_from AtStart x.

Definition isTag (tag : JsVal) : bool :=
  let schema := joi_object [("name", joi_string .> required .> regex re_words)] in
  negb (has_error schema tag).

Definition isUserId (userId : JsVal) : bool :=
  let schema := joi_string .> alphanum .> length_is 28 .> required in
  negb (has_error schema userId).

(** ** Answers with other bodies

    [Sent] is [response.sendStatus(code)], [Json] is
    [response.status(code).json(body)] and [Failed] is
    [response.status(code).json({ error: error.message })]. *)
Inductive Reply (B : Type) : Type :=
| Sent (code : nat)
| Json (code : nat) (body : B)
| Failed (code : nat) (e : JsError).
Arguments Sent {B} code.
Arguments Json {B} code body.
Arguments Failed {B} code e.

Definition try_reply {B} (code : nat) (block : Action (Reply B))
  : World -> Reply B * World :=
  fun w => match block w with
           | (Return r, w') => (r, w')
           | (Throw e, w') => (Failed code e, w')
           end.

(** [firestore.collection(name).doc(id).get()]: the data of the document when
    it exists. *)
Definition doc_get (name id : string) : Action (option (gmap string JsVal)) :=
  fun w => (Return (collection w name !! id), w).

Section Creation.

Variable storable : JsVal -> bool.

(** The id that the store generates for a new document of a collection. *)
Variable autoId : World -> string -> string.

(** [firestore.collection(name).add(data)]: a document reference with a
    generated id is made and [data] is set on it. *)
Definition collection_add (name : string) (data : JsVal) : Action string :=
  fun w =>
    match data with
    | JObj fields =>
        if storable data then
          let id := autoId w name in
          (Return id,
           with_collection w name (<[id := doc_of fields]> (collection w name)))
        else (Throw (StoreError "invalid-argument"), w)
    | _ => (Throw (StoreError "invalid-argument"), w)
    end.

Variable kind : string.
Variable isRecord : JsVal -> bool.

(** [addNewBusiness], [addNewPost], [addNewBusinessTag], [addNewPostTag];
    the answer carries the id of the new document. *)
Definition addNewRecord (body : JsVal) : World -> Reply string * World :=
  try_reply 400 (
    let newRecord := body in
    if negb (isRecord newRecord) then throw invalid_body else
    await recordRef <- collection_add kind newRecord in
    resolve (Json 200 recordRef)).

End Creation.

Section Reading.

Variable kind : string.

(** [getAllBusinesses], [getAllPosts], [getAllBusinessTags],
    [getAllPostTags] *)
Definition getAllRecords : World -> Reply (list (string * gmap string JsVal)) * World :=
  try_reply 400 (
    await querySnapshot <- query_get kind [] in
    resolve (Json 200 querySnapshot)).

(** [getFeatBusinesses], [getFeatPosts]; the value compared is a boolean, on
    which the store's equality is [strict_eq] too. *)
Definition getFeatRecords : World -> Reply (list (string * gmap string JsVal)) * World :=
  try_reply 400 (
    await querySnapshot <- query_get kind [EqualTo "isFeatured" (JBool true)] in
    resolve (Json 200 querySnapshot)).

(** [deleteBusinessTag], [deletePostTag] *)
Definition deleteTag (tagId : string) : World -> Reply unit * World :=
  try_reply 400 (
    if negb (isCollectionId (JStr tagId)) then throw invalid_parameter else
    await_ doc_delete kind tagId in
    resolve (Sent 200)).

Definition tag_not_found : JsError := Error "Tag not found.".

(** [getBusinessTag], [getPostTag] *)
Definition getTag (tagId : string) : World -> Reply (gmap string JsVal) * World :=
  try_reply 400 (
    if negb (isCollectionId (JStr tagId)) then throw invalid_parameter else
    await tagSnapshot <- doc_get kind tagId in
    match tagSnapshot with
    | Some tagData => resolve (Json 200 tagData)
    | None => throw tag_not_found
    end).

End Reading.

(** The tag controllers. *)
Definition addNewBusinessTag (storable : JsVal -> bool) (autoId : World -> string -> string) :=
  addNewRecord storable autoId "business-tag" isTag.
Definition updateBusinessTag (storable : JsVal -> bool) :=
  updateRecord storable "business-tag" isTag.
Definition deleteBusinessTag := deleteTag "business-tag".
Definition getBusinessTag := getTag "business-tag".
Definition getAllBusinessTags := getAllRecords "business-tag".

Definition addNewPostTag (storable : JsVal -> bool) (autoId : World -> string -> string) :=
  addNewRecord storable autoId "post-tag" isTag.
Definition updatePostTag (storable : JsVal -> bool) :=
  updateRecord storable "post-tag" isTag.
Definition deletePostTag := deleteTag "post-tag".
Definition getPostTag := getTag "post-tag".
Definition getAllPostTags := getAllRecords "post-tag".

(** The other functions of the business controller. *)
Definition addNewBusiness (isEmail isUri : string -> bool) (storable : JsVal -> bool)
    (autoId : World -> string -> string) :=
  addNewRecord storable autoId "business" (isBusiness isEmail isUri).
Definition getAllBusinesses := getAllRecords "business".
Definition getFeatBusinesses := getFeatRecords "business".

(** ** The post controller: search by tag *)

Module Post.

Definition searchSchema : Schema :=
  joi_object
    [ ("tags", joi_array .> items joi_string .> allow [JNull; JStr ""] .> required) ].

(** [isSearchParameters] of the post controller, with the candidate as the
    call leaves it. *)
Definition isSearchParameters (searchParams : JsVal) : Completion bool * JsVal :=
  match read_prop searchParams "tags" with
  | Throw e => (Throw e, searchParams)
  | Return tags =>
      if truthy tags then
        match call_split tags ","%char with
        | Throw e => (Throw e, searchParams)
        | Return parts =>
            let searchParams' := assign_prop searchParams "tags" (JArr (map JStr parts)) in
            (Return (negb (has_error searchSchema searchParams')), searchParams')
        end
      else (Return (negb (has_error searchSchema searchParams)), searchParams)
  end.

(** [getPostsByTag]; [query] is [request.query]. *)
Definition getPostsByTag (query : JsVal)
  : World -> Reply (list (string * gmap string JsVal)) * World :=
  try_reply 400 (
    let tags := prop query "tags" in
    await accepted <- lift (isSearchParameters (JObj [("tags", tags)])).1 in
    if negb accepted then throw invalid_query else
    await parts <- lift (call_split tags ","%char) in
    await querySnapshot <- query_get "post" [ArrayContainsAny "tags" (map JStr parts)] in
    resolve (Json 200 querySnapshot)).

Definition addNewPost (isPost : JsVal -> bool) (storable : JsVal -> bool)
    (autoId : World -> string -> string) :=
  addNewRecord storable autoId "post" isPost.
Definition getAllPosts := getAllRecords "post".
Definition getFeatPosts := getFeatRecords "post".

End Post.

(** ** live-chat/chat-controller.js *)

Definition invalid_request_query : JsError :=
  Error "The request query provided is not valid or acceptable.".

(** [firestore.collection('chat-message').doc(conversationId)
       .collection('messages')], a collection named by its path. *)
Definition messages_of (conversationId : string) : string :=
  "chat-message/" +:+ conversationId +:+ "/messages".

(** [collection.doc(id)]: the id is a string. *)
Definition doc_id (id : JsVal) : Completion string :=
  match id with
  | JStr x => Return x
  | _ => Throw (StoreError "invalid-argument")
  end.

Definition isMessage (message : JsVal) : bool :=
  let schema :=
    joi_object
      [ ("conversationId", joi_string .> alphanum .> length_is 20 .> required);
        ("senderId", joi_string .> alphanum .> length_is 28 .> required);
        ("message", joi_string .> required) ] in
  negb (has_error schema message).

Section Chat.

Variable storable : JsVal -> bool.
Variable autoId : World -> string -> string.

Definition addNewConversation (body : JsVal) : World -> Reply string * World :=
  try_reply 400 (
    await memberOneId <- lift (read_prop body "memberOneId") in
    await memberTwoId <- lift (read_prop body "memberTwoId") in
    if negb (isUserId memberOneId) || negb (isUserId memberTwoId)
    then throw invalid_body else
    await conversationRef <-
      collection_add storable autoId "chat-conversation"
        (JObj [("memberOneId", memberOneId); ("memberTwoId", memberTwoId)]) in
    resolve (Json 200 conversationRef)).

(** [query] is [request.query]; [documentIds[0]] is [undefined] on an empty
    snapshot. *)
Definition getConversationByMembers (query : JsVal) : World -> Reply string * World :=
  try_reply 400 (
    await memberOneId <- lift (read_prop query "memberOneId") in
    await memberTwoId <- lift (read_prop query "memberTwoId") in
    if negb (isUserId memberOneId) || negb (isUserId memberTwoId)
    then throw invalid_request_query else
    await snapshot <-
      query_get "chat-conversation"
        [EqualTo "memberOneId" memberOneId; EqualTo "memberTwoId" memberTwoId] in
    let documentIds := map fst snapshot in
    match head documentIds with
    | Some first =>
        if negb (truthy (JStr first)) then resolve (Sent 404)
        else resolve (Json 200 first)
    | None => resolve (Sent 404)
    end).

Definition getConversationMessages (conversationId : string)
  : World -> Reply (list (string * gmap string JsVal)) * World :=
  try_reply 400 (
    if negb (isCollectionId (JStr conversationId)) then throw invalid_parameter else
    await querySnapshot <- query_get (messages_of conversationId) [] in
    let messages := querySnapshot in
    if length messages =? 0 then resolve (Sent 404)
    else resolve (Json 200 messages)).

(** [seconds] is the clock read by [Math.floor(new Date() / 1000)]. *)
Definition sendMessage (seconds : Z) (body : JsVal) : World -> Reply string * World :=
  try_reply 400 (
    let newMessage := body in
    if negb (isMessage newMessage) then throw invalid_body else
    await senderId <- lift (read_prop newMessage "senderId") in
    await message <- lift (read_prop newMessage "message") in
    await conversationId <- lift (read_prop newMessage "conversationId") in
    let timestamp := JNum (inject_Z seconds) in
    await conversation <- lift (doc_id conversationId) in
    await messageRef <-
      collection_add storable autoId (messages_of conversation)
        (JObj [("senderId", senderId); ("message", message); ("timestamp", timestamp)]) in
    resolve (Json 200 messageRef)).

End Chat.

(** ** user-management/user-controller.js: the photo of a user *)

Section UserPhoto.

Variable readable : string -> bool.
Variable signedUrl : string -> string.

Definition uploadUserPhoto (userId localFilePath : string) : World -> Response * World :=
  try_catch 500 (
    if negb (isUserId (JStr userId)) then throw invalid_parameter else
    if negb (isFilePath localFilePath) then throw invalid_body else
    let remoteFolder := "user/" +:+ userId in
    let fileName := path_basename localFilePath in
    await fileURL <- uploadFileToFolder readable signedUrl remoteFolder localFilePath fileName in
    resolve (StatusJson 200 (FileURLBody fileURL))).

End UserPhoto.

(** A user id as Firebase Authentication makes them: 28 letters and
    digits. *)
Definition well_formed_user_id (id : string) : Prop :=
  String.length id = 28 /\ all_chars is_alphanum id = true.

(** The members of a conversation, as a request carries them and as a
    document stores them. *)
Definition members (memberOneId memberTwoId : string) : list (string * JsVal) :=
  [("memberOneId", JStr memberOneId); ("memberTwoId", JStr memberTwoId)].

Definition has_members (memberOneId memberTwoId : string) (d : gmap string JsVal) : Prop :=
  d !! "memberOneId" = Some (JStr memberOneId) /\
  d !! "memberTwoId" = Some (JStr memberTwoId).

(** ** Vocabulary of the further statements *)

(** What the call of a search-criteria validator does: with tags that are
    missing, null or empty it returns a boolean and leaves the candidate as it
    was; with tags that are a string that is not empty it returns a boolean
    and replaces them, in the candidate, by the list of their comma-separated
    parts, every other property staying as it was; with any other tags it
    throws the TypeError of [split] and leaves the candidate as it was; on a
    candidate that is undefined or null it throws when it reads the tags. *)
Definition splits_tags_in_place (validator : JsVal -> Completion bool * JsVal) : Prop :=
  (forall candidate,
      candidate <> JUndefined -> candidate <> JNull ->
      truthy (prop candidate "tags") = false ->
      exists b, validator candidate = (Return b, candidate)) /\
  (forall fields tags,
      get_field fields "tags" = JStr tags -> tags <> "" ->
      let parts := JArr (map JStr (split ","%char tags)) in
      (exists b, validator (JObj fields)
                 = (Return b, JObj (set_field fields "tags" parts))) /\
      get_field (set_field fields "tags" parts) "tags" = parts /\
      (forall k, k <> "tags" ->
                 get_field (set_field fields "tags" parts) k = get_field fields k)) /\
  (forall fields,
      truthy (get_field fields "tags") = true ->
      (forall tags, get_field fields "tags" <> JStr tags) ->
      validator (JObj fields) = (Throw (TypeError "split"), JObj fields)) /\
  (forall candidate,
      candidate = JUndefined \/ candidate = JNull ->
      validator candidate = (Throw (TypeError "tags"), candidate)).

(** The string has the character. *)
Definition has_char (c : ascii) (s : string) : bool :=
  existsb (Ascii.eqb c) (list_ascii_of_string s).

(** The text fields of a business that may be null. *)
Definition nullableTexts : list string :=
  ["description"; "phoneNumber"; "phoneNumberSecondary"; "email"; "website";
   "address"; "city"; "featuredImageURL"].

(** ** Sample data of the other controllers *)

Definition newId : string := "newid000000000000000".
Definition nextId : World -> string -> string := fun _ _ => newId.

Definition sampleUser : string := "abcdefghijklmnopqrstuvwxyz01".
Definition otherUser : string := "ABCDEFGHIJKLMNOPQRSTUVWXYZ01".

(** A bucket that refuses to delete one file of the sample folder. *)
Definition refusesB : string -> bool :=
  fun name => String.eqb name "business/abcdefghij0123456789/b.png".

Definition anyFile : string -> bool := fun _ => true.


(** A business whose featured flag is sent as a string. *)
Definition flaggedFields : list (string * JsVal) :=
  set_field barFields "isFeatured" (JStr "true").

Definition tagFields : list (string * JsVal) := [("name", JStr "street food")].

Definition tagWorld : World :=
  mkWorld {[ "business-tag" := {[ tagA := doc_of tagFields ]} ]} [] [].

Definition messageFields : list (string * JsVal) :=
  [ ("conversationId", JStr sampleId); ("senderId", JStr sampleUser);
    ("message", JStr "hello") ].


(** Two posts, each with one tag. *)
Definition postWorld : World :=
  mkWorld {[ "post" := {[ sampleId := doc_of [("tags", JArr [JStr tagA])];
                          otherId := doc_of [("tags", JArr [JStr tagB])] ]} ]} [] [].

(** A stored conversation. *)
Definition chatWorld : World :=
  mkWorld {[ "chat-conversation" := {[ sampleId := doc_of (members sampleUser otherUser) ]} ]}
          [] [].

(** * Properties *)

(** ** Strings *)

Lemma startsWith_spec (s p : string) :
  startsWith s p = true <-> exists r, s = p +:+ r.
Proof.
  revert s; induction p as [|a p IH]; intros s; simpl.
  - split; [intros _; exists s; reflexivity | reflexivity].
  - destruct s as [|b s]; simpl.
    + split; [discriminate | intros [r Hr]; discriminate].
    + rewrite andb_true_iff, Ascii.eqb_eq, IH. split.
      * intros [-> [r ->]]. by exists r.
      * intros [r Hr]. injection Hr as -> ->. eauto.
Qed.


Lemma endsWith_spec (s suffix : string) :
  endsWith s suffix = true <-> exists pre, s = pre +:+ suffix.
Proof.
  induction s as [|c s IH]; cbn [endsWith]; rewrite orb_true_iff, String.eqb_eq.
  - split.
    + intros [->|?]; [|done]. by exists EmptyString.
    + intros [[|? pre] H]; [left; exact H | discriminate].
  - rewrite IH. split.
    + intros [->|[pre ->]]; [exists EmptyString | exists (String c pre)]; reflexivity.
    + intros [[|c' pre] H]; simpl in H; [left; exact H|].
      injection H as -> ->. right. by exists pre.
Qed.


Lemma split_nonempty (sep : ascii) (s : string) : split sep s <> [].
Proof.
  induction s as [|c s IH]; simpl; [done|].
  destruct (Ascii.eqb c sep); [done|]. by destruct (split sep s).
Qed.

(** ** Paths *)

Lemma length_append (a b : string) :
  String.length (a +:+ b) = String.length a + String.length b.
Proof. induction a as [|c a IH]; simpl; [done | by rewrite IH]. Qed.

Lemma append_assoc (a b c : string) : (a +:+ b) +:+ c = a +:+ b +:+ c.
Proof.
  induction a as [|x a IH]; [reflexivity|].
  change (String x ((a +:+ b) +:+ c) = String x (a +:+ b +:+ c)). by rewrite IH.
Qed.

Lemma substring_all (s : string) : String.substring 0 (String.length s) s = s.
Proof. induction s as [|c s IH]; simpl; [done | by rewrite IH]. Qed.

Lemma substring_from_0 (s : string) (i : nat) :
  i <= String.length s ->
  String.substring 0 i s +:+ String.substring i (String.length s - i) s = s /\
  String.length (String.substring 0 i s) = i.
Proof.
  revert i; induction s as [|c s IH]; intros i Hi; simpl in Hi.
  - assert (i = 0) as -> by lia. done.
  - destruct i as [|i].
    + rewrite Nat.sub_0_r, substring_all. done.
    + destruct (IH i) as [H1 H2]; [lia|].
      change (String.length (String c s) - S i) with (String.length s - i).
      change (String.substring (S i) (String.length s - i) (String c s))
        with (String.substring i (String.length s - i) s).
      change (String.substring 0 (S i) (String c s))
        with (String c (String.substring 0 i s)).
      split.
      * change (String c (String.substring 0 i s +:+
                          String.substring i (String.length s - i) s) = String c s).
        by rewrite H1.
      * change (S (String.length (String.substring 0 i s)) = S i). by rewrite H2.
Qed.

Lemma last_dot_lt (s : string) (i : nat) :
  last_dot s = Some i -> i < String.length s.
Proof.
  revert i; induction s as [|c s IH]; intros i; simpl; [done|].
  destruct (last_dot s) as [j|].
  - intros [= <-]. specialize (IH j eq_refl). lia.
  - destruct (Ascii.eqb c dot); [intros [= <-]; lia | done].
Qed.

Lemma ext_start_bounds (base : string) (i : nat) :
  ext_start base = Some i -> 1 <= i < String.length base.
Proof.
  unfold ext_start. destruct (last_dot base) as [[|j]|] eqn:E; try done.
  destruct (String.eqb base ".."); [done|]. intros [= <-].
  apply last_dot_lt in E. lia.
Qed.

Lemma length_strip_trailing_slashes (p : string) :
  String.length (strip_trailing_slashes p) <= String.length p.
Proof.
  induction p as [|c p IH]; simpl; [done|].
  destruct (strip_trailing_slashes p); simpl in *.
  - destruct (Ascii.eqb c slash); simpl; lia.
  - lia.
Qed.

Lemma length_last_split (sep : ascii) (s : string) :
  String.length (List.last (split sep s) EmptyString) <= String.length s.
Proof.
  induction s as [|c s IH]; simpl; [done|].
  pose proof (split_nonempty sep s) as Hne.
  destruct (Ascii.eqb c sep).
  - destruct (split sep s) eqn:E; [done|]. simpl in *. lia.
  - destruct (split sep s) as [|w ws] eqn:E; [done|].
    destruct ws as [|w' ws]; simpl in *; lia.
Qed.

Lemma length_path_basename (p : string) :
  String.length (path_basename p) <= String.length p.
Proof.
  unfold path_basename.
  etrans; [apply length_last_split | apply length_strip_trailing_slashes].
Qed.

(** Both lookups strip the extension in the same way. *)
Lemma path_basename_ext_extname (p : string) :
  path_basename_ext p (path_extname p) = path_parse_name p.
Proof.
  unfold path_basename_ext, path_extname, path_parse_name.
  pose proof (length_path_basename p) as Hlen.
  set (base := path_basename p) in *.
  destruct (ext_start base) as [i|] eqn:E; [|done].
  apply ext_start_bounds in E.
  destruct (substring_from_0 base i) as [Happ Hi]; [lia|].
  set (ext := String.substring i (String.length base - i) base) in *.
  set (name := String.substring 0 i base) in *.
  assert (String.length ext = String.length base - i) as Hext.
  { apply (f_equal String.length) in Happ. rewrite length_append in Happ. lia. }
  destruct (String.eqb_spec ext "") as [He|_].
  { rewrite He in Hext. simpl in Hext. lia. }
  destruct (String.eqb_spec p ext) as [He|_].
  { rewrite He in Hlen. lia. }
  destruct (String.eqb_spec base ext) as [He|_].
  { rewrite <- He in Hext. lia. }
  assert (endsWith base ext = true) as ->.
  { apply endsWith_spec. by exists name. }
  rewrite Hext. by replace (String.length base - (String.length base - i)) with i by lia.
Qed.

(** ** Objects *)

Lemma get_set_field (fs : list (string * JsVal)) (k : string) (v : JsVal) :
  get_field (set_field fs k v) k = v.
Proof.
  induction fs as [|[k' v'] fs IH]; simpl.
  - by rewrite String.eqb_refl.
  - destruct (String.eqb k' k) eqn:E; simpl; [by rewrite String.eqb_refl | by rewrite E].
Qed.

Lemma get_set_field_ne (fs : list (string * JsVal)) (k k' : string) (v : JsVal) :
  k' <> k -> get_field (set_field fs k v) k' = get_field fs k'.
Proof.
  intros Hne. induction fs as [|[k0 v0] fs IH]; simpl.
  - destruct (String.eqb_spec k k'); [congruence | done].
  - destruct (String.eqb_spec k0 k) as [->|Hk]; simpl.
    + destruct (String.eqb_spec k k'); [congruence | done].
    + by rewrite IH.
Qed.

Lemma doc_of_get_field (fs : list (string * JsVal)) (k : string) (v : JsVal) :
  doc_of fs !! k = Some v -> get_field fs k = v.
Proof.
  unfold doc_of. induction fs as [|[k' v'] fs IH]; simpl; [done|].
  destruct (String.eqb_spec k' k) as [->|Hne].
  - rewrite lookup_insert_eq. by intros [= ->].
  - by rewrite lookup_insert_ne.
Qed.

(** ** joi *)

Lemma joi_object_key_error keys fs k s :
  In (k, s) keys ->
  has_error s (get_field fs k) = true ->
  has_error (joi_object keys) (JObj fs) = true.
Proof.
  intros Hin Herr. unfold has_error at 1; simpl.
  destruct (forallb _ keys) eqn:E; [|reflexivity].
  rewrite forallb_forall in E. specialize (E _ Hin). simpl in E.
  rewrite Herr in E. discriminate.
Qed.

Lemma joi_object_key_passes keys fs k s :
  has_error (joi_object keys) (JObj fs) = false ->
  In (k, s) keys ->
  has_error s (get_field fs k) = false.
Proof.
  intros H Hin. destruct (has_error s (get_field fs k)) eqn:E; [|reflexivity].
  by rewrite (joi_object_key_error keys fs k s Hin E) in H.
Qed.

Lemma joi_object_known_keys keys fs :
  has_error (joi_object keys) (JObj fs) = false ->
  Forall (fun kv => exists ks, In ks keys /\ ks.1 = kv.1) fs.
Proof.
  unfold has_error; simpl. rewrite negb_false_iff, andb_true_iff. intros [_ H].
  rewrite forallb_forall in H. apply Forall_forall. intros kv Hkv.
  apply list_elem_of_In, H, existsb_exists in Hkv as (ks & Hin & Heq).
  apply String.eqb_eq in Heq. eauto.
Qed.

Lemma unique_from_sound cmp seen xs :
  unique_from cmp seen xs = true ->
  (forall y x, In y seen -> In x xs -> cmp y x = false) /\
  (forall i j a b, i < j -> xs !! i = Some a -> xs !! j = Some b -> cmp a b = false).
Proof.
  revert seen; induction xs as [|x xs IH]; intros seen H; simpl in H.
  - split; [intros ? ? _ []|intros i j a b _ Hi; discriminate].
  - apply andb_true_iff in H as [Hx H]. apply negb_true_iff in Hx.
    destruct (IH _ H) as [IH1 IH2]. split.
    + intros y x' Hy [<-|Hx'].
      * destruct (cmp y x) eqn:E; [|reflexivity].
        assert (existsb (fun y => cmp y x) seen = true) as Hex
          by (apply existsb_exists; eauto).
        congruence.
      * apply IH1; [apply in_or_app; by left | done].
    + intros i j a b Hij Hi Hj. destruct j as [|j]; [lia|]. simpl in Hj.
      destruct i as [|i]; simpl in Hi.
      * injection Hi as ->. apply IH1; [apply in_or_app; right; by left|].
        apply list_elem_of_In. by eapply list_elem_of_lookup_2.
      * apply (IH2 i j); [lia|done|done].
Qed.

Lemma time_key_error (s : string) :
  re_two_digits_colon_two_digits s = false ->
  has_error (joi_string .> regex re_two_digits_colon_two_digits .> allow [JNull] .> required)
            (JStr s) = true.
Proof.
  intros H. unfold has_error; simpl. rewrite H. by rewrite andb_false_r.
Qed.

Lemma day_key_passes (v : JsVal) :
  has_error (joi_string .> valid (map JStr daysOfWeek) .> required) v = false ->
  exists d, v = JStr d.
Proof.
  unfold has_error; simpl. destruct v; try discriminate. eauto.
Qed.

Lemma day_entry_passes (a : JsVal) :
  has_error daySchema a = false ->
  a <> JUndefined ->
  exists d, prop a "day" = JStr d.
Proof.
  intros H Hdef. destruct a as [| | | | | |afs]; try done; try discriminate.
  simpl. apply day_key_passes.
  apply (joi_object_key_passes _ afs "day" _ H). left; reflexivity.
Qed.

Lemma isCollectionId_spec (id : string) :
  isCollectionId (JStr id) = true <-> well_formed_id id.
Proof.
  unfold isCollectionId, well_formed_id, has_error; simpl.
  rewrite negb_involutive, !andb_true_iff, Nat.eqb_eq, negb_true_iff.
  split; [tauto|]. intros [Hlen Hall]. repeat split; try done.
  all: by destruct id.
Qed.

Section BusinessValidator.

Variable isEmail : string -> bool.
Variable isUri : string -> bool.

Lemma isBusiness_timeTable_error fs :
  has_error (joi_array .> items daySchema .> unique same_day .> required)
            (get_field fs "timeTable") = true ->
  isBusiness isEmail isUri (JObj fs) = false.
Proof.
  intros H. unfold isBusiness. apply negb_false_iff.
  eapply (joi_object_key_error _ fs "timeTable"); [|exact H].
  do 10 right. left. reflexivity.
Qed.

(** A validated business has a name, and the name is a string. *)
Lemma isBusiness_name fs :
  isBusiness isEmail isUri (JObj fs) = true ->
  exists name, get_field fs "name" = JStr name.
Proof.
  unfold isBusiness. rewrite negb_true_iff. intros H.
  apply (joi_object_key_passes _ fs "name" (joi_string .> required)) in H;
    [|left; reflexivity].
  unfold has_error in H; simpl in H.
  destruct (get_field fs "name"); try discriminate. eauto.
Qed.

(** The field names of a validated business are those of the schema, none of
    which has a dot. *)
Lemma isBusiness_plain_names fs :
  isBusiness isEmail isUri (JObj fs) = true ->
  Forall (fun kv => plain_name kv.1 = true) fs.
Proof.
  unfold isBusiness. rewrite negb_true_iff. intros H.
  apply joi_object_known_keys in H. eapply Forall_impl; [exact H|].
  intros kv (ks & Hin & <-). simpl in Hin.
  repeat (destruct Hin as [<-|Hin]; [reflexivity|]). destruct Hin.
Qed.

(** C9.  The business validator returns false for every candidate whose
    timeTable holds two entries with the same day, and for every candidate
    with a timeTable entry whose commence or finish is a string that is not
    two digits, a colon and two digits. *)
Theorem isBusiness_rejects_timetable (fs : list (string * JsVal)) (tt : list JsVal) :
  get_field fs "timeTable" = JArr tt ->
  ((exists i j a b, i <> j /\ tt !! i = Some a /\ tt !! j = Some b /\
                    prop a "day" = prop b "day") \/
   (exists a s, a ∈ tt /\ (prop a "commence" = JStr s \/ prop a "finish" = JStr s) /\
                re_two_digits_colon_two_digits s = false)) ->
  isBusiness isEmail isUri (JObj fs) = false.
Proof.
  intros Htt H. apply isBusiness_timeTable_error. rewrite Htt.
  unfold has_error; simpl. apply negb_true_iff.
  destruct (forallb _ tt) eqn:Eitems; [|reflexivity]. simpl.
  rewrite forallb_forall in Eitems.
  destruct H as [(i & j & a & b & Hij & Hi & Hj & Hday)|(a & s & Ha & Hs & Hre)].
  - destruct (unique_from same_day [] tt) eqn:Eu; [|reflexivity].
    apply unique_from_sound in Eu as [_ Eu].
    assert (forall x, x ∈ tt -> exists d, prop x "day" = JStr d) as Hd.
    { intros x Hx. apply list_elem_of_In, Eitems in Hx.
      apply day_entry_passes; [|by intros ->].
      apply negb_true_iff. by destruct x. }
    destruct (Hd a) as [d Hda]; [by eapply list_elem_of_lookup_2|].
    assert (same_day a b = true /\ same_day b a = true) as [Hab Hba].
    { unfold same_day. rewrite <- Hday, Hda. simpl. by rewrite String.eqb_refl. }
    destruct (Nat.lt_total i j) as [Hlt|[->|Hlt]]; [| done |].
    + rewrite (Eu i j a b Hlt Hi Hj) in Hab. discriminate.
    + rewrite (Eu j i b a Hlt Hj Hi) in Hba. discriminate.
  - apply list_elem_of_In, Eitems in Ha.
    assert (has_error daySchema a = true) as Herr.
    { destruct a as [| | | | | |afs]; try (destruct Hs; discriminate).
      simpl in Hs. destruct Hs as [Hs|Hs].
      - apply (joi_object_key_error _ afs "commence"
                 (joi_string .> regex re_two_digits_colon_two_digits .> allow [JNull] .> required)).
        + right; right; left; reflexivity.
        + rewrite Hs. by apply time_key_error.
      - apply (joi_object_key_error _ afs "finish"
                 (joi_string .> regex re_two_digits_colon_two_digits .> allow [JNull] .> required)).
        + right; right; right; left; reflexivity.
        + rewrite Hs. by apply time_key_error. }
    destruct a; rewrite ?Herr in Ha; discriminate.
Qed.

Lemma day_entry_is_object (x : JsVal) :
  x <> JUndefined -> has_error daySchema x = false -> exists fs, x = JObj fs.
Proof.
  intros Hdef H. destruct x; try done; try (unfold has_error in H; discriminate H).
  eauto.
Qed.

Lemma same_day_call_objects (a b : list (string * JsVal)) :
  same_day_call (JObj a) (JObj b) = Return (same_day (JObj a) (JObj b)).
Proof. reflexivity. Qed.

Lemma compared_equal_objects (seen : list JsVal) (x : JsVal) :
  Forall (fun y => exists fs, y = JObj fs) seen ->
  (exists fs, x = JObj fs) ->
  compared_equal same_day_call seen x = Return (existsb (fun y => same_day y x) seen).
Proof.
  intros Hseen [xfs ->]. induction Hseen as [|y seen [yfs ->] _ IH].
  { reflexivity. }
  cbn [compared_equal existsb]. rewrite same_day_call_objects.
  cbn [mbind completion_bind].
  destruct (same_day _ _); [done | exact IH].
Qed.

Lemma unique_run_objects (seen xs : list JsVal) :
  Forall (fun y => exists fs, y = JObj fs) seen ->
  Forall (fun y => exists fs, y = JObj fs) xs ->
  unique_run same_day_call seen xs = Return (unique_from same_day seen xs).
Proof.
  intros Hseen Hxs. revert seen Hseen.
  induction Hxs as [|x xs Hx _ IH]; intros seen Hseen; [done|].
  cbn [unique_run unique_from]. rewrite compared_equal_objects by done.
  cbn [mbind completion_bind].
  destruct (existsb _ seen); [done|]. cbn [negb andb].
  apply IH. apply Forall_app. split; [done | by constructor].
Qed.

Lemma timeTable_error_pure (v : JsVal) :
  timeTable_error v
  = Return (has_error (joi_array .> items daySchema .> unique same_day .> required) v).
Proof.
  destruct v as [| | | | |xs|]; try reflexivity.
  unfold timeTable_error.
  assert (has_error (joi_array .> items daySchema .> unique same_day .> required) (JArr xs)
          = has_error (joi_array .> items daySchema .> required) (JArr xs)
            || negb (unique_from same_day [] xs)) as ->.
  { unfold has_error. cbn -[has_error daySchema unique_from].
    rewrite negb_andb. reflexivity. }
  destruct (has_error (joi_array .> items daySchema .> required) (JArr xs)) eqn:Hitems;
    [done|].
  rewrite unique_run_objects; [done | by constructor |].
  unfold has_error in Hitems. cbn -[has_error daySchema] in Hitems.
  rewrite negb_false_iff, forallb_forall in Hitems.
  apply Forall_forall. intros x Hx. apply list_elem_of_In, Hitems in Hx.
  destruct x; try done; apply day_entry_is_object; try done;
    by apply negb_true_iff in Hx.
Qed.

Lemma has_error_joi_object (keys : list (string * Schema)) (fs : list (string * JsVal)) :
  has_error (joi_object keys) (JObj fs)
  = negb (forallb (fun ks => negb (has_error ks.2 (get_field fs ks.1))) keys
          && forallb (fun kv => existsb (fun ks => String.eqb ks.1 kv.1) keys) fs).
Proof. reflexivity. Qed.

Lemma first_error_pure (run : list (string * (JsVal -> Completion bool)))
    (keys : list (string * Schema)) (fs : list (string * JsVal)) :
  Forall2 (fun kr ks => kr.1 = ks.1 /\ forall v, kr.2 v = Return (has_error ks.2 v))
          run keys ->
  first_error run fs
  = Return (negb (forallb (fun ks => negb (has_error ks.2 (get_field fs ks.1))) keys)).
Proof.
  induction 1 as [|[k check] [k' s] run keys [Hk Hcheck] _ IH]; [done|].
  cbn [fst snd] in Hk, Hcheck. subst k'.
  cbn [first_error forallb fst snd]. rewrite Hcheck. cbn [mbind completion_bind].
  destruct (has_error s (get_field fs k)); [done|]. exact IH.
Qed.

(** C4, as amended.  The business validator returns a boolean for every
    candidate and never throws: run with the comparator of the time table as
    the call it is, which throws on an entry that is null or undefined, the
    validation returns what the validator returns, since joi compares only
    entries that have passed the schema of a day.  The search-criteria
    validators of the business controller and of the post controller are not
    free of effects: with tags that are missing, null or empty they return a
    boolean and leave the candidate as it was; with tags that are a string
    that is not empty they return a boolean and replace them, in the
    candidate, by the list of their comma-separated parts, every other
    property staying as it was; with any other tags, and on a candidate that
    is undefined or null, they throw. *)
Theorem validators_effects :
  (forall candidate,
      isBusiness_run isEmail isUri candidate = Return (isBusiness isEmail isUri candidate)) /\
  splits_tags_in_place isSearchParameters /\
  splits_tags_in_place Post.isSearchParameters.
Proof.
  split; [|split].
  - intros candidate. destruct candidate as [| | | | | |fs]; try reflexivity.
    unfold isBusiness_run, isBusiness.
    rewrite (first_error_pure _
               [ ("name", joi_string .> required);
                 ("description", joi_string .> allow [JNull] .> required);
                 ("tags", joi_array .> items (joi_string .> alphanum .> length_is 20)
                            .> allow [JNull] .> required);
                 ("phoneNumber", joi_string .> allow [JNull] .> required);
                 ("phoneNumberSecondary", joi_string .> allow [JNull] .> required);
                 ("email", joi_string .> email isEmail .> allow [JNull] .> required);
                 ("website", joi_string .> uri isUri .> allow [JNull] .> required);
                 ("address", joi_string .> allow [JNull] .> required);
                 ("city", joi_string .> allow [JNull] .> required);
                 ("isFeatured", joi_boolean .> required);
                 ("timeTable", joi_array .> items daySchema .> unique same_day .> required);
                 ("appointments", joi_object_any .> required);
                 ("featuredImageURL", joi_string .> uri isUri .> allow [JNull] .> required) ]).
    + unfold businessSchema. rewrite has_error_joi_object.
      cbn [mbind completion_bind].
      destruct (forallb (fun ks => negb (has_error ks.2 (get_field fs ks.1))) _);
        cbn [negb andb]; [|done].
      by rewrite negb_involutive.
    + repeat constructor; cbn [fst snd]; intros v; apply timeTable_error_pure.
  - split; [|split; [|split]].
    + intros candidate H1 H2 Hfalsy. unfold isSearchParameters.
      destruct candidate; try done; simpl in *; rewrite ?Hfalsy; by eexists.
    + intros fields tags Htags Hne parts. split; [|split].
      * unfold isSearchParameters. cbn [read_prop prop]. rewrite Htags.
        cbn [truthy call_split]. destruct (String.eqb_spec tags ""); [done|].
        cbn [negb assign_prop]. by eexists.
      * apply get_set_field.
      * intros k Hk. by apply get_set_field_ne.
    + intros fields Htruthy Hnot. unfold isSearchParameters. cbn [read_prop prop].
      rewrite Htruthy. destruct (get_field fields "tags") as [| | | |tags| |]; try done.
      by destruct (Hnot tags).
    + by intros candidate [->| ->].
  - split; [|split; [|split]].
    + intros candidate H1 H2 Hfalsy. unfold Post.isSearchParameters.
      destruct candidate; try done; simpl in *; rewrite ?Hfalsy; by eexists.
    + intros fields tags Htags Hne parts. split; [|split].
      * unfold Post.isSearchParameters. cbn [read_prop prop]. rewrite Htags.
        cbn [truthy call_split]. destruct (String.eqb_spec tags ""); [done|].
        cbn [negb assign_prop]. by eexists.
      * apply get_set_field.
      * intros k Hk. by apply get_set_field_ne.
    + intros fields Htruthy Hnot. unfold Post.isSearchParameters. cbn [read_prop prop].
      rewrite Htruthy. destruct (get_field fields "tags") as [| | | |tags| |]; try done.
      by destruct (Hnot tags).
    + by intros candidate [->| ->].
Qed.

End BusinessValidator.

(** ** Search *)


Lemma tags_items_pass (parts : list string) :
  has_error (joi_array .> items joi_string .> allow [JNull; JStr ""] .> required)
            (JArr (map JStr parts))
  = negb (forallb (fun t => negb (String.eqb t "")) parts).
Proof.
  unfold has_error; simpl. f_equal.
  induction parts as [|t parts IH]; [reflexivity|].
  simpl. rewrite IH. unfold has_error; simpl.
  destruct (String.eqb t ""); reflexivity.
Qed.



Lemma forEach_push_named (name : string) docs matched :
  all_named docs ->
  forEach_push (JStr name) docs matched
  = Return (matched ++ List.filter (fun e => name_matches name e.2) docs).
Proof.
  intros Hdocs; revert matched.
  induction Hdocs as [|e docs [dn Hdn] _ IH]; intros matched; simpl.
  - by rewrite app_nil_r.
  - unfold name_includes, name_matches. rewrite Hdn. simpl.
    rewrite IH. destruct (includes _ _); [|done]. by rewrite <- app_assoc.
Qed.




Lemma strict_eq_string (x : JsVal) (t : string) :
  strict_eq x (JStr t) = true <-> x = JStr t.
Proof.
  destruct x; simpl; try (split; [discriminate | discriminate]).
  rewrite String.eqb_eq. split; [by intros -> | by intros [= ->]].
Qed.

Lemma passes_tags (d : gmap string JsVal) (wanted : list string) :
  passes d (ArrayContainsAny "tags" (map JStr wanted)) = true <-> shares_a_tag d wanted.
Proof.
  unfold shares_a_tag; simpl. split.
  - destruct (d !! "tags") as [[| | | | |xs|]|]; try discriminate.
    intros H. apply existsb_exists in H as (x & Hx & H).
    apply existsb_exists in H as (y & Hy & H).
    apply in_map_iff in Hy as (t & <- & Ht).
    apply strict_eq_string in H as ->.
    exists xs, t. by rewrite !list_elem_of_In.
  - intros (xs & t & -> & Hx & Ht). apply existsb_exists.
    exists (JStr t). split; [by apply list_elem_of_In|].
    apply existsb_exists. exists (JStr t). split.
    + apply in_map. by apply list_elem_of_In.
    + by apply strict_eq_string.
Qed.

Lemma passes_city (d : gmap string JsVal) (c : string) :
  passes d (EqualTo "city" (JStr c)) = true <-> d !! "city" = Some (JStr c).
Proof.
  simpl. destruct (d !! "city") as [x|]; [|split; discriminate].
  rewrite strict_eq_string. split; [by intros -> | by intros [= ->]].
Qed.


Lemma getMatchingBusinesses_run (query : JsVal) (name : string) composed (w : World) :
  prop query "name" = JStr name ->
  (isSearchParameters
     (JObj [("name", prop query "name"); ("city", prop query "city");
            ("tags", prop query "tags")])).1 = Return true ->
  businessQuery (prop query "city") (prop query "tags") = Return composed ->
  all_named (snapshot w "business" composed) ->
  getMatchingBusinesses query w
  = (StatusJson 200
       (MatchesBody (List.filter (fun e => name_matches name e.2)
                                 (snapshot w "business" composed))), w).
Proof.
  intros Hname Hok Hq Hnamed.
  unfold getMatchingBusinesses, try_catch, and_then, lift, resolve.
  rewrite Hok, Hq. simpl. rewrite Hname.
  rewrite (forEach_push_named name _ [] Hnamed). reflexivity.
Qed.

Lemma elem_of_snapshot (w : World) (name : string) (query : list Filter) id d :
  (id, d) ∈ snapshot w name query
  <-> collection w name !! id = Some d /\ forallb (passes d) query = true.
Proof.
  unfold snapshot. rewrite list_elem_of_filter, elem_of_map_to_list. simpl.
  rewrite Is_true_true. tauto.
Qed.











(** ** Records *)

Lemma collection_with_collection w name c :
  collection (with_collection w name c) name = c.
Proof. unfold collection, with_collection; simpl. by rewrite lookup_insert_eq. Qed.

Lemma collection_insert fs b l name c :
  collection (mkWorld (<[name := c]> fs) b l) name = c.
Proof. unfold collection; simpl. by rewrite lookup_insert_eq. Qed.

Section Records.

Variable storable : JsVal -> bool.
Variable deleteFails : string -> bool.
Variable kind : string.
Variable isRecord : JsVal -> bool.

Lemma updateRecord_run id fields old w :
  well_formed_id id ->
  isRecord (JObj fields) = true ->
  storable (JObj fields) = true ->
  collection w kind !! id = Some old ->
  updateRecord storable kind isRecord id (JObj fields) w
  = (SendStatus 200,
     with_collection w kind (<[id := doc_of fields ∪ old]> (collection w kind))).
Proof.
  intros Hid Hrec Hst Hold. apply isCollectionId_spec in Hid.
  unfold updateRecord, try_catch. rewrite Hid, Hrec. simpl.
  unfold and_then, doc_update. by rewrite Hst, Hold.
Qed.

(** C3, as amended.  For every well-formed id of a stored document and every
    record that passes validation and that the store takes, its field names
    without a dot, the update answers 200 and overwrites the stored document
    field by field: every field of the record is stored with the supplied
    value, and every field of the previous document that the record does not
    name stays.  When the previous document has no field beyond those of the
    record, the stored document is the supplied record exactly. *)
Theorem update_overwrites_supplied_fields id fields old w :
  well_formed_id id ->
  isRecord (JObj fields) = true ->
  storable (JObj fields) = true ->
  Forall (fun kv => plain_name kv.1 = true) fields ->
  collection w kind !! id = Some old ->
  exists w' new,
    updateRecord storable kind isRecord id (JObj fields) w = (SendStatus 200, w') /\
    collection w' kind !! id = Some new /\
    (forall k v, doc_of fields !! k = Some v -> new !! k = Some v) /\
    (forall k, doc_of fields !! k = None -> new !! k = old !! k) /\
    (dom old ⊆ dom (doc_of fields) -> new = doc_of fields).
Proof.
  intros Hid Hrec Hst _ Hold. eexists _, _. split; [by apply updateRecord_run|].
  rewrite collection_with_collection, lookup_insert_eq. split; [done|].
  split; [|split].
  - intros k v Hk. by apply lookup_union_Some_l.
  - intros k Hk. by rewrite lookup_union_r.
  - intros Hdom. apply map_eq. intros k. rewrite lookup_union.
    destruct (doc_of fields !! k) as [v|] eqn:Ek.
    + by destruct (old !! k).
    + destruct (old !! k) as [v'|] eqn:Eo; [|done].
      assert (k ∈ dom old) as Hin by (apply elem_of_dom; eauto).
      apply Hdom, elem_of_dom in Hin as [v Hv]. congruence.
Qed.

(** C10.  For every well-formed id that is not in the collection and every
    record that passes validation, the update answers 400 with an error body
    and leaves the stores as they were: no document is created. *)
Theorem update_of_missing_document_fails id body w :
  well_formed_id id ->
  isRecord body = true ->
  collection w kind !! id = None ->
  exists e, updateRecord storable kind isRecord id body w
            = (StatusJson 400 (ErrorBody e), w).
Proof.
  intros Hid Hrec Hnone. apply isCollectionId_spec in Hid.
  unfold updateRecord, try_catch. rewrite Hid, Hrec. simpl.
  unfold and_then, doc_update. destruct body; try by eexists.
  destruct (storable _); [|by eexists]. rewrite Hnone. by eexists.
Qed.

Lemma deleteRecordAndFiles_run id w :
  well_formed_id id ->
  let folder := kind +:+ "/" +:+ id +:+ "/" in
  let files := folder_files w folder in
  deleteRecordAndFiles deleteFails kind id w
  = (if existsb deleteFails files
     then StatusJson 400 (ErrorBody (StoreError "delete"))
     else SendStatus 200,
     mkWorld (<[kind := delete id (collection w kind)]> (firestore w))
             (filter (fun n => ¬ (n ∈ files /\ deleteFails n = false)) (bucket w))
             (bucketLog w ++ map FileDelete files)).
Proof.
  intros Hid folder files. apply isCollectionId_spec in Hid.
  unfold deleteRecordAndFiles, try_catch. rewrite Hid. simpl.
  unfold and_then, doc_delete, deleteFilesInFolder, and_then, getFiles, delete_all.
  simpl. fold folder.
  change (folder_files (with_collection w kind (delete id (collection w kind))) folder)
    with files.
  by destruct (existsb deleteFails files).
Qed.

(** C8.  For every well-formed id the delete operation removes the document,
    leaves the other documents of the collection alone and requests the
    deletion of every object under the folder of the record; when the folder
    holds no object it answers 200 and the bucket stays as it was; when no
    deletion is refused it answers 200 and the folder is left empty. *)
Theorem delete_removes_document_and_folder id w :
  well_formed_id id ->
  let folder := kind +:+ "/" +:+ id +:+ "/" in
  let outcome := deleteRecordAndFiles deleteFails kind id w in
  collection outcome.2 kind !! id = None /\
  (forall id', id' <> id -> collection outcome.2 kind !! id' = collection w kind !! id') /\
  bucketLog outcome.2 = bucketLog w ++ map FileDelete (folder_files w folder) /\
  (folder_files w folder = [] -> outcome.1 = SendStatus 200 /\ bucket outcome.2 = bucket w) /\
  ((forall n, n ∈ folder_files w folder -> deleteFails n = false) ->
   outcome.1 = SendStatus 200 /\ folder_files outcome.2 folder = []).
Proof.
  intros Hid folder outcome. unfold outcome.
  rewrite (deleteRecordAndFiles_run id w Hid). fold folder. cbn [fst snd].
  set (files := folder_files w folder).
  rewrite !collection_insert; cbn [bucketLog bucket].
  split; [apply lookup_delete_eq|].
  split; [intros id' Hne; by apply lookup_delete_ne|].
  split; [done|]. split.
  - intros ->. simpl. split; [done|].
    induction (bucket w) as [|n l IH]; [done|].
    rewrite filter_cons_True; [by rewrite IH|]. intros [[]%elem_of_nil _].
  - intros Hok. split.
    + destruct (existsb deleteFails files) eqn:E; [|done].
      apply existsb_exists in E as (n & Hn & E).
      rewrite Hok in E; [done|]. by apply list_elem_of_In.
    + apply elem_of_nil_inv. intros n Hn.
      unfold folder_files in Hn; cbn [bucket] in Hn.
      apply list_elem_of_filter in Hn as [Hpre Hn].
      apply list_elem_of_filter in Hn as [Hkeep Hn].
      apply Hkeep. assert (n ∈ files) as Hin by (by apply list_elem_of_filter).
      split; [done | by apply Hok].
Qed.

End Records.

(** An update of a named business leaves every business named. *)
Lemma updateBusiness_keeps_names isEmail isUri storable id body w :
  all_named (map_to_list (collection w "business")) ->
  all_named (map_to_list
               (collection (updateBusiness isEmail isUri storable id body w).2 "business")).
Proof.
  intros Hnamed. unfold updateBusiness, updateRecord, try_catch.
  destruct (isCollectionId (JStr id)); [|done]. simpl.
  destruct (isBusiness isEmail isUri body) eqn:Hrec; [|done]. simpl.
  unfold and_then, doc_update. destruct body as [| | | | | |fields]; try done.
  destruct (storable _); [|done].
  destruct (collection w "business" !! id) as [old|] eqn:Hold; [|done].
  simpl. rewrite collection_with_collection.
  unfold all_named in *. rewrite Forall_forall in *.
  intros [id' d] Hin. apply elem_of_map_to_list in Hin. simpl.
  destruct (decide (id = id')) as [<-|Hne].
  - rewrite lookup_insert_eq in Hin. injection Hin as <-.
    apply isBusiness_name in Hrec as [name Hname]. exists name.
    apply lookup_union_Some_l. clear -Hname. unfold doc_of.
    induction fields as [|[k v] fields IH]; simpl in *; [done|].
    destruct (String.eqb_spec k "name") as [->|Hk].
    + rewrite lookup_insert_eq. by rewrite Hname.
    + rewrite lookup_insert_ne; [by apply IH | done].
  - rewrite lookup_insert_ne in Hin; [|done].
    apply (Hnamed (id', d)). by apply elem_of_map_to_list.
Qed.

(** ** Media *)

Lemma find_first {A} (f : A -> bool) (l : list A) (x : A) :
  List.find f l = Some x <->
  exists before after,
    l = before ++ x :: after /\ f x = true /\ (forall y, y ∈ before -> f y = false).
Proof.
  induction l as [|a l IH]; simpl.
  - split; [done|]. intros (b & c & H & _). by destruct b.
  - destruct (f a) eqn:Ea.
    + split.
      * intros [= ->]. exists [], l. repeat split; [done|]. by intros y ?%elem_of_nil.
      * intros ([|b bs] & c & H & Hx & Hb); simpl in H.
        -- by injection H as -> _.
        -- injection H as -> _. rewrite Hb in Ea; [done | by left].
    + rewrite IH. split.
      * intros (b & c & -> & Hx & Hb). exists (a :: b), c. repeat split; [done|].
        intros y [->|Hy]%elem_of_cons; [done | by apply Hb].
      * intros ([|b bs] & c & H & Hx & Hb); simpl in H.
        -- injection H as -> _. congruence.
        -- injection H as -> ->. exists bs, c. repeat split; [done|].
           intros y Hy. apply Hb. by right.
Qed.

Lemma find_nothing {A} (f : A -> bool) (l : list A) :
  List.find f l = None <-> (forall y, y ∈ l -> f y = false).
Proof.
  induction l as [|a l IH]; simpl.
  - split; [by intros _ y ?%elem_of_nil | done].
  - destruct (f a) eqn:Ea.
    + split; [done|]. intros H. rewrite H in Ea; [done | by left].
    + rewrite IH. split.
      * intros H y [->|Hy]%elem_of_cons; [done | by apply H].
      * intros H y Hy. apply H. by right.
Qed.

Lemma find_same {A} (f g : A -> bool) (l : list A) :
  (forall x, f x = g x) -> List.find f l = List.find g l.
Proof.
  intros H. induction l as [|a l IH]; simpl; [done|]. by rewrite H, IH.
Qed.

Section Lookup.

Variable signedUrl : string -> string.

(** C6.  The lookup of a file by suffix fails with the not-found error when
    no object under the folder has a name that, stripped of its extension,
    ends with the suffix, which covers the empty folder; otherwise it returns
    the first such object in listing order (its signed URL for
    getFileURLWithSuffix, the file itself for findFeatImageFile, whose suffix
    is -feat). *)
Theorem feat_lookup_first_match_or_not_found (folderPath suffix : string) (w : World) :
  let files := folder_files w folderPath in
  let matching := fun name => endsWith (path_parse_name name) suffix in
  ((forall name, name ∈ files -> matching name = false) ->
   getFileURLWithSuffix signedUrl folderPath suffix w = (Throw not_found, w) /\
   (suffix = "-feat" -> findFeatImageFile folderPath w = (Throw not_found, w))) /\
  (forall before file after,
     files = before ++ file :: after ->
     matching file = true ->
     (forall name, name ∈ before -> matching name = false) ->
     getFileURLWithSuffix signedUrl folderPath suffix w = (Return (signedUrl file), w) /\
     (suffix = "-feat" -> findFeatImageFile folderPath w = (Return file, w))).
Proof.
  intros files matching.
  assert (forall r, List.find matching files = r ->
            getFileURLWithSuffix signedUrl folderPath suffix w
            = (match r with Some file => Return (signedUrl file) | None => Throw not_found end, w) /\
            (suffix = "-feat" ->
             findFeatImageFile folderPath w
             = (match r with Some file => Return file | None => Throw not_found end, w))) as Hrun.
  { intros r Hr. split.
    - unfold getFileURLWithSuffix, and_then, getFiles; simpl.
      fold files. fold matching. rewrite Hr.
      by destruct r.
    - intros ->. unfold findFeatImageFile, and_then, getFiles; simpl.
      fold files.
      erewrite find_same; [rewrite Hr; by destruct r|].
      intros name. simpl. by rewrite path_basename_ext_extname. }
  split.
  - intros Hnone. apply (Hrun None). by apply find_nothing.
  - intros before file after Hfiles Hfile Hbefore. apply (Hrun (Some file)).
    apply find_first. eauto.
Qed.

(** On an empty folder the endpoint answers with the not-found error. *)
Lemma getRecordFeatImage_empty_folder kind id w :
  well_formed_id id ->
  folder_files w (kind +:+ "/" +:+ id +:+ "/") = [] ->
  getRecordFeatImage signedUrl kind id w = (StatusJson 500 (ErrorBody not_found), w).
Proof.
  intros Hid Hempty. apply isCollectionId_spec in Hid.
  unfold getRecordFeatImage, try_catch. rewrite Hid. simpl.
  unfold and_then, getFileURLWithSuffix, and_then, getFiles. simpl.
  by rewrite Hempty.
Qed.

End Lookup.

Lemma split_no_separator (sep : ascii) (s : string) :
  existsb (Ascii.eqb sep) (list_ascii_of_string s) = false -> split sep s = [s].
Proof.
  induction s as [|c s IH]; simpl; [done|].
  rewrite orb_false_iff, Ascii.eqb_sym. intros [-> H]. by rewrite IH.
Qed.

Lemma split_at_separator (sep : ascii) (a b : string) :
  existsb (Ascii.eqb sep) (list_ascii_of_string a) = false ->
  split sep (a +:+ String sep b) = a :: split sep b.
Proof.
  induction a as [|c a IH]; simpl.
  - by rewrite Ascii.eqb_refl.
  - rewrite orb_false_iff, Ascii.eqb_sym. intros [-> H]. by rewrite IH.
Qed.

(** With one dot in the file name the remote name is the base name, [-feat]
    and the extension. *)
Lemma featRemoteFileName_one_dot (baseName extension : string) :
  plain_name baseName = true -> plain_name extension = true ->
  featRemoteFileName (baseName +:+ "." +:+ extension)
  = baseName +:+ "-feat." +:+ extension.
Proof.
  unfold plain_name, featRemoteFileName. rewrite !negb_true_iff. intros Hb He.
  change ("." +:+ extension) with (String dot extension).
  by rewrite split_at_separator, split_no_separator.
Qed.

(** With a valid id and a readable local path whose file name has one dot,
    the upload stores the object named after the base name, [-feat] and the
    extension in the folder of the record. *)
Lemma uploadRecordFeatImage_one_dot
    (readable : string -> bool) (signedUrl : string -> string)
    (kind id localFilePath baseName extension : string) (w : World) :
  well_formed_id id ->
  isFilePath localFilePath = true ->
  readable localFilePath = true ->
  path_basename localFilePath = baseName +:+ "." +:+ extension ->
  plain_name baseName = true -> plain_name extension = true ->
  let remote := kind +:+ "/" +:+ id +:+ "/" +:+ baseName +:+ "-feat." +:+ extension in
  uploadRecordFeatImage readable signedUrl kind id localFilePath w
  = (StatusJson 200 (FileURLBody (signedUrl remote)),
     mkWorld (firestore w) (insert_object remote (bucket w))
             (bucketLog w ++ [Upload localFilePath remote])).
Proof.
  intros Hid Hpath Hread Hbase Hb He remote. apply isCollectionId_spec in Hid.
  unfold uploadRecordFeatImage, try_catch. rewrite Hid, Hpath. simpl.
  unfold and_then, uploadFileToFolder, and_then, bucket_upload.
  rewrite Hread, Hbase, featRemoteFileName_one_dot by done.
  assert ((kind +:+ "/" +:+ id) +:+ "/" +:+ baseName +:+ "-feat." +:+ extension = remote)
    as ->; [|done].
  unfold remote. by rewrite !append_assoc.
Qed.

(** C5.  At the local path /tmp/my.photo.png, whose file name is my.photo
    with the extension .png, the upload of a featured image stores the object
    my-feat.photo in the folder of the business: the remote name is made of
    the first two dot-separated portions of the file name, not of the name
    and the extension. *)
Theorem feat_upload_keeps_first_two_portions (signedUrl : string -> string) (w : World) :
  let businessId := sampleId in
  let localFilePath := "/tmp/my.photo.png" in
  let outcome := uploadBusinessFeatImage (fun _ => true) signedUrl businessId localFilePath w in
  isCollectionId (JStr businessId) = true /\
  isFilePath localFilePath = true /\
  path_basename localFilePath = "my.photo.png" /\
  path_parse_name localFilePath = "my.photo" /\
  path_extname localFilePath = ".png" /\
  featRemoteFileName (path_basename localFilePath) = "my-feat.photo" /\
  featRemoteFileName (path_basename localFilePath)
  <> path_parse_name localFilePath +:+ "-feat" +:+ path_extname localFilePath /\
  outcome.1 = StatusJson 200 (FileURLBody (signedUrl "business/abcdefghij0123456789/my-feat.photo")) /\
  bucket outcome.2 = insert_object "business/abcdefghij0123456789/my-feat.photo" (bucket w) /\
  bucketLog outcome.2
  = bucketLog w ++ [Upload localFilePath "business/abcdefghij0123456789/my-feat.photo"].
Proof. repeat split. discriminate. Qed.

(** ** Runs on the sample data *)

Example isBusiness_cafe : isBusiness anyEmail anyUri (JObj cafeFields) = true.
Proof. reflexivity. Qed.

Example isBusiness_string_flag :
  isBusiness anyEmail anyUri
    (JObj (set_field cafeFields "isFeatured" (JStr "TRUE"))) = true.
Proof. reflexivity. Qed.

Example isBusiness_unknown_field :
  isBusiness anyEmail anyUri (JObj (cafeFields ++ [("legacy", JStr "kept")])) = false.
Proof. reflexivity. Qed.

Example isBusiness_two_mondays :
  isBusiness anyEmail anyUri
    (JObj (sampleFields "Joe's Cafe" "paris" []
             [sampleDay "Monday" (JStr "09:00"); sampleDay "Monday" JNull])) = false.
Proof. reflexivity. Qed.

Example isBusiness_unpadded_hour :
  isBusiness anyEmail anyUri
    (JObj (sampleFields "Joe's Cafe" "paris" [] [sampleDay "Monday" (JStr "9:00")])) = false.
Proof. reflexivity. Qed.

Example joes_cafe_matches :
  name_matches "cafe" (doc_of cafeFields) = true /\
  name_matches "CAFE" (doc_of cafeFields) = true /\
  name_matches "tea" (doc_of cafeFields) = false.
Proof. vm_compute. done. Qed.

Example search_for_CAFE :
  exists d,
    getMatchingBusinesses
      (JObj [("name", JStr "CAFE"); ("city", JStr ""); ("tags", JStr "")]) sampleWorld
    = (StatusJson 200 (MatchesBody [(sampleId, d)]), sampleWorld).
Proof. eexists. vm_compute. reflexivity. Qed.

Example photo_png_is_stored_and_found :
  let outcome := uploadBusinessFeatImage (fun _ => true) url_of sampleId "/tmp/photo.png" emptyWorld in
  bucket outcome.2 = ["business/abcdefghij0123456789/photo-feat.png"] /\
  findFeatImageFile "business/abcdefghij0123456789/" outcome.2
  = (Return "business/abcdefghij0123456789/photo-feat.png", outcome.2).
Proof. vm_compute. done. Qed.

(** A second featured upload does not replace the first: the lookup keeps
    returning the object that is listed first. *)
Example earlier_featured_file_wins :
  let outcome := uploadBusinessFeatImage (fun _ => true) url_of sampleId "/tmp/photo.png" sampleWorld in
  (findFeatImageFile "business/abcdefghij0123456789/" outcome.2).1
  = Return "business/abcdefghij0123456789/a-feat.png".
Proof. vm_compute. done. Qed.

Example file_name_without_dot :
  featRemoteFileName "photo" = "photo-feat.undefined".
Proof. reflexivity. Qed.

(** ** Instances of the theorems *)

Lemma sampleId_well_formed : well_formed_id sampleId.
Proof. split; reflexivity. Defined.

Lemma all_named_snapshot (w : World) (name : string) (query : list Filter) :
  (forall id d, collection w name !! id = Some d -> has_name d) ->
  all_named (snapshot w name query).
Proof.
  intros H. apply Forall_forall. intros [id d] Hin.
  apply elem_of_snapshot in Hin as [Hin _]. by eapply H.
Qed.

Lemma sampleFields_named name city tags timeTable :
  has_name (doc_of (sampleFields name city tags timeTable)).
Proof. exists name. apply lookup_insert_eq. Qed.

Lemma sampleWorld_business :
  collection sampleWorld "business"
  = {[ sampleId := doc_of cafeFields; otherId := doc_of barFields ]}.
Proof. unfold collection, sampleWorld, firestore. by rewrite lookup_singleton_eq. Qed.

Lemma sampleWorld_named id d :
  collection sampleWorld "business" !! id = Some d -> has_name d.
Proof.
  rewrite sampleWorld_business.
  intros [[_ <-]|[_ H]]%lookup_insert_Some; [apply sampleFields_named|].
  apply lookup_singleton_Some in H as [_ <-]. apply sampleFields_named.
Qed.



Lemma update_overwrites_supplied_fields_witness :
  exists w' new,
    updateRecord anyValue "business" (isBusiness anyEmail anyUri) sampleId
                 (JObj barFields) sampleWorld
    = (SendStatus 200, w') /\
    collection w' "business" !! sampleId = Some new /\
    (forall k v, doc_of barFields !! k = Some v -> new !! k = Some v) /\
    (forall k, doc_of barFields !! k = None -> new !! k = doc_of cafeFields !! k) /\
    (dom (doc_of cafeFields) ⊆ dom (doc_of barFields) -> new = doc_of barFields).
Proof.
  apply (update_overwrites_supplied_fields anyValue "business"
           (isBusiness anyEmail anyUri) sampleId barFields (doc_of cafeFields) sampleWorld).
  - exact sampleId_well_formed.
  - vm_compute. reflexivity.
  - reflexivity.
  - apply (isBusiness_plain_names anyEmail anyUri). vm_compute. reflexivity.
  - rewrite sampleWorld_business. apply lookup_insert_eq.
Defined.

Lemma update_of_missing_document_fails_witness :
  exists e,
    updateRecord anyValue "business" (isBusiness anyEmail anyUri) sampleId
                 (JObj barFields) emptyWorld
    = (StatusJson 400 (ErrorBody e), emptyWorld).
Proof.
  apply (update_of_missing_document_fails anyValue "business"
           (isBusiness anyEmail anyUri) sampleId (JObj barFields) emptyWorld).
  - exact sampleId_well_formed.
  - vm_compute. reflexivity.
  - reflexivity.
Defined.

Lemma delete_removes_document_and_folder_witness :
  let folder := "business/abcdefghij0123456789/" in
  let outcome := deleteRecordAndFiles noFailure "business" sampleId sampleWorld in
  collection outcome.2 "business" !! sampleId = None /\
  (forall id', id' <> sampleId ->
               collection outcome.2 "business" !! id' = collection sampleWorld "business" !! id') /\
  bucketLog outcome.2
  = bucketLog sampleWorld ++ map FileDelete (folder_files sampleWorld folder) /\
  (folder_files sampleWorld folder = [] ->
   outcome.1 = SendStatus 200 /\ bucket outcome.2 = bucket sampleWorld) /\
  ((forall n, n ∈ folder_files sampleWorld folder -> noFailure n = false) ->
   outcome.1 = SendStatus 200 /\ folder_files outcome.2 folder = []).
Proof.
  exact (delete_removes_document_and_folder noFailure "business" sampleId sampleWorld
           sampleId_well_formed).
Defined.

Lemma isBusiness_rejects_timetable_witness :
  isBusiness anyEmail anyUri
    (JObj (sampleFields "Joe's Cafe" "paris" []
             [sampleDay "Monday" (JStr "09:00"); sampleDay "Monday" JNull])) = false /\
  isBusiness anyEmail anyUri
    (JObj (sampleFields "Joe's Cafe" "paris" [] [sampleDay "Monday" (JStr "9:00")])) = false.
Proof.
  split.
  - apply (isBusiness_rejects_timetable anyEmail anyUri _
             [sampleDay "Monday" (JStr "09:00"); sampleDay "Monday" JNull]).
    + reflexivity.
    + left. exists 0, 1, (sampleDay "Monday" (JStr "09:00")), (sampleDay "Monday" JNull).
      repeat split. discriminate.
  - apply (isBusiness_rejects_timetable anyEmail anyUri _
             [sampleDay "Monday" (JStr "9:00")]).
    + reflexivity.
    + right. exists (sampleDay "Monday" (JStr "9:00")), "9:00".
      repeat split; [by left | by left].
Defined.


(** ** Where the code departs from the specification *)


(** An update leaves in place a stored field that the record does not name:
    the stored document is not the supplied record. *)
Lemma update_keeps_unnamed_field :
  let outcome := updateBusiness anyEmail anyUri anyValue sampleId (JObj barFields) legacyWorld in
  isBusiness anyEmail anyUri (JObj barFields) = true /\
  outcome.1 = SendStatus 200 /\
  doc_of barFields !! "legacy" = None /\
  (collection outcome.2 "business" !! sampleId) ≫= (.!! "legacy") = Some (JStr "kept") /\
  collection outcome.2 "business" !! sampleId <> Some (doc_of barFields).
Proof.
  intros outcome.
  assert (isBusiness anyEmail anyUri (JObj barFields) = true) as Hrec
    by (vm_compute; reflexivity).
  assert (doc_of barFields !! "legacy" = None) as Hnone by (vm_compute; reflexivity).
  assert (collection legacyWorld "business" !! sampleId
          = Some (doc_of (cafeFields ++ [("legacy", JStr "kept")]))) as Hold.
  { unfold collection, legacyWorld, firestore. rewrite lookup_singleton_eq.
    apply lookup_singleton_eq. }
  assert (doc_of (cafeFields ++ [("legacy", JStr "kept")]) !! "legacy"
          = Some (JStr "kept")) as Hkept by (vm_compute; reflexivity).
  unfold outcome, updateBusiness.
  rewrite (updateRecord_run anyValue "business" _ sampleId barFields _ legacyWorld
             sampleId_well_formed Hrec eq_refl Hold).
  cbn [fst snd]. rewrite collection_with_collection, lookup_insert_eq. cbn [mbind option_bind].
  assert ((doc_of barFields ∪ doc_of (cafeFields ++ [("legacy", JStr "kept")])) !! "legacy"
          = Some (JStr "kept")) as Hnew by (by rewrite lookup_union_r).
  refine (conj Hrec (conj eq_refl (conj Hnone (conj Hnew _)))).
  intros H. apply (f_equal (fun o => o ≫= (.!! "legacy"))) in H.
  cbn [mbind option_bind] in H. congruence.
Qed.

(** The search-criteria validator changes its candidate, and throws on tags
    that are not a string. *)
Lemma isSearchParameters_changes_candidate :
  let candidate := JObj [("name", JStr ""); ("city", JStr ""); ("tags", JStr "a,b")] in
  isSearchParameters candidate
  = (Return true, JObj [("name", JStr ""); ("city", JStr ""); ("tags", JArr [JStr "a"; JStr "b"])]) /\
  (isSearchParameters candidate).2 <> candidate /\
  (isSearchParameters (JObj [("name", JStr ""); ("city", JStr ""); ("tags", JArr [JStr "a"])])).1
  = Throw (TypeError "split").
Proof. repeat split. discriminate. Qed.


(** * Further properties *)

(** ** Guards and updates *)

Lemma isCollectionId_ill_formed (id : string) :
  ~ well_formed_id id -> isCollectionId (JStr id) = false.
Proof.
  intros H. destruct (isCollectionId (JStr id)) eqn:E; [|done].
  by apply isCollectionId_spec in E.
Qed.

Lemma with_collection_twice w name c c' :
  with_collection (with_collection w name c) name c' = with_collection w name c'.
Proof. unfold with_collection; simpl. by rewrite insert_insert_eq. Qed.

Lemma same_length_prefix (a b x y : string) :
  a +:+ x = b +:+ y -> String.length a = String.length b -> a = b.
Proof.
  revert b; induction a as [|c a IH]; intros [|c' b] H Hlen; try done.
  simpl in *. injection H as -> H. f_equal. apply IH; [done | lia].
Qed.

Section Guards.

Variable storable : JsVal -> bool.
Variable deleteFails : string -> bool.
Variable readable : string -> bool.
Variable signedUrl : string -> string.
Variable kind : string.
Variable isRecord : JsVal -> bool.

(** X1.  An id that is not made of 20 letters and digits is turned down before
    anything else is looked at: update and delete of a record answer 400, the
    three operations on the featured image answer 500, reading and deleting a
    tag answer 400, each with the invalid-parameter message, and neither the
    documents nor the bucket change. *)
Theorem ill_formed_id_is_rejected_first (id localFilePath : string) (body : JsVal) (w : World) :
  ~ well_formed_id id ->
  updateRecord storable kind isRecord id body w
  = (StatusJson 400 (ErrorBody invalid_parameter), w) /\
  deleteRecordAndFiles deleteFails kind id w
  = (StatusJson 400 (ErrorBody invalid_parameter), w) /\
  getRecordFeatImage signedUrl kind id w
  = (StatusJson 500 (ErrorBody invalid_parameter), w) /\
  deleteRecordFeatImage deleteFails kind id w
  = (StatusJson 500 (ErrorBody invalid_parameter), w) /\
  uploadRecordFeatImage readable signedUrl kind id localFilePath w
  = (StatusJson 500 (ErrorBody invalid_parameter), w) /\
  getTag kind id w = (Failed 400 invalid_parameter, w) /\
  deleteTag kind id w = (Failed 400 invalid_parameter, w).
Proof.
  intros H%isCollectionId_ill_formed.
  unfold updateRecord, deleteRecordAndFiles, getRecordFeatImage, deleteRecordFeatImage,
    uploadRecordFeatImage, getTag, deleteTag, try_catch, try_reply.
  rewrite H. done.
Qed.

(** X2.  Updating is idempotent: the same update of the same id, sent a second
    time, gets the answer of the first time and leaves the stores as the
    first update left them. *)
Theorem update_twice_is_update_once (id : string) (body : JsVal) (w : World) :
  let once := updateRecord storable kind isRecord id body w in
  updateRecord storable kind isRecord id body once.2 = once.
Proof.
  intros once. unfold once, updateRecord, try_catch.
  destruct (isCollectionId (JStr id)); [|done]. cbn [negb].
  destruct (isRecord body); [|done]. cbn [negb].
  unfold and_then, doc_update, resolve.
  destruct body as [| | | | | |fields]; try done.
  destruct (storable (JObj fields)); [|done].
  destruct (collection w kind !! id) as [old|] eqn:Hold; [|cbn [fst snd]; by rewrite Hold].
  cbn [fst snd]. rewrite collection_with_collection, lookup_insert_eq.
  rewrite with_collection_twice, insert_insert_eq.
  do 3 f_equal. apply map_eq. intros k. rewrite !lookup_union.
  by destruct (doc_of fields !! k), (old !! k).
Qed.

Lemma updateRecord_without_document (id : string) (body : JsVal) (w : World) :
  collection w kind !! id = None ->
  exists e, updateRecord storable kind isRecord id body w
            = (StatusJson 400 (ErrorBody e), w).
Proof.
  intros Hnone. unfold updateRecord, try_catch.
  destruct (isCollectionId (JStr id)); [|by eexists]. cbn [negb].
  destruct (isRecord body); [|by eexists]. cbn [negb].
  unfold and_then, doc_update. destruct body; try by eexists.
  destruct (storable _); [|by eexists]. rewrite Hnone. by eexists.
Qed.

(** X3.  After a delete operation on a well-formed id that the document
    store has carried out, that is, one answered 200, or answered 400 because
    the bucket refused to delete a file, no document is stored under the id,
    and an update of that id is answered 400 and changes nothing. *)
Theorem deleted_record_cannot_be_updated (id : string) (body : JsVal) (w : World) :
  well_formed_id id ->
  let outcome := deleteRecordAndFiles deleteFails kind id w in
  outcome.1 = SendStatus 200 \/
  outcome.1 = StatusJson 400 (ErrorBody (StoreError "delete")) ->
  collection outcome.2 kind !! id = None /\
  exists e, updateRecord storable kind isRecord id body outcome.2
            = (StatusJson 400 (ErrorBody e), outcome.2).
Proof.
  intros Hid outcome _.
  assert (collection outcome.2 kind !! id = None) as Hnone.
  { unfold outcome. rewrite (deleteRecordAndFiles_run deleteFails kind id w Hid).
    cbn [snd]. rewrite collection_insert. apply lookup_delete_eq. }
  split; [done | by apply updateRecord_without_document].
Qed.

End Guards.

(** ** Deletion *)

Section Deletion.

Variable deleteFails : string -> bool.
Variable signedUrl : string -> string.
Variable kind : string.

(** X4.  When the bucket refuses to delete one of the files of the record's
    folder, the delete operation answers 400 with the store's message, yet the
    document is gone already; of the files of the folder, exactly those whose
    deletion was refused are still in the bucket. *)
Theorem refused_deletion_leaves_orphans (id : string) (w : World) :
  well_formed_id id ->
  let folder := kind +:+ "/" +:+ id +:+ "/" in
  let outcome := deleteRecordAndFiles deleteFails kind id w in
  (exists n, n ∈ folder_files w folder /\ deleteFails n = true) ->
  outcome.1 = StatusJson 400 (ErrorBody (StoreError "delete")) /\
  collection outcome.2 kind !! id = None /\
  (forall m, m ∈ folder_files w folder ->
             (m ∈ bucket outcome.2 <-> deleteFails m = true)).
Proof.
  intros Hid folder outcome (n & Hn & Hfail). unfold outcome.
  rewrite (deleteRecordAndFiles_run deleteFails kind id w Hid). fold folder.
  cbn [fst snd bucket]. rewrite collection_insert. split; [|split].
  - assert (existsb deleteFails (folder_files w folder) = true) as ->; [|done].
    apply existsb_exists. exists n. by rewrite <- list_elem_of_In.
  - apply lookup_delete_eq.
  - intros m Hm. rewrite list_elem_of_filter. split.
    + intros [Hkeep _]. destruct (deleteFails m); [done|]. by destruct Hkeep.
    + intros Hm'. split.
      * intros [_ ?]. congruence.
      * by apply list_elem_of_filter in Hm as [_ ?].
Qed.

(** X5.  The delete operation leaves alone every object outside the folder
    [<kind>/<id>/]: such an object is in the bucket afterwards iff it was
    before, and no deletion of it is requested.  The folders of two different
    well-formed ids are disjoint, so the media of another record are never
    touched. *)
Theorem delete_touches_only_the_folder (id : string) (w : World) :
  well_formed_id id ->
  let folder := kind +:+ "/" +:+ id +:+ "/" in
  let outcome := deleteRecordAndFiles deleteFails kind id w in
  (forall n, startsWith n folder = false ->
             (n ∈ bucket outcome.2 <-> n ∈ bucket w) /\
             FileDelete n ∉ drop (length (bucketLog w)) (bucketLog outcome.2)) /\
  (forall id' n, well_formed_id id' -> id' <> id ->
                 startsWith n (kind +:+ "/" +:+ id' +:+ "/") = true ->
                 startsWith n folder = false).
Proof.
  intros Hid folder outcome. split.
  - intros n Hout. unfold outcome.
    rewrite (deleteRecordAndFiles_run deleteFails kind id w Hid). fold folder.
    cbn [snd bucket bucketLog].
    assert (n ∉ folder_files w folder) as Hnot.
    { intros [Hin _]%list_elem_of_filter. congruence. }
    split.
    + rewrite list_elem_of_filter. split; [by intros [_ ?]|].
      intros Hn. split; [|done]. by intros [? _].
    + rewrite drop_app_length. intros Hin%list_elem_of_fmap.
      destruct Hin as (m & [= ->] & Hm). done.
  - intros id' n [Hlen' _] Hne Hn.
    destruct (startsWith n folder) eqn:E; [|done]. exfalso. apply Hne.
    apply startsWith_spec in Hn as [r ->]. apply startsWith_spec in E as [r' E].
    unfold folder in E. rewrite !append_assoc in E.
    apply String.app_inj in E. simpl in E. injection E as E.
    destruct Hid as [Hlen _].
    apply (same_length_prefix id' id ("/" +:+ r) ("/" +:+ r')); [exact E | congruence].
Qed.

(** X6.  Deleting the featured image.  With no file of the folder whose name,
    extension apart, ends in [-feat], the answer is 500 with the not-found
    message and nothing changes.  Otherwise exactly one deletion is requested,
    of the first such file in listing order, and no document changes; if the
    bucket refuses, the answer is 500 and the bucket is as before; if it
    accepts, the answer is 200, the bucket has lost that file only, and, when
    no other such file is in the folder, a later lookup of the featured image
    answers 500 not found. *)
Theorem feat_image_deletion_removes_first_match_only (id : string) (w : World) :
  well_formed_id id ->
  let folder := kind +:+ "/" +:+ id +:+ "/" in
  let files := folder_files w folder in
  let matching := fun name => endsWith (path_parse_name name) "-feat" in
  let outcome := deleteRecordFeatImage deleteFails kind id w in
  ((forall name, name ∈ files -> matching name = false) ->
   outcome = (StatusJson 500 (ErrorBody not_found), w)) /\
  (forall before file after,
     files = before ++ file :: after ->
     matching file = true ->
     (forall name, name ∈ before -> matching name = false) ->
     firestore outcome.2 = firestore w /\
     bucketLog outcome.2 = bucketLog w ++ [FileDelete file] /\
     (deleteFails file = true ->
      outcome.1 = StatusJson 500 (ErrorBody (StoreError "delete")) /\
      forall n, n ∈ bucket outcome.2 <-> n ∈ bucket w) /\
     (deleteFails file = false ->
      outcome.1 = SendStatus 200 /\
      (forall n, n ∈ bucket outcome.2 <-> n ∈ bucket w /\ n <> file) /\
      ((forall name, name ∈ before ++ after -> name <> file -> matching name = false) ->
       getRecordFeatImage signedUrl kind id outcome.2
       = (StatusJson 500 (ErrorBody not_found), outcome.2)))).
Proof.
  intros Hid folder files matching outcome.
  apply isCollectionId_spec in Hid.
  assert (forall r, List.find matching files = r ->
            outcome
            = match r with
              | None => (StatusJson 500 (ErrorBody not_found), w)
              | Some file =>
                  (if deleteFails file
                   then StatusJson 500 (ErrorBody (StoreError "delete"))
                   else SendStatus 200,
                   mkWorld (firestore w)
                           (filter (fun n => ¬ (n ∈ [file] /\ deleteFails n = false)) (bucket w))
                           (bucketLog w ++ [FileDelete file]))
              end) as Hrun.
  { intros r Hr. unfold outcome, deleteRecordFeatImage, try_catch. rewrite Hid. cbn [negb].
    unfold and_then, findFeatImageFile, and_then, getFiles. cbn [fst snd].
    fold folder. fold files.
    erewrite find_same; [rewrite Hr|]; cycle 1.
    { intros name. cbn beta. by rewrite path_basename_ext_extname. }
    destruct r as [file|]; [|done]. unfold resolve, delete_all. cbn [existsb map].
    rewrite orb_false_r. by destruct (deleteFails file). }
  split.
  - intros Hnone. apply (Hrun None). by apply find_nothing.
  - intros before file after Hfiles Hfile Hbefore.
    rewrite (Hrun (Some file)); [|apply find_first; eauto]. cbn [fst snd firestore bucket bucketLog].
    split; [done|]. split; [done|]. split.
    + intros Hfail. rewrite Hfail. split; [done|]. intros n.
      rewrite list_elem_of_filter. split; [by intros [_ ?]|]. intros Hn. split; [|done].
      intros [->%list_elem_of_singleton ?]. congruence.
    + intros Hok. rewrite Hok. split; [done|].
      assert (forall n, n ∈ filter (fun n => ¬ (n ∈ [file] /\ deleteFails n = false)) (bucket w)
                        <-> n ∈ bucket w /\ n <> file) as Hbucket.
      { intros n. rewrite list_elem_of_filter, list_elem_of_singleton. split.
        - intros [Hkeep Hn]. split; [done|]. intros ->. by apply Hkeep.
        - intros [Hn Hne]. split; [|done]. by intros [? _]. }
      split; [done|]. intros Hothers.
      unfold getRecordFeatImage, try_catch. rewrite Hid. cbn [negb].
      unfold and_then, getFileURLWithSuffix, and_then, getFiles. cbn [fst snd].
      fold folder.
      assert (List.find matching
                (folder_files
                   (mkWorld (firestore w)
                      (filter (fun n => ¬ (n ∈ [file] /\ deleteFails n = false)) (bucket w))
                      (bucketLog w ++ [FileDelete file])) folder) = None) as Hfind.
      { apply find_nothing. intros name Hname.
        unfold folder_files in Hname; cbn [bucket] in Hname.
        apply list_elem_of_filter in Hname as [Hpre Hname].
        apply Hbucket in Hname as [Hname Hne].
        assert (name ∈ files) as Hin by (by apply list_elem_of_filter).
        rewrite Hfiles, elem_of_app, elem_of_cons in Hin.
        apply Hothers; [|done]. rewrite elem_of_app.
        destruct Hin as [?|[?|?]]; [by left | done | by right]. }
      fold matching. by rewrite Hfind.
Qed.

End Deletion.

(** ** Characters of a string *)


Lemma has_char_app (c : ascii) (a b : string) :
  has_char c (a +:+ b) = has_char c a || has_char c b.
Proof.
  unfold has_char. induction a as [|x a IH]; [done|].
  change (String x a +:+ b) with (String x (a +:+ b)).
  simpl. by rewrite IH, orb_assoc.
Qed.

Lemma split_parts_chars (sep c : ascii) (s x : string) :
  x ∈ split sep s -> has_char c x = true -> has_char c s = true /\ c <> sep.
Proof.
  revert x; induction s as [|a s IH]; intros x; simpl.
  - intros ->%list_elem_of_singleton. done.
  - destruct (Ascii.eqb_spec a sep) as [->|Hne].
    + intros [->|Hx]%elem_of_cons; [done|]. intros Hc.
      destruct (IH _ Hx Hc) as [H1 H2]. split; [|done].
      unfold has_char in *. simpl. by rewrite H1, orb_true_r.
    + pose proof (split_nonempty sep s) as Hnil.
      destruct (split sep s) as [|w ws] eqn:E; [done|].
      intros [->|Hx]%elem_of_cons.
      * unfold has_char at 1. simpl. fold (has_char c w).
        destruct (Ascii.eqb_spec c a) as [->|Hca].
        -- intros _. split; [|done]. unfold has_char. simpl. by rewrite Ascii.eqb_refl.
        -- simpl. intros Hc. destruct (IH w (list_elem_of_here _ _) Hc) as [H1 H2].
           split; [|done]. unfold has_char in *. simpl. by rewrite H1, orb_true_r.
      * intros Hc. destruct (IH x (list_elem_of_further _ _ _ Hx) Hc) as [H1 H2].
        split; [|done]. unfold has_char in *. simpl. by rewrite H1, orb_true_r.
Qed.

Lemma last_in_list {A} (l : list A) (d : A) : l <> [] -> List.last l d ∈ l.
Proof.
  induction l as [|a [|b l] IH]; [done| |]; intros _.
  - by left.
  - right. by apply IH.
Qed.

Lemma path_basename_no_slash (p : string) : has_char slash (path_basename p) = false.
Proof.
  destruct (has_char slash (path_basename p)) eqn:E; [|done].
  unfold path_basename in E.
  destruct (split_parts_chars slash slash (strip_trailing_slashes p) _
              (last_in_list _ _ (split_nonempty _ _)) E) as [_ H].
  done.
Qed.

Lemma strip_trailing_slashes_no_slash (f : string) :
  has_char slash f = false -> strip_trailing_slashes f = f.
Proof.
  unfold has_char. induction f as [|c f IH]; [done|].
  cbn [list_ascii_of_string existsb strip_trailing_slashes].
  rewrite orb_false_iff. intros [Hc Hf]. rewrite (IH Hf).
  destruct f; [|done]. rewrite Ascii.eqb_sym in Hc. by rewrite Hc.
Qed.

Lemma strip_trailing_slashes_app (a f : string) :
  strip_trailing_slashes f <> "" ->
  strip_trailing_slashes (a +:+ f) = a +:+ strip_trailing_slashes f.
Proof.
  intros Hf. induction a as [|c a IH]; [done|].
  change (String c a +:+ f) with (String c (a +:+ f)).
  change (String c a +:+ strip_trailing_slashes f)
    with (String c (a +:+ strip_trailing_slashes f)).
  simpl. rewrite IH. destruct a; simpl; [|done]. by destruct (strip_trailing_slashes f).
Qed.

Lemma split_app (sep : ascii) (a b : string) :
  split sep (a +:+ String sep b) = split sep a ++ split sep b.
Proof.
  induction a as [|c a IH].
  - change ("" +:+ String sep b) with (String sep b).
    cbn [split]. by rewrite Ascii.eqb_refl.
  - change (String c a +:+ String sep b) with (String c (a +:+ String sep b)).
    cbn [split]. rewrite IH. destruct (Ascii.eqb c sep); [done|].
    pose proof (split_nonempty sep a). by destruct (split sep a).
Qed.

Lemma last_app_nonempty {A} (l1 l2 : list A) (d : A) :
  l2 <> [] -> List.last (l1 ++ l2) d = List.last l2 d.
Proof.
  intros Hne. induction l1 as [|x l1 IH]; [done|].
  simpl. rewrite IH. destruct (l1 ++ l2) eqn:E; [|done].
  by apply app_eq_nil in E as [_ ?].
Qed.

Lemma last_split_app (sep : ascii) (a b : string) :
  List.last (split sep (a +:+ String sep b)) "" = List.last (split sep b) "".
Proof. rewrite split_app. apply last_app_nonempty, split_nonempty. Qed.

(** The last portion of a path that ends with a slash-free file name. *)
Lemma path_basename_in_folder (folder f : string) :
  f <> "" -> has_char slash f = false -> path_basename (folder +:+ "/" +:+ f) = f.
Proof.
  intros Hne Hf. unfold path_basename.
  change ("/" +:+ f) with (String slash f).
  assert (strip_trailing_slashes (String slash f) = String slash f) as Hs.
  { simpl. rewrite (strip_trailing_slashes_no_slash f Hf). by destruct f. }
  rewrite strip_trailing_slashes_app; rewrite Hs; [|done].
  rewrite last_split_app, split_no_separator; [done|]. exact Hf.
Qed.

Lemma last_dot_app (a b : string) :
  has_char dot b = false -> last_dot (a +:+ String dot b) = Some (String.length a).
Proof.
  intros Hb.
  assert (last_dot b = None) as Hnone.
  { unfold has_char in Hb. induction b as [|c b IH]; [done|].
    cbn [list_ascii_of_string existsb last_dot] in *.
    apply orb_false_iff in Hb as [Hc Hb]. rewrite (IH Hb).
    rewrite Ascii.eqb_sym in Hc. by rewrite Hc. }
  induction a as [|c a IH].
  - change ("" +:+ String dot b) with (String dot b). cbn [last_dot String.length].
    by rewrite Hnone, Ascii.eqb_refl.
  - change (String c a +:+ String dot b) with (String c (a +:+ String dot b)).
    cbn [last_dot String.length]. by rewrite IH.
Qed.

Lemma substring_prefix (a b : string) :
  String.substring 0 (String.length a) (a +:+ b) = a.
Proof.
  induction a as [|c a IH]; [by destruct b|].
  change (String c a +:+ b) with (String c (a +:+ b)). simpl. by rewrite IH.
Qed.

(** A name made of a portion, [-feat.] and a dot-free portion loses
    [.portion] when its extension is stripped. *)
Lemma path_parse_name_feat (folder p0 p1 : string) :
  has_char slash p0 = false -> has_char slash p1 = false -> has_char dot p1 = false ->
  path_parse_name (folder +:+ "/" +:+ p0 +:+ "-feat." +:+ p1) = p0 +:+ "-feat".
Proof.
  intros H0 H1 Hd. unfold path_parse_name.
  rewrite path_basename_in_folder; cycle 1.
  { by destruct p0. }
  { rewrite !has_char_app, H0, H1. reflexivity. }
  assert (p0 +:+ "-feat." +:+ p1 = (p0 +:+ "-feat") +:+ String dot p1) as Hshape
    by (by rewrite append_assoc).
  unfold ext_start. rewrite Hshape, last_dot_app by done.
  rewrite length_append. simpl String.length.
  destruct (String.length p0 + 5) as [|i] eqn:Hi; [lia|]. rewrite <- Hi.
  destruct (String.eqb_spec ((p0 +:+ "-feat") +:+ String dot p1) "..") as [E|_].
  { apply (f_equal String.length) in E. rewrite !length_append in E. simpl in E. lia. }
  replace (String.length p0 + 5) with (String.length (p0 +:+ "-feat"))
    by (rewrite length_append; reflexivity).
  apply substring_prefix.
Qed.

Lemma featRemoteFileName_shape (fileName : string) :
  has_char slash fileName = false ->
  exists p0 p1,
    featRemoteFileName fileName = p0 +:+ "-feat." +:+ p1 /\
    has_char slash p0 = false /\ has_char slash p1 = false /\ has_char dot p1 = false.
Proof.
  intros Hf. unfold featRemoteFileName.
  pose proof (split_nonempty dot fileName) as Hne.
  assert (forall x c, x ∈ split dot fileName -> has_char c x = true ->
                      has_char c fileName = true /\ c <> dot) as Hparts
    by (intros x c; apply split_parts_chars).
  destruct (split dot fileName) as [|p0 rest] eqn:E; [done|].
  assert (has_char slash p0 = false) as H0.
  { destruct (has_char slash p0) eqn:E0; [|done].
    destruct (Hparts p0 slash (list_elem_of_here _ _) E0). congruence. }
  exists p0. destruct rest as [|p1 rest]; cbn [lookup list_lookup template default].
  - exists "undefined". done.
  - exists p1. split; [done|]. split; [done|]. split.
    + destruct (has_char slash p1) eqn:E1; [|done].
      destruct (Hparts p1 slash) as [? _]; [by right; left | done | congruence].
    + destruct (has_char dot p1) eqn:E1; [|done].
      destruct (Hparts p1 dot) as [_ ?]; [by right; left | done | done].
Qed.

Lemma elem_of_insert_object (name x : string) (files : list string) :
  x ∈ insert_object name files <-> x = name \/ x ∈ files.
Proof.
  induction files as [|f files IH]; simpl.
  - rewrite list_elem_of_singleton, elem_of_nil. tauto.
  - destruct (String.eqb_spec name f) as [->|Hne].
    + rewrite elem_of_cons. tauto.
    + destruct (String.ltb name f).
      * rewrite elem_of_cons. tauto.
      * rewrite !elem_of_cons, IH. tauto.
Qed.

Lemma find_only_match `{EqDecision A} (f : A -> bool) (l : list A) (x : A) :
  x ∈ l -> f x = true -> (forall y, y ∈ l -> y <> x -> f y = false) ->
  List.find f l = Some x.
Proof.
  induction l as [|a l IH]; [by intros ?%elem_of_nil|].
  intros Hin Hx Hothers. simpl. destruct (decide (a = x)) as [->|Hne].
  - by rewrite Hx.
  - rewrite (Hothers a); [|by left|done]. apply IH; [|done|].
    + by apply elem_of_cons in Hin as [->|?].
    + intros y Hy. apply Hothers. by right.
Qed.

Section Upload.

Variable readable : string -> bool.
Variable signedUrl : string -> string.
Variable kind : string.

Lemma uploadRecordFeatImage_run (id localFilePath : string) (w : World) :
  well_formed_id id ->
  isFilePath localFilePath = true ->
  let remote := (kind +:+ "/" +:+ id) +:+ "/" +:+
                featRemoteFileName (path_basename localFilePath) in
  uploadRecordFeatImage readable signedUrl kind id localFilePath w
  = if readable localFilePath
    then (StatusJson 200 (FileURLBody (signedUrl remote)),
          mkWorld (firestore w) (insert_object remote (bucket w))
                  (bucketLog w ++ [Upload localFilePath remote]))
    else (StatusJson 500 (ErrorBody (StoreError "upload")), w).
Proof.
  intros Hid Hpath remote. apply isCollectionId_spec in Hid.
  unfold uploadRecordFeatImage, try_catch. rewrite Hid, Hpath. cbn [negb].
  unfold and_then, uploadFileToFolder, and_then, bucket_upload.
  fold remote. by destruct (readable localFilePath).
Qed.

(** X7.  A featured image uploaded for a well-formed id from an accepted,
    readable path is answered 200 with the signed URL of the object
    [<kind>/<id>/<remote name>]; the bucket holds that object and what it held
    before; whatever the file name, the name of the object, extension apart,
    ends in [-feat]; and when no other file of the folder does, the lookup of
    the featured image then answers that same URL. *)
Theorem uploaded_feat_image_is_found (id localFilePath : string) (w : World) :
  well_formed_id id ->
  isFilePath localFilePath = true ->
  readable localFilePath = true ->
  let folder := kind +:+ "/" +:+ id +:+ "/" in
  let remote := folder +:+ featRemoteFileName (path_basename localFilePath) in
  let outcome := uploadRecordFeatImage readable signedUrl kind id localFilePath w in
  outcome.1 = StatusJson 200 (FileURLBody (signedUrl remote)) /\
  (forall n, n ∈ bucket outcome.2 <-> n = remote \/ n ∈ bucket w) /\
  remote ∈ folder_files outcome.2 folder /\
  endsWith (path_parse_name remote) "-feat" = true /\
  ((forall n, n ∈ folder_files w folder -> n <> remote ->
              endsWith (path_parse_name n) "-feat" = false) ->
   getRecordFeatImage signedUrl kind id outcome.2
   = (StatusJson 200 (FileURLBody (signedUrl remote)), outcome.2)).
Proof.
  intros Hid Hpath Hread folder remote outcome.
  assert ((kind +:+ "/" +:+ id) +:+ "/" +:+
          featRemoteFileName (path_basename localFilePath) = remote) as Hremote.
  { unfold remote, folder. by rewrite !append_assoc. }
  assert (outcome
          = (StatusJson 200 (FileURLBody (signedUrl remote)),
             mkWorld (firestore w) (insert_object remote (bucket w))
                     (bucketLog w ++ [Upload localFilePath remote]))) as Hrun.
  { unfold outcome. rewrite (uploadRecordFeatImage_run id localFilePath w Hid Hpath).
    cbn zeta. by rewrite Hread, Hremote. }
  assert (endsWith (path_parse_name remote) "-feat" = true) as Hfeat.
  { destruct (featRemoteFileName_shape (path_basename localFilePath)
                (path_basename_no_slash localFilePath)) as (p0 & p1 & Hshape & H0 & H1 & Hd).
    rewrite <- Hremote, Hshape, path_parse_name_feat by done.
    apply endsWith_spec. by exists p0. }
  assert (startsWith remote folder = true) as Hunder.
  { apply startsWith_spec. by eexists. }
  rewrite Hrun. cbn [fst snd bucket].
  assert (forall n, n ∈ insert_object remote (bucket w) <-> n = remote \/ n ∈ bucket w)
    as Hbucket by (intros n; apply elem_of_insert_object).
  assert (remote ∈ folder_files
            (mkWorld (firestore w) (insert_object remote (bucket w))
                     (bucketLog w ++ [Upload localFilePath remote])) folder) as Hin.
  { apply list_elem_of_filter. split; [done|]. apply Hbucket. by left. }
  split; [done|]. split; [done|]. split; [done|]. split; [done|].
  intros Hnone. apply isCollectionId_spec in Hid.
  unfold getRecordFeatImage, try_catch. rewrite Hid. cbn [negb].
  unfold and_then, getFileURLWithSuffix, and_then, getFiles. cbn [fst snd].
  fold folder. erewrite find_only_match; [done | exact Hin | exact Hfeat |].
  intros n Hn Hne. apply list_elem_of_filter in Hn as [Hpre Hn].
  apply Hbucket in Hn as [->|Hn]; [done|].
  apply Hnone; [|done]. by apply list_elem_of_filter.
Qed.

(** X8.  An upload for a well-formed id whose path is not accepted, or whose file
    cannot be read, is answered 500 and changes neither the documents nor the
    bucket. *)
Theorem failed_upload_changes_nothing (id localFilePath : string) (w : World) :
  well_formed_id id ->
  isFilePath localFilePath = false \/ readable localFilePath = false ->
  exists e,
    uploadRecordFeatImage readable signedUrl kind id localFilePath w
    = (StatusJson 500 (ErrorBody e), w).
Proof.
  intros Hid H. destruct (isFilePath localFilePath) eqn:Hpath.
  - rewrite (uploadRecordFeatImage_run id localFilePath w Hid Hpath). cbn zeta.
    destruct H as [H|H]; [done | rewrite H; by eexists].
  - apply isCollectionId_spec in Hid.
    unfold uploadRecordFeatImage, try_catch. rewrite Hid, Hpath. by eexists.
Qed.

End Upload.

(** ** Search, further *)

Lemma lower_char_not_upper (c : ascii) : is_upper (lower_char c) = false.
Proof.
  unfold lower_char. destruct (is_upper c) eqn:E; [|done].
  unfold is_upper, code in *. apply andb_true_iff in E as [H1 H2].
  apply Nat.leb_le in H1, H2. rewrite nat_ascii_embedding by lia.
  apply andb_false_iff. right. apply Nat.leb_gt. lia.
Qed.

Lemma toLowerCase_no_upper (s : string) :
  existsb is_upper (list_ascii_of_string (toLowerCase s)) = false.
Proof.
  induction s as [|c s IH]; [done|].
  cbn [toLowerCase list_ascii_of_string existsb]. by rewrite lower_char_not_upper, IH.
Qed.

Lemma forEach_push_subset (name : JsVal) docs matched result :
  forEach_push name docs matched = Return result ->
  forall e, e ∈ result -> e ∈ matched \/ e ∈ docs.
Proof.
  revert matched; induction docs as [|doc docs IH]; intros matched; simpl.
  - intros [= <-] e He. by left.
  - destruct (name_includes doc.2 name) as [hit|] eqn:E; [|done]. simpl.
    intros H e He. destruct (IH _ H e He) as [Hm|Hd].
    + destruct hit; [|by left].
      apply elem_of_app in Hm as [?|Hm%list_elem_of_singleton]; [by left | subst; by right; left].
    + right. by right.
Qed.

(** X9.  A business search whose tags criterion is not empty and has an empty
    item (two commas in a row, a comma at either end) is answered 400 with the
    invalid-query message, and nothing changes. *)
Theorem tag_criterion_with_empty_item_is_rejected (query : JsVal) (tags : string) (w : World) :
  prop query "tags" = JStr tags ->
  tags <> "" ->
  "" ∈ split ","%char tags ->
  getMatchingBusinesses query w = (StatusJson 400 (ErrorBody invalid_query), w).
Proof.
  intros Htags Hne Hempty.
  unfold getMatchingBusinesses, try_catch, and_then, lift. rewrite Htags.
  unfold isSearchParameters.
  cbn [read_prop prop get_field String.eqb Ascii.eqb Bool.eqb truthy].
  destruct (String.eqb_spec tags ""); [done|].
  cbn [negb call_split assign_prop set_field String.eqb Ascii.eqb Bool.eqb fst].
  unfold searchSchema.
  rewrite (joi_object_key_error _ _ "tags"
             (joi_array .> items joi_string .> allow [JNull; JStr ""] .> required));
    [done | right; right; left; reflexivity |].
  cbn [get_field String.eqb Ascii.eqb Bool.eqb].
  rewrite tags_items_pass. apply negb_true_iff.
  destruct (forallb _ _) eqn:E; [|done].
  rewrite forallb_forall in E. apply list_elem_of_In, E in Hempty. done.
Qed.

(** X10.  With a city criterion that is not empty and is made of characters
    of the ASCII range, the query that the search composes lets through only
    candidates whose stored city is the criterion with the letters A to Z
    turned into a to z, and every business of a successful search is one of
    them; so a business whose stored city has one of the letters A to Z is
    returned by no such search. *)
Theorem city_criterion_is_matched_in_lower_case
    (query : JsVal) (city : string) (w w' : World) matches :
  prop query "city" = JStr city ->
  city <> "" ->
  ascii_only city = true ->
  getMatchingBusinesses query w = (StatusJson 200 (MatchesBody matches), w') ->
  exists composed,
    businessQuery (JStr city) (prop query "tags") = Return composed /\
    (forall id d, (id, d) ∈ matches -> (id, d) ∈ snapshot w "business" composed) /\
    (forall id d,
       (id, d) ∈ snapshot w "business" composed ->
       d !! "city" = Some (JStr (toLowerCase city)) /\
       forall stored, d !! "city" = Some (JStr stored) ->
                      existsb is_upper (list_ascii_of_string stored) = false).
Proof.
  intros Hcity Hne _ Hrun.
  revert Hrun. unfold getMatchingBusinesses, try_catch, and_then, lift. rewrite Hcity.
  destruct (isSearchParameters _).1 as [[|]|]; try done. cbn [negb].
  unfold businessQuery. cbn [truthy call_toLowerCase].
  destruct (String.eqb_spec city ""); [done|]. cbn [negb].
  destruct (if truthy (prop query "tags") then _ else _) as [q0|] eqn:Hq0; [|done].
  cbn [mbind completion_bind mret completion_ret].
  unfold query_get.
  destruct (forEach_push _ _ _) as [result|] eqn:Hpush; [|done].
  unfold resolve. intros [= <- _].
  eexists. split; [reflexivity|]. split.
  - intros id d Hin.
    by destruct (forEach_push_subset _ _ _ _ Hpush _ Hin) as [?%elem_of_nil|Hsnap].
  - intros id d Hsnap.
    assert (d !! "city" = Some (JStr (toLowerCase city))) as Hd.
    { apply elem_of_snapshot in Hsnap as [_ Hpass].
      rewrite forallb_app, andb_true_iff in Hpass. destruct Hpass as [_ Hpass].
      cbn [forallb] in Hpass. rewrite andb_true_r in Hpass. by apply passes_city. }
    split; [done|]. intros stored Hs. rewrite Hd in Hs. injection Hs as <-.
    apply toLowerCase_no_upper.
Qed.


(** ** Validators, further *)

Lemma get_field_doc_of (fs : list (string * JsVal)) (k : string) (v : JsVal) :
  get_field fs k = v -> v <> JUndefined -> doc_of fs !! k = Some v.
Proof.
  unfold doc_of. induction fs as [|[k' v'] fs IH]; simpl; [congruence|].
  destruct (String.eqb_spec k' k) as [->|Hne].
  - intros -> _. apply lookup_insert_eq.
  - intros H1 H2. rewrite lookup_insert_ne by done. by apply IH.
Qed.

Lemma day_key_in_week (v : JsVal) :
  has_error (joi_string .> valid (map JStr daysOfWeek) .> required) v = false ->
  exists d, v = JStr d /\ d ∈ daysOfWeek.
Proof.
  unfold has_error. cbn [coerce required valid joi_string id presence_required valids only app].
  destruct v; try discriminate.
  destruct (existsb _ _) eqn:E; [|discriminate]. intros _.
  apply existsb_exists in E as (x & Hx & E).
  apply in_map_iff in Hx as (d & <- & Hd).
  cbn [strict_eq] in E. apply String.eqb_eq in E as ->.
  exists d. split; [done|]. by apply list_elem_of_In.
Qed.

Lemma array_schema_passes (s : Schema) (cmp : JsVal -> JsVal -> bool) (v : JsVal) :
  has_error (joi_array .> items s .> unique cmp .> required) v = false ->
  exists xs, v = JArr xs /\
             Forall (fun x => x <> JUndefined /\ has_error s x = false) xs /\
             unique_from cmp [] xs = true.
Proof.
  unfold has_error at 1. simpl. destruct v as [| | | | |xs|]; try discriminate.
  rewrite negb_false_iff, !andb_true_iff. intros [Hitems Hu].
  exists xs. split; [done|]. split; [|done].
  rewrite forallb_forall in Hitems. apply Forall_forall. intros x Hx.
  apply list_elem_of_In, Hitems in Hx. destruct x; try done;
    by apply negb_true_iff in Hx.
Qed.

Section BusinessShape.

Variable isEmail : string -> bool.
Variable isUri : string -> bool.

(** X12.  The time table of an accepted business is a list of at most seven
    entries whose days are days of the week, no two of them the same. *)
Theorem accepted_timetable_has_distinct_week_days (fs : list (string * JsVal)) :
  isBusiness isEmail isUri (JObj fs) = true ->
  exists tt days,
    get_field fs "timeTable" = JArr tt /\
    map (fun a => prop a "day") tt = map JStr days /\
    NoDup days /\
    (forall d, d ∈ days -> d ∈ daysOfWeek) /\
    length tt <= 7.
Proof.
  unfold isBusiness. rewrite negb_true_iff. intros H.
  apply (joi_object_key_passes _ fs "timeTable"
           (joi_array .> items daySchema .> unique same_day .> required)) in H;
    [|do 10 right; left; reflexivity].
  apply array_schema_passes in H as (tt & Htt & Hitems & Hu).
  apply unique_from_sound in Hu as [_ Hu].
  assert (exists days, map (fun a => prop a "day") tt = map JStr days /\
                       Forall (fun d => d ∈ daysOfWeek) days) as (days & Hdays & Hweek).
  { clear Hu Htt. induction Hitems as [|a tt [Hdef Ha] _ (days & IH1 & IH2)].
    - by exists [].
    - destruct a as [| | | | | |afs]; try done; try discriminate.
      assert (has_error (joi_string .> valid (map JStr daysOfWeek) .> required)
                        (get_field afs "day") = false) as Hday.
      { apply (joi_object_key_passes _ afs "day" _ Ha). left; reflexivity. }
      apply day_key_in_week in Hday as (d & Hd & Hin).
      exists (d :: days). split; [simpl in *; by rewrite Hd, IH1 | by constructor]. }
  exists tt, days.
  assert (NoDup days) as Hnodup.
  { apply NoDup_alt. intros i j d Hi Hj.
    assert (forall n, days !! n = Some d ->
                      exists a, tt !! n = Some a /\ prop a "day" = JStr d) as Hback.
    { intros n Hn.
      assert (map JStr days !! n = Some (JStr d)) as Hm
        by (by rewrite list_lookup_fmap, Hn).
      rewrite <- Hdays, list_lookup_fmap in Hm.
      destruct (tt !! n) as [a|]; [|done]. simpl in Hm. injection Hm as Hm. eauto. }
    destruct (Hback i Hi) as (a & Hai & Had), (Hback j Hj) as (b & Hbj & Hbd).
    assert (same_day a b = true /\ same_day b a = true) as [Hab Hba].
    { unfold same_day. rewrite Had, Hbd. simpl. by rewrite String.eqb_refl. }
    destruct (Nat.lt_total i j) as [Hlt|[->|Hlt]]; [| done |].
    - rewrite (Hu i j a b Hlt Hai Hbj) in Hab. discriminate.
    - rewrite (Hu j i b a Hlt Hbj Hai) in Hba. discriminate. }
  split; [done|]. split; [done|]. split; [done|].
  rewrite Forall_forall in Hweek. split; [done|].
  assert (length days <= length daysOfWeek) as Hlen.
  { apply submseteq_length, NoDup_submseteq; done. }
  apply (f_equal length) in Hdays. rewrite !length_map in Hdays.
  rewrite Hdays. exact Hlen.
Qed.


(** X13.  In an accepted business the name is a string that is not empty, and
    each of the description, the two phone numbers, the email, the website,
    the address, the city and the URL of the featured image is null or a
    string that is not empty: the empty string is accepted for none of
    them. *)
Theorem accepted_business_texts_are_not_empty (fs : list (string * JsVal)) :
  isBusiness isEmail isUri (JObj fs) = true ->
  (exists name, get_field fs "name" = JStr name /\ name <> "") /\
  (forall k, k ∈ nullableTexts ->
             get_field fs k = JNull \/
             exists text, get_field fs k = JStr text /\ text <> "").
Proof.
  unfold isBusiness. rewrite negb_true_iff. intros H.
  assert (forall k s, In (k, s) (
            [ ("name", joi_string .> required);
              ("description", joi_string .> allow [JNull] .> required);
              ("phoneNumber", joi_string .> allow [JNull] .> required);
              ("phoneNumberSecondary", joi_string .> allow [JNull] .> required);
              ("email", joi_string .> email isEmail .> allow [JNull] .> required);
              ("website", joi_string .> uri isUri .> allow [JNull] .> required);
              ("address", joi_string .> allow [JNull] .> required);
              ("city", joi_string .> allow [JNull] .> required);
              ("featuredImageURL", joi_string .> uri isUri .> allow [JNull] .> required) ]) ->
            get_field fs k = JNull \/
            exists text, get_field fs k = JStr text /\ text <> "") as Htext.
  { intros k s Hin.
    assert (has_error s (get_field fs k) = false) as Hk.
    { apply (joi_object_key_passes _ fs k s H).
      simpl in Hin. unfold businessSchema. simpl.
      intuition (subst; tauto). }
    simpl in Hin.
    repeat (destruct Hin as [[= <- <-]|Hin];
            [ unfold has_error in Hk; simpl in Hk;
              destruct (get_field fs _) as [| | | |text| |]; try discriminate; auto;
              right; exists text; split; [done|]; intros ->; discriminate |]).
    destruct Hin. }
  split.
  - destruct (Htext "name" _ (or_introl eq_refl)) as [Hn|Hn]; [|done].
    exfalso. apply (joi_object_key_passes _ fs "name" (joi_string .> required)) in H;
      [|left; reflexivity].
    rewrite Hn in H. discriminate.
  - intros k Hk. unfold nullableTexts in Hk.
    repeat (apply elem_of_cons in Hk as [->|Hk];
            [eapply Htext; simpl; intuition eauto; fail|]).
    by apply elem_of_nil in Hk.
Qed.

End BusinessShape.

Lemma tag_item_passes (x : JsVal) :
  x <> JUndefined ->
  has_error (joi_string .> alphanum .> length_is 20) x = false ->
  exists id, x = JStr id /\ well_formed_id id.
Proof.
  intros Hdef H. destruct x as [| | | |id| |]; try done; try discriminate.
  exists id. split; [done|]. apply isCollectionId_spec.
  unfold isCollectionId. apply negb_true_iff. exact H.
Qed.

Section BusinessTags.

Variable isEmail : string -> bool.
Variable isUri : string -> bool.

(** X14.  The tags of an accepted business are null or a list of strings of 20
    letters and digits. *)
Theorem accepted_tags_are_well_formed_ids (fs : list (string * JsVal)) :
  isBusiness isEmail isUri (JObj fs) = true ->
  get_field fs "tags" = JNull \/
  exists ids, get_field fs "tags" = JArr (map JStr ids) /\ Forall well_formed_id ids.
Proof.
  unfold isBusiness. rewrite negb_true_iff. intros H.
  apply (joi_object_key_passes _ fs "tags"
           (joi_array .> items (joi_string .> alphanum .> length_is 20)
              .> allow [JNull] .> required)) in H;
    [|right; right; left; reflexivity].
  unfold has_error at 1 in H. simpl in H.
  destruct (get_field fs "tags") as [| | | | |xs|]; try discriminate; [by left|].
  right. rewrite negb_false_iff in H. rewrite forallb_forall in H.
  assert (Forall (fun x => exists id, x = JStr id /\ well_formed_id id) xs) as Hxs.
  { apply Forall_forall. intros x Hx. apply list_elem_of_In, H in Hx.
    destruct x; try discriminate; apply tag_item_passes; try done;
      by apply negb_true_iff in Hx. }
  clear H. induction Hxs as [|x xs (id & -> & Hid) _ (ids & IH1 & IH2)].
  - by exists [].
  - exists (id :: ids). injection IH1 as ->. split; [done | by constructor].
Qed.

End BusinessTags.

(** ** Listings *)

(** X15.  The listing of a collection answers 200 with exactly the documents
    stored in it, and the listing of the featured ones answers 200 with
    exactly those whose [isFeatured] field is the boolean [true]; neither
    changes the stores. *)
Theorem listings_hold_the_stored_documents (kind : string) (w : World) :
  exists every featured,
    getAllRecords kind w = (Json 200 every, w) /\
    getFeatRecords kind w = (Json 200 featured, w) /\
    (forall id d, (id, d) ∈ every <-> collection w kind !! id = Some d) /\
    (forall id d, (id, d) ∈ featured <->
                  collection w kind !! id = Some d /\
                  d !! "isFeatured" = Some (JBool true)).
Proof.
  eexists _, _. split; [reflexivity|]. split; [reflexivity|]. split.
  - intros id d. rewrite elem_of_snapshot. simpl. tauto.
  - intros id d. rewrite elem_of_snapshot. cbn [forallb passes]. rewrite andb_true_r.
    destruct (d !! "isFeatured") as [[| |[|]| | | |]|]; simpl; split; intros [? ?]; done.
Qed.

Section CreatedRecords.

Variable storable : JsVal -> bool.
Variable autoId : World -> string -> string.
Variable kind : string.
Variable isRecord : JsVal -> bool.

Lemma addNewRecord_run (fields : list (string * JsVal)) (w : World) :
  isRecord (JObj fields) = true ->
  storable (JObj fields) = true ->
  addNewRecord storable autoId kind isRecord (JObj fields) w
  = (Json 200 (autoId w kind),
     with_collection w kind (<[autoId w kind := doc_of fields]> (collection w kind))).
Proof.
  intros Hrec Hst. unfold addNewRecord, try_reply. rewrite Hrec. cbn [negb].
  unfold and_then, collection_add. by rewrite Hst.
Qed.

(** X16.  Creation answers either 200 with the id that the store generated, in
    which case the document stored under that id is the body as sent and every
    other document of the collection is as before, or 400, in which case
    nothing has changed; a body that fails validation is answered 400 with the
    invalid-body message. *)
Theorem created_record_is_stored_as_sent (body : JsVal) (w : World) :
  let outcome := addNewRecord storable autoId kind isRecord body w in
  (forall id, outcome.1 = Json 200 id ->
     id = autoId w kind /\
     exists fields, body = JObj fields /\
                    collection outcome.2 kind !! id = Some (doc_of fields) /\
                    forall id', id' <> id ->
                                collection outcome.2 kind !! id' = collection w kind !! id') /\
  ((forall id, outcome.1 <> Json 200 id) ->
   (exists e, outcome.1 = Failed 400 e) /\ outcome.2 = w) /\
  (isRecord body = false -> outcome = (Failed 400 invalid_body, w)).
Proof.
  intros outcome. unfold outcome, addNewRecord, try_reply.
  destruct (isRecord body) eqn:Hrec; cbn [negb].
  - unfold and_then, collection_add.
    destruct body as [| | | | | |fields];
      try (split; [done|]; split; [intros _; split; [by eexists | done] | done]).
    destruct (storable (JObj fields));
      [|split; [done|]; split; [intros _; split; [by eexists | done] | done]].
    unfold resolve. cbn [fst snd]. split; [|split; [|done]].
    + intros id [= <-]. split; [done|]. exists fields. split; [done|].
      rewrite collection_with_collection. split; [apply lookup_insert_eq|].
      intros id' Hne. by rewrite lookup_insert_ne.
    + intros H. by destruct (H (autoId w kind)).
  - split; [done|]. split; [intros _; split; [by eexists | done] | done].
Qed.

End CreatedRecords.

Section FeaturedFlag.

Variable isEmail : string -> bool.
Variable isUri : string -> bool.
Variable storable : JsVal -> bool.
Variable autoId : World -> string -> string.

(** X17.  The validator takes [isFeatured] given as a string (joi converts
    [true] and [false]), but the controller stores the body as sent: a
    business accepted and created with a string as [isFeatured] is stored with
    the string, and the listing of the featured businesses, which compares
    with the boolean [true], does not list it. *)
Theorem string_flag_is_stored_and_not_featured
    (fields : list (string * JsVal)) (flag : string) (w : World) :
  isBusiness isEmail isUri (JObj fields) = true ->
  storable (JObj fields) = true ->
  get_field fields "isFeatured" = JStr flag ->
  let outcome := addNewBusiness isEmail isUri storable autoId (JObj fields) w in
  exists id featured,
    outcome.1 = Json 200 id /\
    (collection outcome.2 "business" !! id) ≫= (.!! "isFeatured") = Some (JStr flag) /\
    getFeatBusinesses outcome.2 = (Json 200 featured, outcome.2) /\
    forall d, (id, d) ∉ featured.
Proof.
  intros Hrec Hst Hflag outcome. unfold outcome, addNewBusiness.
  rewrite (addNewRecord_run storable autoId "business" _ fields w Hrec Hst).
  cbn [fst snd]. eexists _, _. split; [reflexivity|].
  assert (doc_of fields !! "isFeatured" = Some (JStr flag)) as Hdoc
    by (by apply get_field_doc_of).
  rewrite collection_with_collection, lookup_insert_eq. cbn [mbind option_bind].
  split; [done|]. split; [reflexivity|].
  intros d Hin. apply elem_of_snapshot in Hin as [Hd Hpass].
  rewrite collection_with_collection, lookup_insert_eq in Hd. injection Hd as <-.
  cbn [forallb passes] in Hpass. by rewrite Hdoc in Hpass.
Qed.

End FeaturedFlag.

(** ** Tags *)

Lemma re_words_from_chars (state : WordsState) (x : string) (c : ascii) :
  re_words_from state x = true -> has_char c x = true ->
  is_word c || is_space c = true.
Proof.
  revert state. induction x as [|a x IH]; intros state; [discriminate|].
  unfold has_char. cbn [re_words_from list_ascii_of_string existsb].
  intros Hre Hc. apply orb_true_iff in Hc as [Hc|Hc].
  - apply Ascii.eqb_eq in Hc as ->.
    destruct (is_word a); [done|]. by destruct (is_space a).
  - destruct (is_word a); [by apply (IH InWord)|].
    destruct (is_space a); [|done]. destruct state; [done | |]; by apply (IH InSpaces).
Qed.

Lemma re_words_from_last (state : WordsState) (front : string) (c : ascii) :
  re_words_from state (front +:+ String c "") = true -> is_word c = true.
Proof.
  revert state. induction front as [|a front IH]; intros state.
  - change ("" +:+ String c "") with (String c ""). cbn [re_words_from].
    destruct (is_word c); [done|]. destruct (is_space c); [|done]. by destruct state.
  - change (String a front +:+ String c "") with (String a (front +:+ String c "")).
    cbn [re_words_from]. destruct (is_word a); [apply IH|].
    destruct (is_space a); [|done]. destruct state; [done | |]; apply IH.
Qed.

Lemma only_key_doc (fs : list (string * JsVal)) (k : string) :
  forallb (fun kv => String.eqb k kv.1) fs = true ->
  get_field fs k <> JUndefined ->
  doc_of fs = {[ k := get_field fs k ]}.
Proof.
  unfold doc_of. induction fs as [|[k' v] fs IH]; [done|].
  cbn [forallb get_field fst list_to_map]. intros H _.
  apply andb_true_iff in H as [Hk Hfs]. apply String.eqb_eq in Hk as <-.
  rewrite String.eqb_refl. change (list_to_map ((k, v) :: fs))
    with (<[k := v]> (list_to_map fs : gmap string JsVal)). apply map_eq. intros k'.
  destruct (decide (k = k')) as [<-|Hne].
  - by rewrite lookup_insert_eq, lookup_singleton_eq.
  - rewrite lookup_insert_ne, lookup_singleton_ne by done.
    apply not_elem_of_list_to_map_1. intros Hin.
    apply list_elem_of_fmap in Hin as ([k1 v1] & -> & Hin).
    rewrite forallb_forall in Hfs. apply list_elem_of_In, Hfs in Hin.
    apply String.eqb_eq in Hin. done.
Qed.

(** X18.  An accepted tag makes a document with the single field [name]; the name
    is not empty, starts and ends with a letter, a digit or an underscore, and
    its characters of the ASCII range are letters, digits, underscores and
    white space. *)
Theorem accepted_tag_is_one_clean_name (fields : list (string * JsVal)) :
  isTag (JObj fields) = true ->
  exists name,
    doc_of fields = {[ "name" := JStr name ]} /\
    name <> "" /\
    (forall c rest, name = String c rest -> is_word c = true) /\
    (forall front c, name = front +:+ String c "" -> is_word c = true) /\
    (forall c, has_char c name = true -> code c < 128 ->
               is_word c || is_space c = true).
Proof.
  unfold isTag. rewrite negb_true_iff. intros H.
  pose proof (joi_object_key_passes _ fields "name" _ H (or_introl eq_refl)) as Hname.
  unfold has_error in H. cbn in H. rewrite negb_false_iff, andb_true_iff in H.
  destruct H as [_ Hkeys].
  unfold has_error in Hname. cbn in Hname.
  destruct (get_field fields "name") as [| | | |name| |] eqn:Hget; try discriminate.
  rewrite negb_false_iff, andb_true_iff, negb_true_iff in Hname.
  destruct Hname as [Hne Hre]. exists name.
  split; [|split; [|split; [|split]]].
  - rewrite <- Hget. apply only_key_doc; [|by rewrite Hget].
    rewrite forallb_forall in *. intros kv Hin. apply Hkeys in Hin.
    cbn in Hin. rewrite orb_false_r in Hin. exact Hin.
  - intros ->. discriminate.
  - intros c rest ->. unfold re_words in Hre. cbn [re_words_from] in Hre.
    destruct (is_word c); [done|]. by destruct (is_space c).
  - intros front c ->. by apply re_words_from_last in Hre.
  - intros c Hc _. by apply (re_words_from_chars AtStart name).
Qed.

Lemma collection_with_collection_ne w name other c :
  other <> name -> collection (with_collection w name c) other = collection w other.
Proof. intros Hne. unfold collection, with_collection; simpl. by rewrite lookup_insert_ne. Qed.

Section TagLifeCycle.

Variable storable : JsVal -> bool.
Variable autoId : World -> string -> string.
Variable kind : string.
Variable isRecord : JsVal -> bool.

Lemma getTag_run (id : string) (w : World) :
  well_formed_id id ->
  getTag kind id w
  = (match collection w kind !! id with
     | Some tagData => Json 200 tagData
     | None => Failed 400 tag_not_found
     end, w).
Proof.
  intros Hid. apply isCollectionId_spec in Hid.
  unfold getTag, try_reply. rewrite Hid. cbn [negb].
  unfold and_then, doc_get. by destruct (collection w kind !! id).
Qed.

Lemma deleteTag_run (id : string) (w : World) :
  well_formed_id id ->
  deleteTag kind id w
  = (Sent 200, with_collection w kind (delete id (collection w kind))).
Proof.
  intros Hid. apply isCollectionId_spec in Hid.
  unfold deleteTag, try_reply. by rewrite Hid.
Qed.

(** X19.  What is written is read back.  After a record is created under a
    well-formed generated id, reading that id answers 200 with the body as
    sent; after a successful update of a stored document, reading its id
    answers 200 with the fields of the update over the fields stored
    before. *)
Theorem written_tag_is_read_back
    (id : string) (fields : list (string * JsVal)) (w : World) :
  isRecord (JObj fields) = true ->
  storable (JObj fields) = true ->
  (well_formed_id (autoId w kind) ->
   let added := addNewRecord storable autoId kind isRecord (JObj fields) w in
   added.1 = Json 200 (autoId w kind) /\
   getTag kind (autoId w kind) added.2 = (Json 200 (doc_of fields), added.2)) /\
  (well_formed_id id ->
   forall old, collection w kind !! id = Some old ->
   let updated := updateRecord storable kind isRecord id (JObj fields) w in
   updated.1 = SendStatus 200 /\
   getTag kind id updated.2 = (Json 200 (doc_of fields ∪ old), updated.2)).
Proof.
  intros Hrec Hst. split.
  - intros Hid added. unfold added.
    rewrite (addNewRecord_run storable autoId kind isRecord fields w Hrec Hst).
    cbn [fst snd]. split; [done|].
    rewrite getTag_run by done.
    by rewrite collection_with_collection, lookup_insert_eq.
  - intros Hid old Hold updated. unfold updated.
    rewrite (updateRecord_run storable kind isRecord id fields old w Hid Hrec Hst Hold).
    cbn [fst snd]. split; [done|].
    rewrite getTag_run by done.
    by rewrite collection_with_collection, lookup_insert_eq.
Qed.

(** X20.  Deleting a tag by a well-formed id answers 200 whether or not the tag is
    stored; afterwards reading the id answers 400 with [Tag not found.],
    deleting it again answers 200 and changes nothing, and the other tags, the
    other collections (so the businesses or posts that carry the id among
    their tags) and the bucket are as before. *)
Theorem deleted_tag_is_not_found (id : string) (w : World) :
  well_formed_id id ->
  let deleted := deleteTag kind id w in
  deleted.1 = Sent 200 /\
  getTag kind id deleted.2 = (Failed 400 tag_not_found, deleted.2) /\
  deleteTag kind id deleted.2 = (Sent 200, deleted.2) /\
  (forall id', id' <> id ->
     collection deleted.2 kind !! id' = collection w kind !! id') /\
  (forall other, other <> kind -> collection deleted.2 other = collection w other) /\
  bucket deleted.2 = bucket w /\ bucketLog deleted.2 = bucketLog w.
Proof.
  intros Hid deleted. unfold deleted. rewrite deleteTag_run by done. cbn [fst snd].
  split; [done|]. split; [|split; [|split; [|split]]].
  - rewrite getTag_run by done.
    by rewrite collection_with_collection, lookup_delete_eq.
  - rewrite deleteTag_run by done.
    by rewrite collection_with_collection, with_collection_twice, delete_delete_eq.
  - intros id' Hne. by rewrite collection_with_collection, lookup_delete_ne.
  - intros other Hne. by apply collection_with_collection_ne.
  - done.
Qed.

(** X21.  An update answers 200 or 400; when it does not answer 200 nothing has
    changed; it neither creates nor removes a document (the id is stored
    afterwards iff it was before), and it leaves every other document, every
    other collection and the bucket as they were. *)
Theorem update_touches_one_stored_document (id : string) (body : JsVal) (w : World) :
  let outcome := updateRecord storable kind isRecord id body w in
  (outcome.1 = SendStatus 200 \/ exists e, outcome.1 = StatusJson 400 (ErrorBody e)) /\
  (outcome.1 <> SendStatus 200 -> outcome.2 = w) /\
  (collection outcome.2 kind !! id = None <-> collection w kind !! id = None) /\
  (forall id', id' <> id ->
     collection outcome.2 kind !! id' = collection w kind !! id') /\
  (forall other, other <> kind -> collection outcome.2 other = collection w other) /\
  bucket outcome.2 = bucket w /\ bucketLog outcome.2 = bucketLog w.
Proof.
  intros outcome. unfold outcome, updateRecord, try_catch.
  destruct (isCollectionId (JStr id)); cbn [negb];
    [|split; [right; by eexists | done]].
  destruct (isRecord body); cbn [negb]; [|split; [right; by eexists | done]].
  unfold and_then, doc_update.
  destruct body as [| | | | | |fields]; try (split; [right; by eexists | done]).
  destruct (storable _); [|split; [right; by eexists | done]].
  destruct (collection w kind !! id) as [old|] eqn:Hold;
    [|split; [right; by eexists|]; cbn [fst snd]; rewrite ?Hold; done].
  unfold resolve. cbn [fst snd]. split; [by left|]. split; [done|].
  rewrite collection_with_collection. split; [|split; [|split]].
  - rewrite lookup_insert_eq. split; discriminate.
  - intros id' Hne. by rewrite lookup_insert_ne.
  - intros other Hne. by apply collection_with_collection_ne.
  - done.
Qed.

End TagLifeCycle.

(** ** Posts by tag *)

Lemma Post_isSearchParameters_strings (tags : string) :
  (Post.isSearchParameters (JObj [("tags", JStr tags)])).1 = Return (tags_accepted tags).
Proof.
  unfold Post.isSearchParameters, tags_accepted, Post.searchSchema.
  cbn [read_prop prop get_field String.eqb Ascii.eqb Bool.eqb truthy].
  destruct (String.eqb_spec tags "") as [->|Hne]; cbn [negb fst orb].
  - reflexivity.
  - cbn [call_split assign_prop set_field String.eqb Ascii.eqb Bool.eqb fst].
    f_equal. unfold has_error at 1. cbn -[has_error split].
    rewrite tags_items_pass.
    cbn. rewrite !andb_true_r, !negb_involutive. reflexivity.
Qed.

(** X22.  Search of posts by tags, for a criterion that is a string.  The stores
    do not change.  A criterion that is not empty and has an empty item is
    answered 400 with the invalid-query message; any other is answered 200
    with exactly the posts that have one of the comma-separated items among
    their tags.  The empty criterion is among the accepted ones and lifts no
    filter: its only item is the empty string. *)
Theorem posts_by_tag_share_a_listed_tag (query : JsVal) (tags : string) (w : World) :
  prop query "tags" = JStr tags ->
  let outcome := Post.getPostsByTag query w in
  outcome.2 = w /\
  (tags_accepted tags = false -> outcome.1 = Failed 400 invalid_query) /\
  (tags_accepted tags = true ->
   exists posts,
     outcome.1 = Json 200 posts /\
     forall id d, (id, d) ∈ posts <->
                  collection w "post" !! id = Some d /\
                  shares_a_tag d (split ","%char tags)).
Proof.
  intros Htags outcome. unfold outcome, Post.getPostsByTag, try_reply, and_then, lift.
  rewrite Htags, Post_isSearchParameters_strings.
  destruct (tags_accepted tags); cbn [negb call_split]; [|done].
  unfold query_get, resolve. cbn [fst snd]. split; [done|]. split; [done|].
  intros _. eexists. split; [reflexivity|].
  intros id d. rewrite elem_of_snapshot. cbn [forallb]. rewrite andb_true_r.
  by rewrite passes_tags.
Qed.

(** ** The invariant of the business collection *)

Section NamedBusinesses.

Variable isEmail : string -> bool.
Variable isUri : string -> bool.
Variable storable : JsVal -> bool.
Variable deleteFails : string -> bool.
Variable autoId : World -> string -> string.

(** X23.  If every stored business has a name that is a string, this is still so
    after a creation, an update or a delete of a business, whatever the
    request and whatever the answer: the operations keep the condition under
    which the search fails on no candidate. *)
Theorem businesses_stay_named (id : string) (body : JsVal) (w : World) :
  all_named (map_to_list (collection w "business")) ->
  all_named (map_to_list
     (collection (addNewBusiness isEmail isUri storable autoId body w).2 "business")) /\
  all_named (map_to_list
     (collection (updateBusiness isEmail isUri storable id body w).2 "business")) /\
  all_named (map_to_list
     (collection (deleteBusinessAndFiles deleteFails id w).2 "business")).
Proof.
  intros Hnamed. split; [|split].
  - unfold addNewBusiness, addNewRecord, try_reply.
    destruct (isBusiness isEmail isUri body) eqn:Hrec; [|done]. cbn [negb].
    unfold and_then, collection_add. destruct body as [| | | | | |fields]; try done.
    destruct (storable _); [|done].
    unfold resolve. cbn [fst snd]. rewrite collection_with_collection.
    unfold all_named in *. rewrite Forall_forall in *.
    intros [id' d] Hin. apply elem_of_map_to_list in Hin. cbn [snd].
    apply lookup_insert_Some in Hin as [[_ <-]|[_ Hin]].
    + apply isBusiness_name in Hrec as [name Hname]. exists name.
      by apply get_field_doc_of.
    + apply (Hnamed (id', d)). by apply elem_of_map_to_list.
  - by apply updateBusiness_keeps_names.
  - unfold deleteBusinessAndFiles.
    destruct (isCollectionId (JStr id)) eqn:Hid.
    + apply isCollectionId_spec in Hid.
      rewrite (deleteRecordAndFiles_run deleteFails "business" id w Hid).
      cbn [snd]. rewrite collection_insert.
      unfold all_named in *. rewrite Forall_forall in *.
      intros [id' d] Hin. apply elem_of_map_to_list in Hin.
      apply lookup_delete_Some in Hin as [_ Hin].
      apply (Hnamed (id', d)). by apply elem_of_map_to_list.
    + unfold deleteRecordAndFiles, try_catch. by rewrite Hid.
Qed.

End NamedBusinesses.

(** ** Conversations *)

Lemma isUserId_spec (id : string) :
  isUserId (JStr id) = true <-> well_formed_user_id id.
Proof.
  unfold isUserId, well_formed_user_id, has_error; simpl.
  rewrite negb_involutive, !andb_true_iff, Nat.eqb_eq, negb_true_iff.
  split; [tauto|]. intros [Hlen Hall]. repeat split; try done.
  all: by destruct id.
Qed.

Lemma passes_equal_string (d : gmap string JsVal) (field c : string) :
  passes d (EqualTo field (JStr c)) = true <-> d !! field = Some (JStr c).
Proof.
  simpl. destruct (d !! field) as [x|]; [|split; discriminate].
  rewrite strict_eq_string. split; [by intros -> | by intros [= ->]].
Qed.

Lemma passes_members (a b : string) (d : gmap string JsVal) :
  forallb (passes d) [EqualTo "memberOneId" (JStr a); EqualTo "memberTwoId" (JStr b)] = true
  <-> has_members a b d.
Proof.
  cbn [forallb]. rewrite andb_true_r, andb_true_iff, !passes_equal_string. done.
Qed.

Lemma getConversationByMembers_run (a b : string) (w : World) :
  well_formed_user_id a -> well_formed_user_id b ->
  getConversationByMembers (JObj (members a b)) w
  = (match head (map fst (snapshot w "chat-conversation"
                            [EqualTo "memberOneId" (JStr a);
                             EqualTo "memberTwoId" (JStr b)])) with
     | Some first => if String.eqb first "" then Sent 404 else Json 200 first
     | None => Sent 404
     end, w).
Proof.
  intros Ha Hb. apply isUserId_spec in Ha, Hb.
  unfold getConversationByMembers, try_reply, and_then, lift, members.
  cbn [read_prop prop get_field String.eqb Ascii.eqb Bool.eqb].
  rewrite Ha, Hb. cbn [negb orb]. unfold query_get.
  destruct (head _) as [first|]; [|done].
  cbn [truthy]. rewrite negb_involutive. by destruct (String.eqb first "").
Qed.

Lemma head_ids_Some {A} (l : list (string * A)) (first : string) :
  head (map fst l) = Some first -> exists d, (first, d) ∈ l.
Proof.
  destruct l as [|[id d] l]; [done|]. intros [= <-]. exists d. apply elem_of_cons. by left.
Qed.

Lemma head_ids_None {A} (l : list (string * A)) :
  head (map fst l) = None -> l = [].
Proof. by destruct l. Qed.

Section Conversations.

Variable storable : JsVal -> bool.
Variable autoId : World -> string -> string.

(** X24.  Lookup of a conversation by two well-formed user ids, in a store where
    no document has the empty id.  Nothing changes, and the answer is either
    200 with the id of a stored conversation whose first and second members
    are the two ids in the order given, or 404, when no such conversation is
    stored. *)
Theorem conversation_lookup_follows_the_order_of_members (a b : string) (w : World) :
  well_formed_user_id a -> well_formed_user_id b ->
  collection w "chat-conversation" !! "" = None ->
  let outcome := getConversationByMembers (JObj (members a b)) w in
  outcome.2 = w /\
  ((exists id d, outcome.1 = Json 200 id /\
                 collection w "chat-conversation" !! id = Some d /\ has_members a b d)
   \/ (outcome.1 = Sent 404 /\
       forall id d, collection w "chat-conversation" !! id = Some d -> ~ has_members a b d)).
Proof.
  intros Ha Hb Hids outcome. unfold outcome.
  rewrite getConversationByMembers_run by done. cbn [fst snd]. split; [done|].
  destruct (head _) as [first|] eqn:Hhead.
  - left. apply head_ids_Some in Hhead as [d Hin].
    apply elem_of_snapshot in Hin as [Hd Hpass]. apply passes_members in Hpass.
    destruct (String.eqb_spec first "") as [->|_]; [congruence|].
    by exists first, d.
  - right. split; [done|]. intros id d Hd Hm. apply head_ids_None in Hhead.
    assert ((id, d) ∈ snapshot w "chat-conversation"
              [EqualTo "memberOneId" (JStr a); EqualTo "memberTwoId" (JStr b)]) as Hin.
    { apply elem_of_snapshot. split; [done|]. by apply passes_members. }
    rewrite Hhead in Hin. by apply elem_of_nil in Hin.
Qed.

Lemma addNewConversation_run (a b : string) (w : World) :
  well_formed_user_id a -> well_formed_user_id b ->
  storable (JObj (members a b)) = true ->
  addNewConversation storable autoId (JObj (members a b)) w
  = (Json 200 (autoId w "chat-conversation"),
     with_collection w "chat-conversation"
       (<[autoId w "chat-conversation" := doc_of (members a b)]>
          (collection w "chat-conversation"))).
Proof.
  intros Ha Hb Hst. apply isUserId_spec in Ha, Hb.
  unfold addNewConversation, try_reply, and_then, lift.
  unfold members in *.
  cbn [read_prop prop get_field String.eqb Ascii.eqb Bool.eqb].
  rewrite Ha, Hb. cbn [negb orb]. unfold collection_add. by rewrite Hst.
Qed.

Lemma doc_of_members (a b : string) : has_members a b (doc_of (members a b)).
Proof. split; by apply get_field_doc_of. Qed.

(** X25.  A conversation created for two different users, where no conversation
    of the second with the first is stored, is found by the lookup that names
    the two users in the order of the creation, and the lookup that names them
    in the other order answers 404. *)
Theorem new_conversation_is_found_one_way_round (a b : string) (w : World) :
  well_formed_user_id a -> well_formed_user_id b -> a <> b ->
  storable (JObj (members a b)) = true ->
  autoId w "chat-conversation" <> "" ->
  collection w "chat-conversation" !! "" = None ->
  (forall id d, collection w "chat-conversation" !! id = Some d -> ~ has_members b a d) ->
  let added := addNewConversation storable autoId (JObj (members a b)) w in
  added.1 = Json 200 (autoId w "chat-conversation") /\
  (exists id d,
     getConversationByMembers (JObj (members a b)) added.2 = (Json 200 id, added.2) /\
     collection added.2 "chat-conversation" !! id = Some d /\ has_members a b d) /\
  getConversationByMembers (JObj (members b a)) added.2 = (Sent 404, added.2).
Proof.
  intros Ha Hb Hab Hst Hnew Hids Hnone added. unfold added.
  rewrite addNewConversation_run by done. cbn [fst snd]. split; [done|].
  rewrite !getConversationByMembers_run by done. split.
  - destruct (head _) as [first|] eqn:Hhead.
    + apply head_ids_Some in Hhead as [d Hin].
      apply elem_of_snapshot in Hin as [Hd Hpass]. apply passes_members in Hpass.
      exists first, d. split; [|done].
      destruct (String.eqb_spec first "") as [->|_]; [|done].
      rewrite collection_with_collection in Hd.
      apply lookup_insert_Some in Hd as [[Heq _]|[_ Hd]]; congruence.
    + apply head_ids_None in Hhead.
      assert ((autoId w "chat-conversation", doc_of (members a b))
                ∈ snapshot
                    (with_collection w "chat-conversation"
                       (<[autoId w "chat-conversation" := doc_of (members a b)]>
                          (collection w "chat-conversation")))
                    "chat-conversation"
                    [EqualTo "memberOneId" (JStr a); EqualTo "memberTwoId" (JStr b)]) as Hin.
      { apply elem_of_snapshot. rewrite collection_with_collection, lookup_insert_eq.
        split; [done|]. apply passes_members, doc_of_members. }
      rewrite Hhead in Hin. by apply elem_of_nil in Hin.
  - destruct (head _) as [first|] eqn:Hhead; [|done].
    apply head_ids_Some in Hhead as [d Hin].
    apply elem_of_snapshot in Hin as [Hd Hpass]. apply passes_members in Hpass.
    rewrite collection_with_collection in Hd.
    apply lookup_insert_Some in Hd as [[_ <-]|[_ Hd]].
    + destruct Hpass as [Hone _], (doc_of_members a b) as [Hone' _]. congruence.
    + by apply Hnone in Hd.
Qed.

End Conversations.

(** ** Messages *)

Lemma append_cancel_r (a b s : string) : a +:+ s = b +:+ s -> a = b.
Proof.
  intros H. assert (a +:+ s = b +:+ s) as H' by done.
  apply (f_equal String.length) in H'. rewrite !length_append in H'.
  apply (same_length_prefix a b s s H). lia.
Qed.

Lemma append_cancel_l (p a b : string) : p +:+ a = p +:+ b -> a = b.
Proof. induction p as [|c p IH]; [done|]. intros [= H]. by apply IH. Qed.

Lemma messages_of_inj (c c' : string) : messages_of c = messages_of c' -> c = c'.
Proof.
  unfold messages_of. intros H. apply append_cancel_l in H. by apply append_cancel_r in H.
Qed.

Lemma messages_of_not_conversations (c : string) : messages_of c <> "chat-conversation".
Proof. unfold messages_of. intros H. vm_compute in H. discriminate. Qed.

Lemma isMessage_fields (fields : list (string * JsVal)) :
  isMessage (JObj fields) = true ->
  exists conversation sender text,
    get_field fields "conversationId" = JStr conversation /\
    get_field fields "senderId" = JStr sender /\
    get_field fields "message" = JStr text /\
    well_formed_id conversation /\ well_formed_user_id sender /\ text <> "".
Proof.
  unfold isMessage. rewrite negb_true_iff. intros H.
  pose proof (joi_object_key_passes _ fields "conversationId" _ H (or_introl eq_refl)) as Hc.
  pose proof (joi_object_key_passes _ fields "senderId" _ H
                (or_intror (or_introl eq_refl))) as Hs.
  pose proof (joi_object_key_passes _ fields "message" _ H
                (or_intror (or_intror (or_introl eq_refl)))) as Hm.
  destruct (get_field fields "conversationId") as [| | | |c| |]; try discriminate.
  destruct (get_field fields "senderId") as [| | | |s| |]; try discriminate.
  destruct (get_field fields "message") as [| | | |m| |]; try discriminate.
  exists c, s, m. split; [done|]. split; [done|]. split; [done|].
  split; [|split].
  - apply isCollectionId_spec. unfold isCollectionId. by rewrite Hc.
  - apply isUserId_spec. unfold isUserId. by rewrite Hs.
  - intros ->. discriminate.
Qed.

Section Messages.

Variable storable : JsVal -> bool.
Variable autoId : World -> string -> string.

Lemma getConversationMessages_run (conversation : string) (w : World) :
  well_formed_id conversation ->
  getConversationMessages conversation w
  = (match snapshot w (messages_of conversation) [] with
     | [] => Sent 404
     | messages => Json 200 messages
     end, w).
Proof.
  intros Hid. apply isCollectionId_spec in Hid.
  unfold getConversationMessages, try_reply. rewrite Hid. cbn [negb].
  unfold and_then, query_get. by destruct (snapshot _ _ _).
Qed.

(** X26.  A message that passes validation and that the store takes is answered
    200 with the generated id.  The listing of its conversation then answers
    200 with the new message (sender, text, and the seconds of the clock as
    timestamp) and the messages stored before under other ids.  The messages
    of the other conversations and the collection of conversations are as
    before. *)
Theorem sent_message_is_listed_in_its_conversation
    (seconds : Z) (fields : list (string * JsVal)) (w : World) :
  isMessage (JObj fields) = true ->
  let stored := [("senderId", get_field fields "senderId");
                 ("message", get_field fields "message");
                 ("timestamp", JNum (inject_Z seconds))] in
  storable (JObj stored) = true ->
  let sent := sendMessage storable autoId seconds (JObj fields) w in
  exists conversation messages,
    get_field fields "conversationId" = JStr conversation /\
    sent.1 = Json 200 (autoId w (messages_of conversation)) /\
    getConversationMessages conversation sent.2 = (Json 200 messages, sent.2) /\
    (forall id d, (id, d) ∈ messages <->
       (id = autoId w (messages_of conversation) /\ d = doc_of stored) \/
       (id <> autoId w (messages_of conversation) /\
        collection w (messages_of conversation) !! id = Some d)) /\
    (forall other, other <> conversation ->
       collection sent.2 (messages_of other) = collection w (messages_of other)) /\
    collection sent.2 "chat-conversation" = collection w "chat-conversation".
Proof.
  intros Hmsg stored Hst sent.
  destruct (isMessage_fields fields Hmsg) as (c & s & m & Hc & Hs & Hm & Hcid & _ & _).
  assert (sent = (Json 200 (autoId w (messages_of c)),
                  with_collection w (messages_of c)
                    (<[autoId w (messages_of c) := doc_of stored]>
                       (collection w (messages_of c))))) as ->.
  { unfold sent, sendMessage, try_reply. rewrite Hmsg. cbn [negb].
    unfold and_then, lift. cbn [read_prop prop]. rewrite Hc. cbn [doc_id].
    unfold collection_add. fold stored. by rewrite Hst. }
  cbn [fst snd]. set (w' := with_collection _ _ _).
  exists c, (snapshot w' (messages_of c) []). split; [done|]. split; [done|].
  rewrite getConversationMessages_run by done.
  assert (forall id d, (id, d) ∈ snapshot w' (messages_of c) [] <->
            (id = autoId w (messages_of c) /\ d = doc_of stored) \/
            (id <> autoId w (messages_of c) /\
             collection w (messages_of c) !! id = Some d)) as Hin.
  { intros id d. rewrite elem_of_snapshot. unfold w'.
    rewrite collection_with_collection, lookup_insert_Some. cbn [forallb].
    split.
    - intros [[[<- <-]|[? ?]] _]; [by left | right; by split].
    - intros [[-> ->]|[? ?]]; (split; [|done]); [by left | right; by split]. }
  destruct (snapshot w' (messages_of c) []) as [|e l] eqn:Hsnap.
  - exfalso. assert ((autoId w (messages_of c), doc_of stored) ∈ @nil (string * gmap string JsVal))
      as Hnil by (apply Hin; by left).
    by apply elem_of_nil in Hnil.
  - split; [reflexivity|]. split; [exact Hin|]. split.
    + intros other Hne. apply collection_with_collection_ne.
      intros Heq. by apply messages_of_inj in Heq.
    + apply collection_with_collection_ne. intros Heq. symmetry in Heq.
      by apply messages_of_not_conversations in Heq.
Qed.

(** X27.  For a well-formed conversation id, the listing of the messages answers
    404 exactly when no message is stored for the conversation. *)
Theorem conversation_without_messages_is_not_found (conversation : string) (w : World) :
  well_formed_id conversation ->
  (collection w (messages_of conversation) = ∅ <->
   getConversationMessages conversation w = (Sent 404, w)).
Proof.
  intros Hid. rewrite getConversationMessages_run by done.
  unfold snapshot. split.
  - intros ->. by rewrite map_to_list_empty.
  - intros H. apply map_to_list_empty_iff.
    destruct (map_to_list (collection w (messages_of conversation))) as [|e l]; [done|].
    rewrite filter_cons_True in H by done. discriminate.
Qed.

End Messages.

(** ** The photo of a user *)

Lemma insert_object_again (name : string) (files : list string) :
  insert_object name (insert_object name files) = insert_object name files.
Proof.
  induction files as [|f files IH]; cbn [insert_object].
  - by rewrite String.eqb_refl.
  - destruct (String.eqb name f) eqn:Heq; cbn [insert_object].
    + by rewrite Heq.
    + destruct (String.ltb name f) eqn:Hlt; cbn [insert_object].
      * by rewrite String.eqb_refl.
      * by rewrite Heq, Hlt, IH.
Qed.

Section UserPhotos.

Variable readable : string -> bool.
Variable signedUrl : string -> string.

Lemma uploadUserPhoto_run (userId localFilePath : string) (w : World) :
  well_formed_user_id userId ->
  isFilePath localFilePath = true ->
  readable localFilePath = true ->
  let remote := ("user/" +:+ userId) +:+ "/" +:+ path_basename localFilePath in
  uploadUserPhoto readable signedUrl userId localFilePath w
  = (StatusJson 200 (FileURLBody (signedUrl remote)),
     mkWorld (firestore w) (insert_object remote (bucket w))
             (bucketLog w ++ [Upload localFilePath remote])).
Proof.
  intros Hid Hpath Hread remote. apply isUserId_spec in Hid.
  unfold uploadUserPhoto, try_catch. rewrite Hid, Hpath. cbn [negb].
  unfold and_then, uploadFileToFolder, and_then, bucket_upload.
  fold remote. by rewrite Hread.
Qed.

(** X28.  The photo of a user is stored as [user/<id>/<file name>], with the file
    name of the local path as it is: the upload answers 200 with the signed
    URL of that object, the bucket holds it and what it held before, and no
    document changes.  A second upload from a path with the same file name
    answers the same URL and leaves the list of objects as it was: the object
    is replaced. *)
Theorem user_photo_is_stored_under_its_file_name
    (userId localFilePath again : string) (w : World) :
  well_formed_user_id userId ->
  isFilePath localFilePath = true -> readable localFilePath = true ->
  isFilePath again = true -> readable again = true ->
  path_basename again = path_basename localFilePath ->
  let remote := ("user/" +:+ userId) +:+ "/" +:+ path_basename localFilePath in
  let first := uploadUserPhoto readable signedUrl userId localFilePath w in
  let second := uploadUserPhoto readable signedUrl userId again first.2 in
  first.1 = StatusJson 200 (FileURLBody (signedUrl remote)) /\
  (forall n, n ∈ bucket first.2 <-> n = remote \/ n ∈ bucket w) /\
  firestore first.2 = firestore w /\
  second.1 = first.1 /\
  bucket second.2 = bucket first.2.
Proof.
  intros Hid Hp Hr Hp' Hr' Hsame remote first second. unfold second, first.
  rewrite (uploadUserPhoto_run userId localFilePath w) by done.
  cbn [fst snd]. rewrite (uploadUserPhoto_run userId again) by done.
  cbn [fst snd bucket]. rewrite Hsame. fold remote.
  split; [done|]. split; [intros n; apply elem_of_insert_object|].
  split; [done|]. split; [done|]. apply insert_object_again.
Qed.

End UserPhotos.

(** ** Reading *)

(** X29.  The reading operations (lookup of the featured image, search of
    businesses, search of posts, listing, listing of the featured, reading a
    tag, lookup of a conversation, listing of messages) leave the documents
    and the bucket as they are, whatever the request and whatever they
    answer. *)
Theorem reading_changes_nothing
    (signedUrl : string -> string) (kind id : string) (query : JsVal) (w : World) :
  (getRecordFeatImage signedUrl kind id w).2 = w /\
  (getMatchingBusinesses query w).2 = w /\
  (Post.getPostsByTag query w).2 = w /\
  (getAllRecords kind w).2 = w /\
  (getFeatRecords kind w).2 = w /\
  (getTag kind id w).2 = w /\
  (getConversationByMembers query w).2 = w /\
  (getConversationMessages id w).2 = w.
Proof.
  repeat split.
  - unfold getRecordFeatImage, try_catch. destruct (isCollectionId _); [|done]. cbn [negb].
    unfold and_then, getFileURLWithSuffix, and_then, getFiles.
    by destruct (find _ _).
  - unfold getMatchingBusinesses, try_catch, and_then, lift.
    destruct (isSearchParameters _).1 as [[|]|]; cbn [negb]; try done.
    destruct (businessQuery _ _); [|done]. unfold query_get.
    by destruct (forEach_push _ _ _).
  - unfold Post.getPostsByTag, try_reply, and_then, lift.
    destruct (Post.isSearchParameters _).1 as [[|]|]; cbn [negb]; try done.
    by destruct (call_split _ _).
  - unfold getTag, try_reply. destruct (isCollectionId _); [|done]. cbn [negb].
    unfold and_then, doc_get. by destruct (collection w kind !! id).
  - unfold getConversationByMembers, try_reply, and_then, lift.
    destruct (read_prop query "memberOneId"); [|done].
    destruct (read_prop query "memberTwoId"); [|done].
    destruct (_ || _); [done|]. unfold query_get.
    destruct (head _); [|done]. by destruct (negb _).
  - unfold getConversationMessages, try_reply. destruct (isCollectionId _); [|done].
    cbn [negb]. unfold and_then, query_get. by destruct (_ =? _).
Qed.

(** ** Accepted file paths *)

Lemma re_portions_started (x : string) :
  re_portions true x = true -> re_portions false x = true.
Proof. destruct x as [|c x]; [done|]. cbn [re_portions]. by destruct (is_separator c). Qed.

Lemma re_rooted_portions_portions (x : string) :
  re_rooted_portions x = true -> re_portions false x = true.
Proof.
  destruct x as [|c x]; [done|]. cbn [re_rooted_portions re_portions].
  by destruct (is_separator c).
Qed.

Lemma is_letter_not_separator (c : ascii) : is_letter c = true -> is_separator c = false.
Proof. destruct c as [[] [] [] [] [] [] [] []]; by vm_compute. Qed.

Lemma isFilePath_portions (p : string) :
  isFilePath p = true -> p <> "" /\ re_portions false p = true.
Proof.
  unfold isFilePath, re_file_path. intros H.
  assert (re_rooted_portions p = true -> p <> "" /\ re_portions false p = true) as Hroot.
  { intros Hr. split; [by destruct p | by apply re_rooted_portions_portions]. }
  destruct p as [|c [|c' x]]; [done | by apply Hroot |].
  destruct (Ascii.eqb_spec c' ":") as [->|Hne].
  - destruct (is_letter c) eqn:Hc; [|by apply Hroot]. split; [done|].
    cbn [re_portions]. rewrite (is_letter_not_separator c Hc).
    change (is_separator ":") with false. cbv iota.
    by apply re_rooted_portions_portions.
  - apply Hroot. revert H.
    destruct c' as [[] [] [] [] [] [] [] []]; try done.
Qed.

Lemma not_separator_not_slash (c : ascii) : is_separator c = false -> Ascii.eqb c slash = false.
Proof. unfold is_separator, slash. by intros [? _]%orb_false_iff. Qed.

Lemma re_portions_strip (fresh : bool) (x : string) :
  re_portions fresh x = true -> strip_trailing_slashes x = x.
Proof.
  revert fresh. induction x as [|c x IH]; intros fresh; [done|].
  cbn [re_portions strip_trailing_slashes]. intros H.
  assert (strip_trailing_slashes x = x) as ->.
  { destruct (is_separator c); [|by apply (IH false)].
    apply andb_true_iff in H as [_ H]. by apply (IH true). }
  destruct x as [|c' x]; [|done].
  destruct (is_separator c) eqn:Hc.
  - by rewrite andb_false_r in H.
  - by rewrite (not_separator_not_slash c Hc).
Qed.

Lemma re_portions_last (fresh : bool) (x : string) :
  re_portions fresh x = true -> x <> "" -> List.last (split slash x) "" <> "".
Proof.
  revert fresh. induction x as [|c x IH]; intros fresh H Hx; [done|].
  cbn [re_portions] in H. cbn [split].
  pose proof (split_nonempty slash x) as Hsplit.
  destruct x as [|c' x].
  - destruct (is_separator c) eqn:Hc; [by rewrite andb_false_r in H|].
    by rewrite (not_separator_not_slash c Hc).
  - assert (List.last (split slash (String c' x)) "" <> "") as Hlast.
    { destruct (is_separator c); [|by apply (IH false)].
      apply andb_true_iff in H as [_ H]. by apply (IH true). }
    destruct (Ascii.eqb c slash).
    + destruct (split slash (String c' x)) as [|part parts]; [done|]. exact Hlast.
    + destruct (split slash (String c' x)) as [|part [|part' parts]]; [done|done|].
      exact Hlast.
Qed.

Lemma split_single (sep : ascii) (s part : string) : split sep s = [part] -> s = part.
Proof.
  revert part. induction s as [|c s IH]; intros part; cbn [split]; [by intros [= <-]|].
  pose proof (split_nonempty sep s) as Hne.
  destruct (Ascii.eqb c sep); [intros [= _ H]; done|].
  destruct (split sep s) as [|part' parts]; [done|].
  intros [= <- ->]. by rewrite (IH part').
Qed.

Lemma last_split_suffix (sep : ascii) (s : string) :
  exists dir, s = dir +:+ List.last (split sep s) "".
Proof.
  induction s as [|c s [dir IH]]; [by exists ""|]. cbn [split].
  pose proof (split_nonempty sep s) as Hne.
  destruct (Ascii.eqb c sep).
  - exists (String c dir).
    change (String c dir +:+ ?x) with (String c (dir +:+ x)).
    destruct (split sep s) as [|part parts] eqn:E; [done|]. f_equal. exact IH.
  - destruct (split sep s) as [|part [|part' parts]] eqn:E; [done| |].
    + exists "". apply split_single in E as ->. done.
    + exists (String c dir).
      change (String c dir +:+ ?x) with (String c (dir +:+ x)). f_equal. exact IH.
Qed.

(** X30.  An accepted file path ends with a file name: its [path.basename] is not
    empty, has no slash, and the path is a directory prefix followed by it.
    So the object of an upload is never the folder itself. *)
Theorem accepted_path_names_a_file (localFilePath : string) :
  isFilePath localFilePath = true ->
  path_basename localFilePath <> "" /\
  has_char slash (path_basename localFilePath) = false /\
  exists directory, localFilePath = directory +:+ path_basename localFilePath.
Proof.
  intros H. apply isFilePath_portions in H as [Hne H].
  split; [|split].
  - unfold path_basename. rewrite (re_portions_strip _ _ H).
    by apply (re_portions_last false).
  - apply path_basename_no_slash.
  - unfold path_basename. rewrite (re_portions_strip _ _ H).
    apply last_split_suffix.
Qed.

(** ** Instances of the further properties *)

Lemma tagA_well_formed : well_formed_id tagA.
Proof. split; reflexivity. Defined.

Lemma newId_well_formed : well_formed_id newId.
Proof. split; reflexivity. Defined.

Lemma sampleUser_well_formed : well_formed_user_id sampleUser.
Proof. split; reflexivity. Defined.

Lemma otherUser_well_formed : well_formed_user_id otherUser.
Proof. split; reflexivity. Defined.

Lemma sampleWorld_all_named : all_named (map_to_list (collection sampleWorld "business")).
Proof.
  apply Forall_forall. intros [id d] Hin. apply elem_of_map_to_list in Hin.
  by apply (sampleWorld_named id).
Qed.

Lemma sampleWorld_folder :
  folder_files sampleWorld "business/abcdefghij0123456789/"
  = [ "business/abcdefghij0123456789/a-feat.png";
      "business/abcdefghij0123456789/b.png" ].
Proof. reflexivity. Qed.

Lemma ill_formed_id_is_rejected_first_witness :
  ~ well_formed_id "short" /\
  updateRecord anyValue "business" (isBusiness anyEmail anyUri) "short" (JObj barFields)
               sampleWorld
  = (StatusJson 400 (ErrorBody invalid_parameter), sampleWorld) /\
  getTag "business" "short" sampleWorld = (Failed 400 invalid_parameter, sampleWorld).
Proof.
  assert (~ well_formed_id "short") as Hid by (intros [Hlen _]; discriminate Hlen).
  split; [exact Hid|].
  pose proof (ill_formed_id_is_rejected_first anyValue noFailure anyFile url_of "business"
                (isBusiness anyEmail anyUri) "short" "/tmp/photo.png" (JObj barFields)
                sampleWorld Hid) as H.
  split; [apply H | apply H].
Defined.

Lemma deleted_record_cannot_be_updated_witness :
  let outcome := deleteRecordAndFiles refusesB "business" sampleId sampleWorld in
  outcome.1 = StatusJson 400 (ErrorBody (StoreError "delete")) /\
  collection outcome.2 "business" !! sampleId = None /\
  exists e, updateRecord anyValue "business" (isBusiness anyEmail anyUri) sampleId
                         (JObj barFields) outcome.2
            = (StatusJson 400 (ErrorBody e), outcome.2).
Proof.
  intros outcome.
  assert (outcome.1 = StatusJson 400 (ErrorBody (StoreError "delete"))) as Hrefused.
  { unfold outcome.
    rewrite (deleteRecordAndFiles_run refusesB "business" sampleId sampleWorld
               sampleId_well_formed).
    reflexivity. }
  split; [exact Hrefused|].
  apply (deleted_record_cannot_be_updated anyValue refusesB "business"
           (isBusiness anyEmail anyUri) sampleId (JObj barFields) sampleWorld
           sampleId_well_formed).
  right. exact Hrefused.
Defined.

Lemma refused_deletion_leaves_orphans_witness :
  let folder := "business/abcdefghij0123456789/" in
  let outcome := deleteRecordAndFiles refusesB "business" sampleId sampleWorld in
  outcome.1 = StatusJson 400 (ErrorBody (StoreError "delete")) /\
  collection outcome.2 "business" !! sampleId = None /\
  (forall m, m ∈ folder_files sampleWorld folder ->
             (m ∈ bucket outcome.2 <-> refusesB m = true)).
Proof.
  apply (refused_deletion_leaves_orphans refusesB "business" sampleId sampleWorld
           sampleId_well_formed).
  exists "business/abcdefghij0123456789/b.png". split; [|reflexivity].
  change (_ +:+ _) with "business/abcdefghij0123456789/".
  rewrite sampleWorld_folder. right. left.
Defined.

Lemma delete_touches_only_the_folder_witness :
  let folder := "business/abcdefghij0123456789/" in
  let outcome := deleteRecordAndFiles noFailure "business" sampleId sampleWorld in
  (forall n, startsWith n folder = false ->
             (n ∈ bucket outcome.2 <-> n ∈ bucket sampleWorld) /\
             FileDelete n ∉ drop (length (bucketLog sampleWorld)) (bucketLog outcome.2)) /\
  (forall id' n, well_formed_id id' -> id' <> sampleId ->
                 startsWith n ("business" +:+ "/" +:+ id' +:+ "/") = true ->
                 startsWith n folder = false).
Proof.
  exact (delete_touches_only_the_folder noFailure "business" sampleId sampleWorld
           sampleId_well_formed).
Defined.

Lemma feat_image_deletion_removes_first_match_only_witness :
  let outcome := deleteRecordFeatImage noFailure "business" sampleId sampleWorld in
  firestore outcome.2 = firestore sampleWorld /\
  bucketLog outcome.2 = [FileDelete "business/abcdefghij0123456789/a-feat.png"] /\
  outcome.1 = SendStatus 200 /\
  getRecordFeatImage url_of "business" sampleId outcome.2
  = (StatusJson 500 (ErrorBody not_found), outcome.2).
Proof.
  intros outcome.
  destruct (proj2 (feat_image_deletion_removes_first_match_only noFailure url_of
                     "business" sampleId sampleWorld sampleId_well_formed)
              [] "business/abcdefghij0123456789/a-feat.png"
              ["business/abcdefghij0123456789/b.png"] eq_refl eq_refl)
    as (Hdocs & Hlog & _ & Hok).
  { intros name Hin. by apply elem_of_nil in Hin. }
  destruct (Hok eq_refl) as (Hanswer & _ & Hlookup).
  refine (conj Hdocs (conj Hlog (conj Hanswer (Hlookup _)))).
  intros name Hin Hne. apply list_elem_of_singleton in Hin as ->. reflexivity.
Defined.

Lemma uploaded_feat_image_is_found_witness :
  let remote := "business/abcdefghij0123456789/photo-feat.png" in
  let outcome := uploadRecordFeatImage anyFile url_of "business" sampleId "/tmp/photo.png"
                                       emptyWorld in
  outcome.1 = StatusJson 200 (FileURLBody (url_of remote)) /\
  getRecordFeatImage url_of "business" sampleId outcome.2
  = (StatusJson 200 (FileURLBody (url_of remote)), outcome.2).
Proof.
  destruct (uploaded_feat_image_is_found anyFile url_of "business" sampleId "/tmp/photo.png"
              emptyWorld sampleId_well_formed eq_refl eq_refl)
    as (Hanswer & _ & _ & _ & Hlookup).
  split; [exact Hanswer|]. apply Hlookup.
  intros n Hin. by apply elem_of_nil in Hin.
Defined.

Lemma failed_upload_changes_nothing_witness :
  exists e,
    uploadRecordFeatImage anyFile url_of "business" sampleId "photo.png" sampleWorld
    = (StatusJson 500 (ErrorBody e), sampleWorld).
Proof.
  apply (failed_upload_changes_nothing anyFile url_of "business" sampleId "photo.png"
           sampleWorld sampleId_well_formed).
  left. reflexivity.
Defined.

Lemma tag_criterion_with_empty_item_is_rejected_witness :
  getMatchingBusinesses
    (JObj [("name", JStr ""); ("city", JStr ""); ("tags", JStr "a,,b")]) sampleWorld
  = (StatusJson 400 (ErrorBody invalid_query), sampleWorld).
Proof.
  apply (tag_criterion_with_empty_item_is_rejected
           (JObj [("name", JStr ""); ("city", JStr ""); ("tags", JStr "a,,b")])
           "a,,b" sampleWorld).
  - reflexivity.
  - discriminate.
  - right. left.
Defined.

Lemma city_criterion_is_matched_in_lower_case_witness :
  let query := JObj [("name", JStr ""); ("city", JStr "Paris"); ("tags", JStr "")] in
  let matches := List.filter (fun e => name_matches "" e.2)
                   (snapshot sampleWorld "business" [EqualTo "city" (JStr "paris")]) in
  getMatchingBusinesses query sampleWorld
  = (StatusJson 200 (MatchesBody matches), sampleWorld) /\
  exists composed,
    businessQuery (JStr "Paris") (prop query "tags") = Return composed /\
    (forall id d, (id, d) ∈ matches -> (id, d) ∈ snapshot sampleWorld "business" composed) /\
    (forall id d,
       (id, d) ∈ snapshot sampleWorld "business" composed ->
       d !! "city" = Some (JStr (toLowerCase "Paris")) /\
       forall stored, d !! "city" = Some (JStr stored) ->
                      existsb is_upper (list_ascii_of_string stored) = false).
Proof.
  intros query matches.
  assert (getMatchingBusinesses query sampleWorld
          = (StatusJson 200 (MatchesBody matches), sampleWorld)) as Hrun.
  { apply (getMatchingBusinesses_run _ "" [EqualTo "city" (JStr "paris")]);
      try reflexivity.
    apply all_named_snapshot, sampleWorld_named. }
  split; [exact Hrun|].
  apply (city_criterion_is_matched_in_lower_case query "Paris" sampleWorld sampleWorld
           matches eq_refl); [discriminate | reflexivity | exact Hrun].
Defined.



Lemma cafe_is_accepted : isBusiness anyEmail anyUri (JObj cafeFields) = true.
Proof. vm_compute. reflexivity. Qed.

Lemma accepted_timetable_has_distinct_week_days_witness :
  exists tt days,
    get_field cafeFields "timeTable" = JArr tt /\
    map (fun a => prop a "day") tt = map JStr days /\
    NoDup days /\
    (forall d, d ∈ days -> d ∈ daysOfWeek) /\
    length tt <= 7.
Proof.
  exact (accepted_timetable_has_distinct_week_days anyEmail anyUri cafeFields
           cafe_is_accepted).
Defined.

Lemma accepted_business_texts_are_not_empty_witness :
  (exists name, get_field cafeFields "name" = JStr name /\ name <> "") /\
  (forall k, k ∈ nullableTexts ->
             get_field cafeFields k = JNull \/
             exists text, get_field cafeFields k = JStr text /\ text <> "").
Proof.
  exact (accepted_business_texts_are_not_empty anyEmail anyUri cafeFields cafe_is_accepted).
Defined.

Lemma accepted_tags_are_well_formed_ids_witness :
  get_field cafeFields "tags" = JNull \/
  exists ids, get_field cafeFields "tags" = JArr (map JStr ids) /\
              Forall well_formed_id ids.
Proof.
  exact (accepted_tags_are_well_formed_ids anyEmail anyUri cafeFields cafe_is_accepted).
Defined.

Lemma flagged_is_accepted : isBusiness anyEmail anyUri (JObj flaggedFields) = true.
Proof. vm_compute. reflexivity. Qed.

Lemma string_flag_is_stored_and_not_featured_witness :
  let outcome := addNewBusiness anyEmail anyUri anyValue nextId (JObj flaggedFields)
                                sampleWorld in
  exists id featured,
    outcome.1 = Json 200 id /\
    (collection outcome.2 "business" !! id) ≫= (.!! "isFeatured") = Some (JStr "true") /\
    getFeatBusinesses outcome.2 = (Json 200 featured, outcome.2) /\
    forall d, (id, d) ∉ featured.
Proof.
  exact (string_flag_is_stored_and_not_featured anyEmail anyUri anyValue nextId
           flaggedFields "true" sampleWorld flagged_is_accepted eq_refl eq_refl).
Defined.

Lemma accepted_tag_is_one_clean_name_witness :
  exists name,
    doc_of tagFields = {[ "name" := JStr name ]} /\
    name <> "" /\
    (forall c rest, name = String c rest -> is_word c = true) /\
    (forall front c, name = front +:+ String c "" -> is_word c = true) /\
    (forall c, has_char c name = true -> code c < 128 ->
               is_word c || is_space c = true).
Proof.
  apply (accepted_tag_is_one_clean_name tagFields). reflexivity.
Defined.

Lemma tagWorld_tags : collection tagWorld "business-tag" = {[ tagA := doc_of tagFields ]}.
Proof. unfold collection, tagWorld, firestore. by rewrite lookup_singleton_eq. Qed.

Lemma written_tag_is_read_back_witness :
  (let added := addNewRecord anyValue nextId "business-tag" isTag (JObj tagFields)
                             emptyWorld in
   added.1 = Json 200 newId /\
   getTag "business-tag" newId added.2 = (Json 200 (doc_of tagFields), added.2)) /\
  (let updated := updateRecord anyValue "business-tag" isTag tagA
                               (JObj [("name", JStr "bakery")]) tagWorld in
   updated.1 = SendStatus 200 /\
   getTag "business-tag" tagA updated.2
   = (Json 200 (doc_of [("name", JStr "bakery")] ∪ doc_of tagFields), updated.2)).
Proof.
  split.
  - apply (written_tag_is_read_back anyValue nextId "business-tag" isTag tagA tagFields
             emptyWorld eq_refl eq_refl). exact newId_well_formed.
  - apply (proj2 (written_tag_is_read_back anyValue nextId "business-tag" isTag tagA
                    [("name", JStr "bakery")] tagWorld eq_refl eq_refl)
             tagA_well_formed).
    rewrite tagWorld_tags. apply lookup_singleton_eq.
Defined.

Lemma deleted_tag_is_not_found_witness :
  let deleted := deleteTag "business-tag" tagA tagWorld in
  deleted.1 = Sent 200 /\
  getTag "business-tag" tagA deleted.2 = (Failed 400 tag_not_found, deleted.2) /\
  deleteTag "business-tag" tagA deleted.2 = (Sent 200, deleted.2).
Proof.
  intros deleted.
  destruct (deleted_tag_is_not_found "business-tag" tagA tagWorld tagA_well_formed)
    as (H1 & H2 & H3 & _).
  exact (conj H1 (conj H2 H3)).
Defined.

Lemma postWorld_posts :
  collection postWorld "post"
  = {[ sampleId := doc_of [("tags", JArr [JStr tagA])];
       otherId := doc_of [("tags", JArr [JStr tagB])] ]}.
Proof. unfold collection, postWorld, firestore. by rewrite lookup_singleton_eq. Qed.

Lemma posts_by_tag_share_a_listed_tag_witness :
  let query := JObj [("tags", JStr "tagA0000000000000000,zz")] in
  exists posts,
    (Post.getPostsByTag query postWorld).1 = Json 200 posts /\
    (sampleId, doc_of [("tags", JArr [JStr tagA])]) ∈ posts /\
    (otherId, doc_of [("tags", JArr [JStr tagB])]) ∉ posts.
Proof.
  intros query.
  destruct (proj2 (proj2 (posts_by_tag_share_a_listed_tag query
                            "tagA0000000000000000,zz" postWorld eq_refl)) eq_refl)
    as (posts & Hrun & Hposts).
  exists posts. split; [exact Hrun|]. split.
  - apply Hposts. split.
    + rewrite postWorld_posts. apply lookup_insert_eq.
    + exists [JStr tagA], tagA. split; [apply lookup_insert_eq|].
      split; [by left | by left].
  - intros Hin. apply Hposts in Hin as [_ (xs & t & Htags & Hx & Ht)].
    assert (doc_of [("tags", JArr [JStr tagB])] !! "tags" = Some (JArr [JStr tagB]))
      as Hstored by apply lookup_insert_eq.
    rewrite Hstored in Htags. injection Htags as <-.
    apply list_elem_of_singleton in Hx. injection Hx as ->.
    change (split ","%char "tagA0000000000000000,zz") with [tagA; "zz"] in Ht.
    apply elem_of_cons in Ht as [Ht|Ht]; [discriminate Ht|].
    apply list_elem_of_singleton in Ht. discriminate Ht.
Defined.

Lemma businesses_stay_named_witness :
  all_named (map_to_list
     (collection (addNewBusiness anyEmail anyUri anyValue nextId (JObj barFields)
                                 sampleWorld).2 "business")) /\
  all_named (map_to_list
     (collection (updateBusiness anyEmail anyUri anyValue sampleId (JObj barFields)
                                 sampleWorld).2 "business")) /\
  all_named (map_to_list
     (collection (deleteBusinessAndFiles noFailure sampleId sampleWorld).2 "business")).
Proof.
  exact (businesses_stay_named anyEmail anyUri anyValue noFailure nextId sampleId
           (JObj barFields) sampleWorld sampleWorld_all_named).
Defined.

Lemma chatWorld_conversations :
  collection chatWorld "chat-conversation"
  = {[ sampleId := doc_of (members sampleUser otherUser) ]}.
Proof. unfold collection, chatWorld, firestore. by rewrite lookup_singleton_eq. Qed.

Lemma conversation_lookup_follows_the_order_of_members_witness :
  (getConversationByMembers (JObj (members sampleUser otherUser)) chatWorld).1
  = Json 200 sampleId /\
  (getConversationByMembers (JObj (members otherUser sampleUser)) chatWorld).1
  = Sent 404.
Proof.
  assert (collection chatWorld "chat-conversation" !! "" = None) as Hids.
  { rewrite chatWorld_conversations. by apply lookup_singleton_ne. }
  split.
  - destruct (conversation_lookup_follows_the_order_of_members sampleUser otherUser
                chatWorld sampleUser_well_formed otherUser_well_formed Hids)
      as [_ [(id & d & Hfound & Hstored & _)|[_ Hnone]]].
    + rewrite chatWorld_conversations in Hstored.
      apply lookup_singleton_Some in Hstored as [<- _]. exact Hfound.
    + exfalso. apply (Hnone sampleId (doc_of (members sampleUser otherUser))).
      * rewrite chatWorld_conversations. apply lookup_singleton_eq.
      * apply doc_of_members.
  - destruct (conversation_lookup_follows_the_order_of_members otherUser sampleUser
                chatWorld otherUser_well_formed sampleUser_well_formed Hids)
      as [_ [(id & d & _ & Hstored & Hone & _)|[Hnone _]]]; [|exact Hnone].
    exfalso. rewrite chatWorld_conversations in Hstored.
    apply lookup_singleton_Some in Hstored as [_ <-].
    destruct (doc_of_members sampleUser otherUser) as [Hone' _].
    rewrite Hone' in Hone. discriminate Hone.
Defined.

Lemma new_conversation_is_found_one_way_round_witness :
  let added := addNewConversation anyValue nextId (JObj (members sampleUser otherUser))
                                  emptyWorld in
  added.1 = Json 200 newId /\
  (exists id d,
     getConversationByMembers (JObj (members sampleUser otherUser)) added.2
     = (Json 200 id, added.2) /\
     collection added.2 "chat-conversation" !! id = Some d /\
     has_members sampleUser otherUser d) /\
  getConversationByMembers (JObj (members otherUser sampleUser)) added.2
  = (Sent 404, added.2).
Proof.
  apply (new_conversation_is_found_one_way_round anyValue nextId sampleUser otherUser
           emptyWorld sampleUser_well_formed otherUser_well_formed).
  - discriminate.
  - reflexivity.
  - discriminate.
  - reflexivity.
  - intros id d H. discriminate H.
Defined.

Lemma sent_message_is_listed_in_its_conversation_witness :
  let sent := sendMessage anyValue nextId 1700000000 (JObj messageFields) emptyWorld in
  exists conversation messages,
    get_field messageFields "conversationId" = JStr conversation /\
    sent.1 = Json 200 newId /\
    getConversationMessages conversation sent.2 = (Json 200 messages, sent.2).
Proof.
  intros sent.
  destruct (sent_message_is_listed_in_its_conversation anyValue nextId 1700000000
              messageFields emptyWorld eq_refl eq_refl)
    as (conversation & messages & H1 & H2 & H3 & _).
  exists conversation, messages. exact (conj H1 (conj H2 H3)).
Defined.

Lemma conversation_without_messages_is_not_found_witness :
  collection emptyWorld (messages_of sampleId) = ∅ <->
  getConversationMessages sampleId emptyWorld = (Sent 404, emptyWorld).
Proof.
  exact (conversation_without_messages_is_not_found sampleId emptyWorld
           sampleId_well_formed).
Defined.

Lemma user_photo_is_stored_under_its_file_name_witness :
  let remote := "user/abcdefghijklmnopqrstuvwxyz01/me.png" in
  let first := uploadUserPhoto anyFile url_of sampleUser "/tmp/me.png" emptyWorld in
  let second := uploadUserPhoto anyFile url_of sampleUser "/home/me.png" first.2 in
  first.1 = StatusJson 200 (FileURLBody (url_of remote)) /\
  second.1 = first.1 /\
  bucket second.2 = bucket first.2.
Proof.
  intros remote first second.
  destruct (user_photo_is_stored_under_its_file_name anyFile url_of sampleUser
              "/tmp/me.png" "/home/me.png" emptyWorld sampleUser_well_formed
              eq_refl eq_refl eq_refl eq_refl eq_refl)
    as (H1 & _ & _ & H2 & H3).
  exact (conj H1 (conj H2 H3)).
Defined.

Lemma accepted_path_names_a_file_witness :
  path_basename "/tmp/photo.png" <> "" /\
  has_char slash (path_basename "/tmp/photo.png") = false /\
  exists directory, "/tmp/photo.png" = directory +:+ path_basename "/tmp/photo.png".
Proof.
  apply (accepted_path_names_a_file "/tmp/photo.png"). reflexivity.
Defined.
